(** * A generic graph library: adjacency list, depth-first search, topological sort

    Shallow embedding of [src/graph/adjacency_list.hpp],
    [src/graph/depth_first_search.hpp] and [src/graph/topological_sort.hpp].

    - [std::size_t] indices are [nat]: every index of the source is a position
      in a [std::vector], and positions never reach the wrap-around point.
    - [std::vector] is [list]; [operator[]] is [!!], and an access outside the
      vector (undefined behaviour in C++) is the result [Fault].
    - a reference member is a [Ref]: it is [Alive] with the value of the
      object it is bound to, or [Dead] once that object is gone; a read
      through a dead reference (undefined behaviour in C++) is [Fault].
      Where the lifetime of an object is implementation-defined the choice is
      an argument of type [ParamLifetime].
    - template parameters are ordinary arguments: the directedness tag is a
      value of [DirectedCategory], payload types are Rocq types. *)

From stdpp Require Import base tactics option list numbers relations.

(** ** Results of partial operations *)

(** [Fault] stands for undefined behaviour (an out-of-range vector access, a
    read through a dead reference), [OutOfFuel] for a recursion deeper than
    the budget given to the model of a recursive function. *)
Inductive Res (A : Type) : Type :=
| Ok (a : A)
| Fault
| OutOfFuel.
Arguments Ok {A} a.
Arguments Fault {A}.
Arguments OutOfFuel {A}.

#[global] Instance Res_ret : MRet Res := @Ok.
#[global] Instance Res_bind : MBind Res := λ A B f r,
  match r with
  | Ok a => f a
  | Fault => Fault
  | OutOfFuel => OutOfFuel
  end.

(** [v[i]] on a [std::vector]. *)
Definition index {A} (l : list A) (i : nat) : Res A :=
  match l !! i with
  | Some x => Ok x
  | None => Fault
  end.

(** [v[i] = x] on a [std::vector]. *)
Definition assign {A} (l : list A) (i : nat) (x : A) : Res (list A) :=
  match l !! i with
  | Some _ => Ok (<[i:=x]> l)
  | None => Fault
  end.

(** Dereferencing every position of a range in turn. *)
Fixpoint traverse {A B} (f : A → Res B) (l : list A) : Res (list B) :=
  match l with
  | [] => Ok []
  | x :: l' => y ← f x; ys ← traverse f l'; Ok (y :: ys)
  end.

(** ** Parameters and the references bound to them *)

(** When the lifetime of a function parameter ends is implementation-defined:
    when the function returns, or at the end of the full-expression that
    contains the call. *)
Inductive ParamLifetime : Type := UntilReturn | UntilFullExpression.

#[global] Instance ParamLifetime_eq_dec : EqDecision ParamLifetime.
Proof. solve_decision. Defined.

(** A reference, as a read finds it. *)
Inductive Ref (A : Type) : Type :=
| Alive (a : A)
| Dead.
Arguments Alive {A} a.
Arguments Dead {A}.

Definition Ref_read {A} (r : Ref A) : Res A :=
  match r with
  | Alive a => Ok a
  | Dead => Fault
  end.

(** A reference bound to the parameter [a] of a call, as it is found after
    the call has returned and before the enclosing full-expression ends. *)
Definition param_ref (pl : ParamLifetime) {A} (a : A) : Ref A :=
  match pl with
  | UntilFullExpression => Alive a
  | UntilReturn => Dead
  end.

(** ** Tags and the no-payload marker *)

(** Modelled from the spec: [tags.hpp] is not part of the sources; the spec
    gives the directedness category as Directed or Bidirectional. *)
Inductive DirectedCategory : Type := Directed | Bidirectional.

#[global] Instance DirectedCategory_eq_dec : EqDecision DirectedCategory.
Proof. solve_decision. Defined.

(** Modelled from the spec: [properties.hpp] is not part of the sources; the
    spec describes [NoProp] as the marker for an absent payload. *)
Inductive NoProp : Type := noProp.

(** [std::is_default_constructible<T>], with the value that [T()] yields
    (value-initialisation: zero for a scalar). *)
Class DefaultConstructible (T : Type) : Type := default_value : T.

#[global] Instance NoProp_default : DefaultConstructible NoProp := noProp.
#[global] Instance Z_default : DefaultConstructible Z := 0%Z.
#[global] Instance nat_default : DefaultConstructible nat := 0.

(** The constraint [std::same_as<DirectedCategoryT, tags::Bidirectional>] of
    [inEdges] and [inDegree]; a call exists only together with a proof of it. *)
Definition requires_Bidirectional (c : DirectedCategory) : Prop :=
  c = Bidirectional.

(** The [static_assert] of [InEdgeRange]. *)
Definition InEdgeRange_static_assert (c : DirectedCategory) : Prop :=
  c ≠ Directed.


(** ** Storage *)

Abbreviation VertexDescriptor := nat.

Record OutEdge : Type := mkOutEdge { oe_storedEdgeIdx : nat }.
Record InEdge : Type := mkInEdge { ie_storedEdgeIdx : nat }.

Definition OutEdgeList : Type := list OutEdge.

(** [StoredVertexSimple*] has no [eIn] member, [StoredVertexComplex*] has an
    [InEdgeList]. *)
Definition InEdgeList (c : DirectedCategory) : Type :=
  match c with
  | Directed => unit
  | Bidirectional => list InEdge
  end.

(** The four vertex shapes of the source, selected by [c] and [VP]; with
    [VP := NoProp] the payload member carries no information. *)
Record StoredVertex (c : DirectedCategory) (VP : Type) : Type := mkStoredVertex {
  eOut : OutEdgeList;
  eIn : InEdgeList c;
  vProp : VP
}.
Arguments mkStoredVertex {c VP} eOut eIn vProp.
Arguments eOut {c VP} _.
Arguments eIn {c VP} _.
Arguments vProp {c VP} _.

(** [StoredEdgeNoProp] and [StoredEdgeProp]. *)
Record StoredEdge (EP : Type) : Type := mkStoredEdge {
  eProp : EP;
  se_src : nat;
  se_tar : nat
}.
Arguments mkStoredEdge {EP} eProp se_src se_tar.
Arguments eProp {EP} _.
Arguments se_src {EP} _.
Arguments se_tar {EP} _.

Record EdgeDescriptor : Type := mkEdgeDescriptor {
  src : nat;
  tar : nat;
  storedEdgeIdx : nat
}.

#[global] Instance EdgeDescriptor_eq_dec : EqDecision EdgeDescriptor.
Proof. solve_decision. Defined.

(** [operator==] on edge descriptors compares the stored index only. *)
Definition EdgeDescriptor_eqb (a b : EdgeDescriptor) : bool :=
  bool_decide (storedEdgeIdx a = storedEdgeIdx b).

Record AdjacencyList (c : DirectedCategory) (VP EP : Type) : Type := mkAdjacencyList {
  vList : list (StoredVertex c VP);
  eList : list (StoredEdge EP)
}.
Arguments mkAdjacencyList {c VP EP} vList eList.
Arguments vList {c VP EP} _.
Arguments eList {c VP EP} _.

(** The iterator of [VertexRange]: a counter that yields its value when
    dereferenced. *)
Record counting_iterator : Type := mkCountingIterator { base : VertexDescriptor }.

#[global] Instance counting_iterator_eq_dec : EqDecision counting_iterator.
Proof. solve_decision. Defined.

Section Store.
Context {c : DirectedCategory} {VP EP : Type}.
Abbreviation Graph := (AdjacencyList c VP EP).

(** The empty in-edge member of a default-constructed vertex. *)
Definition InEdgeList_empty : InEdgeList c :=
  match c with
  | Directed => tt
  | Bidirectional => []
  end.

(** [eIn.push_back(ie)]; only the Bidirectional overloads contain it. *)
Definition InEdgeList_push_back (ie : InEdge) : InEdgeList c → InEdgeList c :=
  match c with
  | Directed => λ s, s
  | Bidirectional => λ s, s ++ [ie]
  end.

(** The in-edge references a vertex stores: none in a Directed graph. *)
Definition InEdgeList_refs : InEdgeList c → list InEdge :=
  match c with
  | Directed => λ _, []
  | Bidirectional => λ s, s
  end.

(** [AdjacencyList()] and [AdjacencyList(n)]. *)
Definition AdjacencyList_empty : Graph := mkAdjacencyList [] [].

Definition AdjacencyList_n `{DefaultConstructible VP} (n : nat) : Graph :=
  mkAdjacencyList (replicate n (mkStoredVertex [] InEdgeList_empty default_value)) [].

Definition source (e : EdgeDescriptor) (g : Graph) : VertexDescriptor := src e.
Definition target (e : EdgeDescriptor) (g : Graph) : VertexDescriptor := tar e.

Definition numVertices (g : Graph) : nat := length (vList g).

(** [VertexRange]: the iterators from [begin()] up to [end()]. *)
Definition vertices (g : Graph) : list counting_iterator :=
  mkCountingIterator <$> seq 0 (numVertices g).

Definition numEdges (g : Graph) : nat := length (eList g).

(** [EdgeRange]: each stored edge with its position. *)
Definition edges (g : Graph) : list EdgeDescriptor :=
  imap (λ i e, mkEdgeDescriptor (se_src e) (se_tar e) i) (eList g).

Definition getIndex (v : VertexDescriptor) (g : Graph) : nat := v.

(** [OutEdgeRange::iterator::dereference] and its in-edge twin. *)
Definition dereference (g : Graph) (idx : nat) : Res EdgeDescriptor :=
  e ← index (eList g) idx;
  Ok (mkEdgeDescriptor (se_src e) (se_tar e) idx).

(** What [OutEdgeRange::begin()] and [end()] compute once they have read the
    vertex descriptor [v]: the positions of [vList[getIndex(v, g)].eOut]. *)
Definition out_positions (v : VertexDescriptor) (g : Graph) : Res (list OutEdge) :=
  sv ← index (vList g) (getIndex v g);
  Ok (eOut sv).

(** The out-edges stored for [v], in adjacency order: these positions,
    each one dereferenced. *)
Definition out_edge_sequence (v : VertexDescriptor) (g : Graph) : Res (list EdgeDescriptor) :=
  sv ← index (vList g) (getIndex v g);
  traverse (λ oe, dereference g (oe_storedEdgeIdx oe)) (eOut sv).

(** [std::distance] over these positions: nothing is dereferenced. *)
Definition out_edge_count (v : VertexDescriptor) (g : Graph) : Res nat :=
  sv ← index (vList g) (getIndex v g);
  Ok (length (eOut sv)).

(** [OutEdgeRange]: the member [v] is a [const VertexDescriptor&], the range
    holds no descriptor of its own; [g] points to the graph, which no caller
    in the sources writes between making a range and reading it. *)
Record OutEdgeRange : Type := mkOutEdgeRange {
  oer_v : Ref VertexDescriptor;
  oer_g : Graph
}.

(** [begin()] and [end()] read [v] through the member reference; reading the
    range is iterating from the one to the other. *)
Definition OutEdgeRange_positions (r : OutEdgeRange) : Res (list OutEdge) :=
  v ← Ref_read (oer_v r);
  out_positions v (oer_g r).

Definition OutEdgeRange_edges (r : OutEdgeRange) : Res (list EdgeDescriptor) :=
  v ← Ref_read (oer_v r);
  out_edge_sequence v (oer_g r).

Definition OutEdgeRange_distance (r : OutEdgeRange) : Res nat :=
  v ← Ref_read (oer_v r);
  out_edge_count v (oer_g r).

(** A range that outlives the full-expression of the call that made it
    ([auto oe = outEdges(v, g);]): the parameter behind its reference is gone
    on every implementation. *)
Definition OutEdgeRange_kept (r : OutEdgeRange) : OutEdgeRange :=
  mkOutEdgeRange Dead (oer_g r).

(** [outEdges(v, g)] takes [v] by value and hands its own parameter to the
    constructor of the range, which binds the member reference to it.  The
    result is the range as the rest of the full-expression finds it. *)
Definition outEdges (pl : ParamLifetime) (v : VertexDescriptor) (g : Graph) : OutEdgeRange :=
  mkOutEdgeRange (param_ref pl v) g.

(** [outDegree(v, g)]: [auto oe = outEdges(v, g);] and, in the next
    statement, [std::distance(oe.begin(), oe.end())]. *)
Definition outDegree (pl : ParamLifetime) (v : VertexDescriptor) (g : Graph) : Res nat :=
  let oe := OutEdgeRange_kept (outEdges pl v g) in
  OutEdgeRange_distance oe.

(** [addVertex(g)] and [addVertex(vp, g)]. *)
Definition addVertex `{DefaultConstructible VP} (g : Graph) : VertexDescriptor * Graph :=
  let newV := numVertices g in
  (newV, mkAdjacencyList
           (vList g ++ [mkStoredVertex [] InEdgeList_empty default_value])
           (eList g)).

Definition addVertex_prop (vp : VP) (g : Graph) : VertexDescriptor * Graph :=
  let newV := numVertices g in
  (newV, mkAdjacencyList
           (vList g ++ [mkStoredVertex [] InEdgeList_empty vp])
           (eList g)).

(** [g.vList[i].eOut.push_back(oe)] and [g.vList[i].eIn.push_back(ie)]. *)
Definition push_out (i : nat) (oe : OutEdge) (vl : list (StoredVertex c VP))
  : Res (list (StoredVertex c VP)) :=
  sv ← index vl i;
  Ok (<[i := mkStoredVertex (eOut sv ++ [oe]) (eIn sv) (vProp sv)]> vl).

Definition push_in (i : nat) (ie : InEdge) (vl : list (StoredVertex c VP))
  : Res (list (StoredVertex c VP)) :=
  sv ← index vl i;
  Ok (<[i := mkStoredVertex (eOut sv) (InEdgeList_push_back ie (eIn sv)) (vProp sv)]> vl).

(** The property accessors [g[v]] and [g[e]], read and written. *)
Definition vertex_prop (g : Graph) (v : VertexDescriptor) : Res VP :=
  sv ← index (vList g) (getIndex v g);
  Ok (vProp sv).

Definition edge_prop (g : Graph) (e : EdgeDescriptor) : Res EP :=
  se ← index (eList g) (storedEdgeIdx e);
  Ok (eProp se).

Definition vertex_prop_write (g : Graph) (v : VertexDescriptor) (x : VP) : Res Graph :=
  sv ← index (vList g) (getIndex v g);
  Ok (mkAdjacencyList
        (<[getIndex v g := mkStoredVertex (eOut sv) (eIn sv) x]> (vList g))
        (eList g)).

Definition edge_prop_write (g : Graph) (e : EdgeDescriptor) (x : EP) : Res Graph :=
  se ← index (eList g) (storedEdgeIdx e);
  Ok (mkAdjacencyList
        (vList g)
        (<[storedEdgeIdx e := mkStoredEdge x (se_src se) (se_tar se)]> (eList g))).
End Store.

(** ** The [addEdge] overloads *)

Section AddEdge.
Context {VP EP : Type}.

(** [addEdge(v, u, ep, g)] for [tags::Directed]. *)
Definition addEdge_prop_Directed (v u : VertexDescriptor) (ep : EP)
    (g : AdjacencyList Directed VP EP)
  : Res (EdgeDescriptor * AdjacencyList Directed VP EP) :=
  let index := numEdges g in
  let el := eList g ++ [mkStoredEdge ep v u] in
  let newEdge := mkEdgeDescriptor v u index in
  let oe := mkOutEdge index in
  let vertexIndex := getIndex v g in
  vl ← push_out vertexIndex oe (vList g);
  Ok (newEdge, mkAdjacencyList vl el).

(** [addEdge(v, u, ep, g)] for [tags::Bidirectional]. *)
Definition addEdge_prop_Bidirectional (v u : VertexDescriptor) (ep : EP)
    (g : AdjacencyList Bidirectional VP EP)
  : Res (EdgeDescriptor * AdjacencyList Bidirectional VP EP) :=
  let index := numEdges g in
  let el := eList g ++ [mkStoredEdge ep v u] in
  let newEdge := mkEdgeDescriptor v u index in
  let oe := mkOutEdge index in
  let vertexIndex_v := getIndex v g in
  vl ← push_out vertexIndex_v oe (vList g);
  let ie := mkInEdge index in
  let vertexIndex_u := getIndex u g in
  vl' ← push_in vertexIndex_u ie vl;
  Ok (newEdge, mkAdjacencyList vl' el).
End AddEdge.

(** Overload resolution on the directedness tag. *)
Definition addEdge_prop {c : DirectedCategory} {VP EP : Type}
  : VertexDescriptor → VertexDescriptor → EP → AdjacencyList c VP EP →
    Res (EdgeDescriptor * AdjacencyList c VP EP) :=
  match c with
  | Directed => addEdge_prop_Directed
  | Bidirectional => addEdge_prop_Bidirectional
  end.

(** [addEdge(v, u, g)]: the stored edge is built by [StoredEdge(v, u)], which
    names no initialiser for the payload member.  The member is
    default-initialised: a scalar [EdgeProp] is left with an indeterminate
    value.  [held] is what the member holds. *)
Definition addEdge {c : DirectedCategory} {VP EP : Type} `{DefaultConstructible EP}
    (held : EP) (v u : VertexDescriptor) (g : AdjacencyList c VP EP)
  : Res (EdgeDescriptor * AdjacencyList c VP EP) :=
  addEdge_prop v u held g.

(** ** In-edges: Bidirectional graphs only *)

Section InEdges.
Context {c : DirectedCategory} {VP EP : Type}.
Abbreviation Graph := (AdjacencyList c VP EP).

(** The [eIn] member, which exists under the constraint only. *)
Definition InEdgeList_get (req : requires_Bidirectional c)
  : InEdgeList c → list InEdge :=
  match c as c0 return c0 = Bidirectional → InEdgeList c0 → list InEdge with
  | Bidirectional => λ _ s, s
  | Directed => λ req _,
      match req in (_ = y)
            return (match y with Bidirectional => list InEdge | Directed => True end)
      with eq_refl => I end
  end req.

(** The in-edges stored for [v], in adjacency order, and their number: the
    positions of [vList[getIndex(v, g)].eIn], dereferenced and counted. *)
Definition in_edge_sequence (req : requires_Bidirectional c)
    (v : VertexDescriptor) (g : Graph) : Res (list EdgeDescriptor) :=
  sv ← index (vList g) (getIndex v g);
  traverse (λ ie, dereference g (ie_storedEdgeIdx ie)) (InEdgeList_get req (eIn sv)).

Definition in_edge_count (req : requires_Bidirectional c)
    (v : VertexDescriptor) (g : Graph) : Res nat :=
  sv ← index (vList g) (getIndex v g);
  Ok (length (InEdgeList_get req (eIn sv))).

(** [InEdgeRange]: as [OutEdgeRange], over the [eIn] member.  The class
    carries a [static_assert]: no range exists for a Directed graph. *)
Record InEdgeRange : Type := mkInEdgeRange {
  ier_static_assert : InEdgeRange_static_assert c;
  ier_v : Ref VertexDescriptor;
  ier_g : Graph
}.

(** Under the [static_assert] the vertices have an [eIn] member. *)
Definition InEdgeRange_eIn (r : InEdgeRange) : requires_Bidirectional c :=
  match c as c0 return InEdgeRange_static_assert c0 → requires_Bidirectional c0 with
  | Directed => λ sa, match sa eq_refl with end
  | Bidirectional => λ _, eq_refl
  end (ier_static_assert r).

Definition InEdgeRange_edges (r : InEdgeRange) : Res (list EdgeDescriptor) :=
  v ← Ref_read (ier_v r);
  in_edge_sequence (InEdgeRange_eIn r) v (ier_g r).

Definition InEdgeRange_distance (r : InEdgeRange) : Res nat :=
  v ← Ref_read (ier_v r);
  in_edge_count (InEdgeRange_eIn r) v (ier_g r).

Definition InEdgeRange_kept (r : InEdgeRange) : InEdgeRange :=
  mkInEdgeRange (ier_static_assert r) Dead (ier_g r).

(** The constraint of [inEdges] grants the [static_assert] of its result. *)
Definition requires_static_assert (req : requires_Bidirectional c)
  : InEdgeRange_static_assert c :=
  λ H, match eq_trans (eq_sym req) H in (_ = y)
             return (match y with Bidirectional => True | Directed => False end)
       with eq_refl => I end.

(** [inEdges(v, g)] and [inDegree(v, g)], written as their out-edge twins. *)
Definition inEdges (pl : ParamLifetime) (req : requires_Bidirectional c)
    (v : VertexDescriptor) (g : Graph) : InEdgeRange :=
  mkInEdgeRange (requires_static_assert req) (param_ref pl v) g.

Definition inDegree (pl : ParamLifetime) (req : requires_Bidirectional c)
    (v : VertexDescriptor) (g : Graph) : Res nat :=
  let ie := InEdgeRange_kept (inEdges pl req v g) in
  InEdgeRange_distance ie.
End InEdges.

Arguments OutEdgeRange c VP EP : clear implicits.
Arguments InEdgeRange c VP EP : clear implicits.

(** ** Depth-first search *)

Inductive DFSColour : Type := White | Grey | Black.

#[global] Instance DFSColour_eq_dec : EqDecision DFSColour.
Proof. solve_decision. Defined.

(** What a callback writes to the graph.  Every callback receives the graph
    as [const G&] and cannot write through that; a visitor that holds a
    reference into the graph of its own, or an output iterator that points
    into it, can.  The writes to stored payloads ([g[v] = x], [g[e] = x]) are
    modelled, as the new payload of every vertex and of every edge position:
    they move no storage.  A callback that adds vertices or edges to the
    graph under the running loops is outside the model. *)
Record PayloadUpdate (VP EP : Type) : Type := mkPayloadUpdate {
  upd_vProp : VertexDescriptor → VP → VP;
  upd_eProp : nat → EP → EP
}.
Arguments mkPayloadUpdate {VP EP} upd_vProp upd_eProp.
Arguments upd_vProp {VP EP} _ _ _.
Arguments upd_eProp {VP EP} _ _ _.

Definition write_payloads {c VP EP} (upd : option (PayloadUpdate VP EP))
    (g : AdjacencyList c VP EP) : AdjacencyList c VP EP :=
  match upd with
  | None => g
  | Some upd =>
    mkAdjacencyList
      (imap (λ v sv, mkStoredVertex (eOut sv) (eIn sv) (upd_vProp upd v (vProp sv)))
            (vList g))
      (imap (λ i se, mkStoredEdge (upd_eProp upd i (eProp se)) (se_src se) (se_tar se))
            (eList g))
  end.

Section DFS.
Context {c : DirectedCategory} {VP EP : Type}.
Context {VS W : Type}.
Abbreviation Graph := (AdjacencyList c VP EP).

(** A visitor object has a state of its own, [VS], which [dfs] and
    [dfsVisit] receive by value, and acts on a world [W] that it reaches
    through references (a container behind an iterator, a stream).  A
    callback leaves the visitor object, the world, and what it wrote to the
    payloads of the graph, if anything. *)
Definition Effect : Type := VS * W * option (PayloadUpdate VP EP).

(** The template parameter [V] of [initVertex] and [startVertex] is
    instantiated by [dfs] with the iterator of [VertexRange], that of
    [discoverVertex] and [finishVertex] by [dfsVisit] with the descriptor. *)
Record Visitor : Type := mkVisitor {
  initVertex : counting_iterator → Graph → VS → W → Effect;
  startVertex : counting_iterator → Graph → VS → W → Effect;
  discoverVertex : VertexDescriptor → Graph → VS → W → Effect;
  finishVertex : VertexDescriptor → Graph → VS → W → Effect;
  examineEdge : EdgeDescriptor → Graph → VS → W → Effect;
  treeEdge : EdgeDescriptor → Graph → VS → W → Effect;
  backEdge : EdgeDescriptor → Graph → VS → W → Effect;
  forwardOrCrossEdge : EdgeDescriptor → Graph → VS → W → Effect;
  finishEdge : EdgeDescriptor → Graph → VS → W → Effect
}.

(** [DFSNullVisitor]: every callback is empty. *)
Definition DFSNullVisitor : Visitor :=
  let skip {A} : A → Graph → VS → W → Effect := λ _ _ vs w, (vs, w, None) in
  mkVisitor skip skip skip skip skip skip skip skip skip.

(** The objects a run refers to: the graph behind [g], the colour vector
    behind [colour], and the world of the visitor. *)
Record Memory : Type := mkMemory {
  mem_graph : Graph;
  mem_colour : list DFSColour;
  mem_world : W
}.

(** [visitor.callback(x, g)] on the visitor object [vs]. *)
Definition call (cb : Graph → VS → W → Effect) (vs : VS) (m : Memory) : VS * Memory :=
  let r := cb (mem_graph m) vs (mem_world m) in
  (r.1.1, mkMemory (write_payloads r.2 (mem_graph m)) (mem_colour m) r.1.2).

(** [colour[u] = col]. *)
Definition set_colour (u : VertexDescriptor) (col : DFSColour) (m : Memory) : Res Memory :=
  cv ← assign (mem_colour m) u col;
  Ok (mkMemory (mem_graph m) cv (mem_world m)).

(** The body of the [for] loop of [dfsVisit], once for each position [es]
    between [begin()] and [end()]; [visit] is the recursive call, which
    receives a copy of the visitor. *)
Fixpoint dfsVisit_edges (visit : VS → VertexDescriptor → Memory → Res Memory)
    (visitor : Visitor) (es : list OutEdge) (vs : VS) (m : Memory)
  : Res (VS * Memory) :=
  match es with
  | [] => Ok (vs, m)
  | oe :: es' =>
    e ← dereference (mem_graph m) (oe_storedEdgeIdx oe);
    let v := tar e in
    let r1 := call (examineEdge visitor e) vs m in
    cv ← index (mem_colour r1.2) v;
    r2 ← match cv with
         | White =>
           let r := call (treeEdge visitor e) r1.1 r1.2 in
           m' ← visit r.1 v r.2;
           Ok (r.1, m')
         | Grey => Ok (call (backEdge visitor e) r1.1 r1.2)
         | Black => Ok (call (forwardOrCrossEdge visitor e) r1.1 r1.2)
         end;
    let r3 := call (finishEdge visitor e) r2.1 r2.2 in
    dfsVisit_edges visit visitor es' r3.1 r3.2
  end.

(** [detail::dfsVisit]; [fuel] bounds the depth of the recursion.  The head
    of the loop is [outEdges(u, g).begin()] and [outEdges(u, g).end()]:
    each reads the range in the full-expression that makes it.  The payload
    writes of the callbacks leave the positions in place, so every later
    read of [end()] finds what the first one found. *)
Fixpoint dfsVisit (pl : ParamLifetime) (fuel : nat) (visitor : Visitor) (vs : VS)
    (u : VertexDescriptor) (m : Memory) : Res Memory :=
  match fuel with
  | 0 => OutOfFuel
  | S fuel' =>
    let r1 := call (discoverVertex visitor u) vs m in
    m2 ← set_colour u Grey r1.2;
    es ← OutEdgeRange_positions (outEdges pl u (mem_graph m2));
    r3 ← dfsVisit_edges (dfsVisit pl fuel' visitor) visitor es r1.1 m2;
    m4 ← set_colour u Black r3.2;
    let r5 := call (finishVertex visitor u) r3.1 m4 in
    Ok r5.2
  end.

(** The first loop of [dfs]. *)
Fixpoint dfs_init (visitor : Visitor) (vs : list counting_iterator)
    (vis : VS) (m : Memory) : Res (VS * Memory) :=
  match vs with
  | [] => Ok (vis, m)
  | v :: vs' =>
    m1 ← set_colour (base v) White m;
    let r := call (initVertex visitor v) vis m1 in
    dfs_init visitor vs' r.1 r.2
  end.

(** The second loop of [dfs]. *)
Fixpoint dfs_roots (pl : ParamLifetime) (fuel : nat) (visitor : Visitor)
    (vs : list counting_iterator) (vis : VS) (m : Memory) : Res (VS * Memory) :=
  match vs with
  | [] => Ok (vis, m)
  | v :: vs' =>
    cv ← index (mem_colour m) (base v);
    match cv with
    | White =>
      let r := call (startVertex visitor v) vis m in
      m' ← dfsVisit pl fuel visitor r.1 (base v) r.2;
      dfs_roots pl fuel visitor vs' r.1 m'
    | _ => dfs_roots pl fuel visitor vs' vis m
    end
  end.

(** [dfs(g, visitor)].  The recursion of [dfsVisit] nests at most once per
    vertex, so [numVertices g] is the depth given to it.  The result is the
    graph and the world after the call; the colour vector is a local. *)
Definition dfs (pl : ParamLifetime) (visitor : Visitor) (vis : VS) (g : Graph) (w : W)
  : Res (Graph * W) :=
  let colour_vec := replicate (numVertices g) White in
  let m := mkMemory g colour_vec w in
  r1 ← dfs_init visitor (vertices (mem_graph m)) vis m;
  r2 ← dfs_roots pl (numVertices (mem_graph r1.2)) visitor
         (vertices (mem_graph r1.2)) r1.1 r1.2;
  Ok (mem_graph r2.2, mem_world r2.2).
End DFS.

Arguments Effect VP EP VS W : clear implicits.
Arguments Visitor c VP EP VS W : clear implicits.
Arguments Memory c VP EP W : clear implicits.

(** ** The callbacks a run fires *)

Inductive Event : Type :=
| EvInitVertex (v : counting_iterator)
| EvStartVertex (v : counting_iterator)
| EvDiscoverVertex (v : VertexDescriptor)
| EvFinishVertex (v : VertexDescriptor)
| EvExamineEdge (e : EdgeDescriptor)
| EvTreeEdge (e : EdgeDescriptor)
| EvBackEdge (e : EdgeDescriptor)
| EvForwardOrCrossEdge (e : EdgeDescriptor)
| EvFinishEdge (e : EdgeDescriptor).

#[global] Instance Event_eq_dec : EqDecision Event.
Proof. solve_decision. Defined.

(** A visitor that writes every callback it receives, with its argument, to a
    log it holds by reference. *)
Definition RecordingVisitor {c VP EP} : Visitor c VP EP unit (list Event) :=
  let log {A} (ev : A → Event) : A → AdjacencyList c VP EP → unit → list Event →
                                 Effect VP EP unit (list Event) :=
    λ x _ vs w, (vs, w ++ [ev x], None) in
  mkVisitor (log EvInitVertex) (log EvStartVertex)
            (log EvDiscoverVertex) (log EvFinishVertex)
            (log EvExamineEdge) (log EvTreeEdge) (log EvBackEdge)
            (log EvForwardOrCrossEdge) (log EvFinishEdge).

(** The callbacks fired by [dfs(g, visitor)], in order. *)
Definition dfs_trace {c VP EP} (pl : ParamLifetime) (g : AdjacencyList c VP EP)
  : Res (list Event) :=
  r ← dfs pl RecordingVisitor tt g [];
  Ok r.2.

(** ** Topological sort *)

(** [*iter = v] on an output iterator, acting on what the iterator refers
    to: a container outside the graph, or a payload of the graph. *)
Class OutputIterator (VP EP OIter Out : Type) : Type :=
  iter_assign : OIter → VertexDescriptor → Out → Out * option (PayloadUpdate VP EP).

(** [std::back_insert_iterator]: the assignment is [push_back] on the
    container the iterator was made from. *)
Inductive back_insert_iterator : Type := back_inserter.

#[global] Instance back_insert_iterator_output {VP EP}
  : OutputIterator VP EP back_insert_iterator (list VertexDescriptor) :=
  λ _ v out, (out ++ [v], None).

(** An iterator into a [std::vector<std::size_t>], at position [vi_pos]: the
    assignment overwrites the element there, which has to exist. *)
Record vector_iterator : Type := mkVectorIterator { vi_pos : nat }.

#[global] Instance vector_iterator_output {VP EP}
  : OutputIterator VP EP vector_iterator (Res (list VertexDescriptor)) :=
  λ it v out, (l ← out; assign l (vi_pos it) v, None).

(** [&g[p]]: a pointer to the payload of the vertex [p] of the graph that is
    sorted, for a payload type that a vertex descriptor converts to. *)
Record payload_pointer : Type := mkPayloadPointer { pointee : VertexDescriptor }.

#[global] Instance payload_pointer_output {EP}
  : OutputIterator nat EP payload_pointer unit :=
  λ p v out,
    (out, Some (mkPayloadUpdate (λ w x, if decide (w = pointee p) then v else x)
                                (λ _ x, x))).

(** [detail::TopoVisitor]: [DFSNullVisitor] with [finishVertex] overridden.
    The iterator is assigned through and never advanced. *)
Definition TopoVisitor {c VP EP} {OIter Out} `{OutputIterator VP EP OIter Out}
  : Visitor c VP EP OIter Out :=
  let null := DFSNullVisitor in
  mkVisitor (initVertex null) (startVertex null) (discoverVertex null)
            (λ v g iter out, let r := iter_assign iter v out in (iter, r.1, r.2))
            (examineEdge null) (treeEdge null) (backEdge null)
            (forwardOrCrossEdge null) (finishEdge null).

(** [topoSort(g, oIter)]. *)
Definition topoSort {c VP EP} {OIter Out} `{OutputIterator VP EP OIter Out}
    (pl : ParamLifetime) (g : AdjacencyList c VP EP) (oIter : OIter) (out : Out)
  : Res (AdjacencyList c VP EP * Out) :=
  dfs pl TopoVisitor oIter g out.

(** ** The graphs of the demonstration driver ([test/main.cpp]) *)

Definition TestGraph : Type := AdjacencyList Directed NoProp NoProp.

(** [testTopoSort(1)]. *)
Definition Graph1 : Res TestGraph :=
  let g : TestGraph := AdjacencyList_empty in
  let '(v0, g) := addVertex g in
  let '(_, g) := addVertex g in
  let '(v2, g) := addVertex g in
  let '(v3, g) := addVertex g in
  let '(v4, g) := addVertex g in
  let '(v5, g) := addVertex g in
  let '(v6, g) := addVertex g in
  let '(v7, g) := addVertex g in
  r ← addEdge noProp v0 v3 g;
  r ← addEdge noProp v3 v5 r.2;
  r ← addEdge noProp v5 v7 r.2;
  r ← addEdge noProp v2 v4 r.2;
  r ← addEdge noProp v4 v6 r.2;
  r ← addEdge noProp v6 v7 r.2;
  Ok r.2.

(** The graph that [Graph1] leaves in [g]. *)
Definition graph1 : TestGraph :=
  match Graph1 with
  | Ok g => g
  | _ => AdjacencyList_empty
  end.

(** A graph with a self-loop, two parallel edges and an isolated vertex. *)
Definition LoopGraph : Res TestGraph :=
  let g : TestGraph := AdjacencyList_empty in
  let '(v0, g) := addVertex g in
  let '(v1, g) := addVertex g in
  let '(_, g) := addVertex g in
  r ← addEdge noProp v0 v0 g;
  r ← addEdge noProp v0 v1 r.2;
  r ← addEdge noProp v0 v1 r.2;
  Ok r.2.

Definition loop_graph : TestGraph :=
  match LoopGraph with
  | Ok g => g
  | _ => AdjacencyList_empty
  end.

(** A graph whose only edge leads to a descriptor that is not a vertex. *)
Definition DanglingGraph : Res TestGraph :=
  let g : TestGraph := AdjacencyList_n 1 in
  r ← addEdge noProp 0 5 g;
  Ok r.2.

Definition dangling_graph : TestGraph :=
  match DanglingGraph with
  | Ok g => g
  | _ => AdjacencyList_empty
  end.

(** Two vertices without edges, with a [std::size_t] payload. *)
Definition two_vertices : AdjacencyList Directed nat NoProp := AdjacencyList_n 2.

(** The call sequence of [testTopoSort]: [topoSort] into
    [std::back_inserter(vs)], then [std::reverse]. *)
Definition testTopoSort (pl : ParamLifetime) (g : TestGraph)
  : Res (list VertexDescriptor) :=
  r ← topoSort pl g back_inserter [];
  Ok (reverse r.2).

(** The Bidirectional graph with payloads built in [main]; the last edge is
    added without a payload, [held] is what its payload member holds. *)
Definition MainGraph (held : Z) : Res (AdjacencyList Bidirectional Z Z) :=
  let g : AdjacencyList Bidirectional Z Z := AdjacencyList_empty in
  let '(v, g) := addVertex g in
  let '(u, g) := addVertex_prop 43%Z g in
  let '(u2, g) := addVertex g in
  let '(_, g) := addVertex g in
  let '(_, g) := addVertex g in
  r ← addEdge_prop v u 123%Z g;
  r ← addEdge_prop u v 321%Z r.2;
  r ← addEdge held u2 v r.2;
  Ok r.2.

(** The graph that [MainGraph] leaves in [g], with a zero in the payload
    member that was not initialised. *)
Definition main_graph : AdjacencyList Bidirectional Z Z :=
  match MainGraph 0 with
  | Ok g => g
  | _ => AdjacencyList_empty
  end.

(** ** Observations on a sequence of callbacks *)

Definition discovered (evs : list Event) : list VertexDescriptor :=
  omap (λ ev, match ev with EvDiscoverVertex v => Some v | _ => None end) evs.

Definition finished (evs : list Event) : list VertexDescriptor :=
  omap (λ ev, match ev with EvFinishVertex v => Some v | _ => None end) evs.

Definition examined (evs : list Event) : list EdgeDescriptor :=
  omap (λ ev, match ev with EvExamineEdge e => Some e | _ => None end) evs.

(** How often a callback was fired with a given argument. *)
Definition occurrences (ev : Event) (evs : list Event) : nat :=
  length (filter (ev =.) evs).

(** [a == b] on edge descriptors, and how often an edge occurs in a range. *)
Definition edge_eq (a b : EdgeDescriptor) : Prop :=
  EdgeDescriptor_eqb a b = true.

#[global] Instance edge_eq_dec : RelDecision edge_eq.
Proof. intros a b. unfold edge_eq. apply _. Defined.

Definition count_edge (e : EdgeDescriptor) (es : list EdgeDescriptor) : nat :=
  length (filter (edge_eq e) es).

(** Whether a vertex has been entered (it is Active or Done), and whether it
    has been left (it is Done), as numbers. *)
Definition entered (o : option DFSColour) : nat :=
  match o with
  | Some Grey | Some Black => 1
  | _ => 0
  end.

Definition left_behind (o : option DFSColour) : nat :=
  match o with
  | Some Black => 1
  | _ => 0
  end.

(** The vertices that are still Unvisited. *)
Definition whites (st : list DFSColour) : nat :=
  length (filter (White =.) st).

(** ** The visitor protocol, as the specification words it

    The states Unvisited, Active and Done are the colours [White], [Grey] and
    [Black]; [Visit g st u evs st'] says that entering [u] in state [st] fires
    the callbacks [evs] and leaves the state [st']. *)

Section Protocol.
Context {c : DirectedCategory} {VP EP : Type}.
Abbreviation Graph := (AdjacencyList c VP EP).

Inductive Visit (g : Graph)
  : list DFSColour → VertexDescriptor → list Event → list DFSColour → Prop :=
| Visit_vertex st u es evs st' :
    st !! u = Some White →
    out_edge_sequence u g = Ok es →
    VisitEdges g (<[u:=Grey]> st) es evs st' →
    Visit g st u (EvDiscoverVertex u :: evs ++ [EvFinishVertex u]) (<[u:=Black]> st')
with VisitEdges (g : Graph)
  : list DFSColour → list EdgeDescriptor → list Event → list DFSColour → Prop :=
| VisitEdges_nil st :
    VisitEdges g st [] [] st
| VisitEdges_tree st e es evs1 st1 evs2 st2 :
    st !! tar e = Some White →
    Visit g st (tar e) evs1 st1 →
    VisitEdges g st1 es evs2 st2 →
    VisitEdges g st (e :: es)
      (EvExamineEdge e :: EvTreeEdge e :: evs1 ++ EvFinishEdge e :: evs2) st2
| VisitEdges_back st e es evs2 st2 :
    st !! tar e = Some Grey →
    VisitEdges g st es evs2 st2 →
    VisitEdges g st (e :: es)
      (EvExamineEdge e :: EvBackEdge e :: EvFinishEdge e :: evs2) st2
| VisitEdges_forwardOrCross st e es evs2 st2 :
    st !! tar e = Some Black →
    VisitEdges g st es evs2 st2 →
    VisitEdges g st (e :: es)
      (EvExamineEdge e :: EvForwardOrCrossEdge e :: EvFinishEdge e :: evs2) st2.

(** The vertices in ascending order, a new tree from each one that is still
    Unvisited. *)
Inductive VisitRoots (g : Graph)
  : list DFSColour → list counting_iterator → list Event → list DFSColour → Prop :=
| VisitRoots_nil st :
    VisitRoots g st [] [] st
| VisitRoots_start st v vs evs1 st1 evs2 st2 :
    st !! base v = Some White →
    Visit g st (base v) evs1 st1 →
    VisitRoots g st1 vs evs2 st2 →
    VisitRoots g st (v :: vs) (EvStartVertex v :: evs1 ++ evs2) st2
| VisitRoots_skip st v vs cv evs st2 :
    st !! base v = Some cv →
    cv ≠ White →
    VisitRoots g st vs evs st2 →
    VisitRoots g st (v :: vs) evs st2.

(** A whole run: every vertex is initialised, then the roots are visited
    from the all-Unvisited state. *)
Definition DfsProtocol (g : Graph) (evs : list Event) : Prop :=
  ∃ body st',
    evs = (EvInitVertex <$> vertices g) ++ body ∧
    VisitRoots g (replicate (numVertices g) White) (vertices g) body st'.
End Protocol.

Scheme Visit_mut := Minimality for Visit Sort Prop
  with VisitEdges_mut := Minimality for VisitEdges Sort Prop.
Combined Scheme Visit_VisitEdges_ind from Visit_mut, VisitEdges_mut.

(** ** Adjacency consistency *)

Section Consistency.
Context {c : DirectedCategory} {VP EP : Type}.
Abbreviation Graph := (AdjacencyList c VP EP).

(** Every out-edge reference of a vertex points to a stored edge whose
    source is that vertex; every in-edge reference to one whose target is
    that vertex. *)
Definition out_refs_consistent (g : Graph) : Prop :=
  ∀ v sv oe, vList g !! v = Some sv → oe ∈ eOut sv →
    ∃ se, eList g !! oe_storedEdgeIdx oe = Some se ∧ se_src se = v.

Definition in_refs_consistent (g : Graph) : Prop :=
  ∀ v sv ie, vList g !! v = Some sv → ie ∈ InEdgeList_refs (eIn sv) →
    ∃ se, eList g !! ie_storedEdgeIdx ie = Some se ∧ se_tar se = v.

(** Every edge occurs once in the out-edges of its source and in those of
    no other vertex; in a Bidirectional graph the same for in-edges and
    its target. *)
Definition out_edges_once (g : Graph) : Prop :=
  ∀ e, e ∈ edges g →
    (∃ es, out_edge_sequence (src e) g = Ok es ∧ count_edge e es = 1) ∧
    (∀ v es, v ≠ src e → out_edge_sequence v g = Ok es → count_edge e es = 0).

Definition in_edges_once (g : Graph) : Prop :=
  ∀ (req : requires_Bidirectional c) e, e ∈ edges g →
    (∃ es, in_edge_sequence req (tar e) g = Ok es ∧ count_edge e es = 1) ∧
    (∀ v es, v ≠ tar e → in_edge_sequence req v g = Ok es → count_edge e es = 0).

Definition adjacency_consistent (g : Graph) : Prop :=
  out_edges_once g ∧ in_edges_once g ∧
  out_refs_consistent g ∧ in_refs_consistent g.

(** What the storage looks like after any sequence of operations: the
    references of a vertex are the positions of its edges in creation
    order, and the end points the operations index with are vertices. *)
Definition edges_with (f : StoredEdge EP → nat) (el : list (StoredEdge EP))
    (v : VertexDescriptor) : list nat :=
  filter (λ i, f <$> el !! i = Some v) (seq 0 (length el)).

Definition edges_from (g : Graph) (v : VertexDescriptor) : list nat :=
  edges_with se_src (eList g) v.

Definition edges_into (g : Graph) (v : VertexDescriptor) : list nat :=
  edges_with se_tar (eList g) v.

(** The descriptor that dereferencing position [i] yields. *)
Definition edge_at (g : Graph) (i : nat) : EdgeDescriptor :=
  match eList g !! i with
  | Some se => mkEdgeDescriptor (se_src se) (se_tar se) i
  | None => mkEdgeDescriptor 0 0 i
  end.

Definition storage_invariant (g : Graph) : Prop :=
  (∀ i se, eList g !! i = Some se → se_src se < numVertices g) ∧
  (∀ v sv, vList g !! v = Some sv →
     oe_storedEdgeIdx <$> eOut sv = edges_from g v) ∧
  match c with
  | Directed => True
  | Bidirectional =>
    (∀ i se, eList g !! i = Some se → se_tar se < numVertices g) ∧
    (∀ v sv, vList g !! v = Some sv →
       ie_storedEdgeIdx <$> InEdgeList_refs (eIn sv) = edges_into g v)
  end.

(** The graphs that the operations of the store produce. *)
Inductive built : Graph → Prop :=
| built_empty :
    built AdjacencyList_empty
| built_n (D : DefaultConstructible VP) n :
    built (AdjacencyList_n n)
| built_addVertex (D : DefaultConstructible VP) g :
    built g → built (addVertex g).2
| built_addVertex_prop vp g :
    built g → built (addVertex_prop vp g).2
| built_addEdge (D : DefaultConstructible EP) held v u g r :
    built g → addEdge held v u g = Ok r → built r.2
| built_addEdge_prop v u ep g r :
    built g → addEdge_prop v u ep g = Ok r → built r.2
| built_vertex_prop_write g v x g' :
    built g → vertex_prop_write g v x = Ok g' → built g'
| built_edge_prop_write g e x g' :
    built g → edge_prop_write g e x = Ok g' → built g'
| built_dfs (VS W : Type) pl (visitor : Visitor c VP EP VS W) vis g w r :
    built g → dfs pl visitor vis g w = Ok r → built r.1
| built_topoSort (OIter Out : Type) (O : OutputIterator VP EP OIter Out) pl g oIter out r :
    built g → topoSort pl g oIter out = Ok r → built r.1.

(** What a caller can observe of a graph is what it was: the counts, the
    adjacency sequences, the payloads, the storage itself. *)
Definition unchanged (g g' : Graph) : Prop :=
  numVertices g' = numVertices g ∧ numEdges g' = numEdges g ∧
  (∀ v, out_edge_sequence v g' = out_edge_sequence v g) ∧
  (∀ req v, in_edge_sequence req v g' = in_edge_sequence req v g) ∧
  (∀ v, vertex_prop g' v = vertex_prop g v) ∧
  (∀ e, edge_prop g' e = edge_prop g e) ∧
  vList g' = vList g ∧ eList g' = eList g.

(** The same but for the payloads: the counts, the edge range and the
    adjacency sequences are what they were. *)
Definition same_adjacency (g g' : Graph) : Prop :=
  numVertices g' = numVertices g ∧ numEdges g' = numEdges g ∧
  edges g' = edges g ∧
  (∀ v, out_edge_sequence v g' = out_edge_sequence v g) ∧
  (∀ req v, in_edge_sequence req v g' = in_edge_sequence req v g).

(** The precondition of [addEdge] on the target: it is a vertex. *)
Definition targets_valid (g : Graph) : Prop :=
  ∀ e, e ∈ edges g → tar e < numVertices g.

Definition well_formed (g : Graph) : Prop :=
  adjacency_consistent g ∧ targets_valid g.

(** The out-edges stored for a vertex, none for a descriptor that is not a
    vertex. *)
Definition out_of (g : Graph) (v : VertexDescriptor) : list EdgeDescriptor :=
  match out_edge_sequence v g with
  | Ok es => es
  | _ => []
  end.

(** What a traversal relies on: every out-edge reference can be
    dereferenced and leads to a vertex. *)
Definition traversable (g : Graph) : Prop :=
  ∀ v sv oe, vList g !! v = Some sv → oe ∈ eOut sv →
    ∃ se, eList g !! oe_storedEdgeIdx oe = Some se ∧ se_tar se < numVertices g.

(** ** Orders *)

Definition edge (g : Graph) (u v : VertexDescriptor) : Prop :=
  ∃ e, e ∈ edges g ∧ src e = u ∧ tar e = v.

Definition acyclic (g : Graph) : Prop :=
  ∀ v, ¬ tc (edge g) v v.

Definition before {A} (x y : A) (l : list A) : Prop :=
  ∃ l1 l2 l3, l = l1 ++ x :: l2 ++ y :: l3.

Definition topological_order (g : Graph) (l : list VertexDescriptor) : Prop :=
  l ≡ₚ seq 0 (numVertices g) ∧ ∀ u v, edge g u v → before u v l.

(** [y] was appended to [fin] before [x]. *)
Definition precedes {A} (y x : A) (fin : list A) : Prop :=
  ∃ l1 l2, fin = l1 ++ x :: l2 ∧ y ∈ l1.

(** What holds of the vertices finished so far, in a graph without cycles:
    they are the Done ones, each listed once, after all its successors. *)
Definition finish_invariant (g : Graph) (st : list DFSColour)
    (fin : list VertexDescriptor) : Prop :=
  NoDup fin ∧
  (∀ v, v ∈ fin ↔ st !! v = Some Black) ∧
  (∀ x y, x ∈ fin → edge g x y → precedes y x fin).

(** A sequence of [addVertex] calls, each with or without a payload. *)
Fixpoint addVertex_calls `{DefaultConstructible VP}
    (calls : list (option VP)) (g : Graph) : list VertexDescriptor * Graph :=
  match calls with
  | [] => ([], g)
  | call :: calls' =>
    let r := match call with
             | None => addVertex g
             | Some vp => addVertex_prop vp g
             end in
    let rs := addVertex_calls calls' r.2 in
    (r.1 :: rs.1, rs.2)
  end.
End Consistency.

(** ** States and callbacks of a run *)

(** The state keeps its size; a vertex that is not Unvisited keeps its
    colour; an Unvisited vertex stays so or ends Done. *)
Definition colours_step (st st' : list DFSColour) : Prop :=
  length st' = length st ∧
  (∀ v, st !! v ≠ Some White → st' !! v = st !! v) ∧
  (∀ v, st !! v = Some White → st' !! v = Some White ∨ st' !! v = Some Black).

(** Every [discoverVertex(v)] moves [v] from Unvisited to Active and every
    [finishVertex(v)] from Active to Done: the callbacks of a visit are
    counted by the states around it. *)
Definition counted (st : list DFSColour) (evs : list Event) (st' : list DFSColour) : Prop :=
  ∀ v, occurrences (EvDiscoverVertex v) evs + entered (st !! v) = entered (st' !! v) ∧
       occurrences (EvFinishVertex v) evs + left_behind (st !! v) = left_behind (st' !! v).

(** The state fits the graph. *)
Definition fits {c VP EP} (m : Memory c VP EP (list Event)) : Prop :=
  traversable (mem_graph m) ∧ length (mem_colour m) = numVertices (mem_graph m).

(** ** What an operation leaves in place *)

Section Effects.
Context {c : DirectedCategory} {VP EP : Type}.
Abbreviation Graph := (AdjacencyList c VP EP).

(** [r] is what an [addVertex] call returned and left of [g]: the edges and
    every old vertex are as they were, and the new vertex has no edge. *)
Definition adds_isolated_vertex (g : Graph) (r : VertexDescriptor * Graph) : Prop :=
  r.1 = numVertices g ∧
  numVertices r.2 = S (numVertices g) ∧
  edges r.2 = edges g ∧
  (∀ e, edge_prop r.2 e = edge_prop g e) ∧
  (∀ w, w < numVertices g →
        out_edge_sequence w r.2 = out_edge_sequence w g ∧ out_edge_count w r.2 = out_edge_count w g ∧
        vertex_prop r.2 w = vertex_prop g w ∧
        ∀ req, in_edge_sequence req w r.2 = in_edge_sequence req w g ∧
               in_edge_count req w r.2 = in_edge_count req w g) ∧
  out_edge_sequence r.1 r.2 = Ok [] ∧ out_edge_count r.1 r.2 = Ok 0 ∧
  (∀ req, in_edge_sequence req r.1 r.2 = Ok [] ∧ in_edge_count req r.1 r.2 = Ok 0).
End Effects.

(** ** Runs with different visitors *)

(** Two results of the same kind: both returned, with related values, or
    both are the same failure. *)
Inductive Res_rel {A B} (R : A → B → Prop) : Res A → Res B → Prop :=
| Res_rel_Ok a b : R a b → Res_rel R (Ok a) (Ok b)
| Res_rel_Fault : Res_rel R Fault Fault
| Res_rel_OutOfFuel : Res_rel R OutOfFuel OutOfFuel.

(** ** More observations on a sequence of callbacks *)

(** The vertices [startVertex] was called for, and the edges reported as
    tree edges and as back edges, in the order of the calls. *)
Definition roots (evs : list Event) : list VertexDescriptor :=
  omap (λ ev, match ev with EvStartVertex v => Some (base v) | _ => None end) evs.

Definition tree_edges (evs : list Event) : list EdgeDescriptor :=
  omap (λ ev, match ev with EvTreeEdge e => Some e | _ => None end) evs.

Definition back_edges (evs : list Event) : list EdgeDescriptor :=
  omap (λ ev, match ev with EvBackEdge e => Some e | _ => None end) evs.

(** How often an edge was classified, by any of the three callbacks. *)
Definition classified (e : EdgeDescriptor) (evs : list Event) : nat :=
  occurrences (EvTreeEdge e) evs + occurrences (EvBackEdge e) evs +
  occurrences (EvForwardOrCrossEdge e) evs.

(** How often a vertex was entered: as the root of a tree, or along a tree
    edge that leads to it. *)
Definition entries (v : VertexDescriptor) (evs : list Event) : nat :=
  length (filter (v =.) (roots evs)) +
  length (filter (λ e, tar e = v) (tree_edges evs)).

(** ** The finish order of a graph with cycles *)

(** What holds of the vertices finished so far in any graph: they are the
    Done ones, each listed once, and every edge that leaves one of them and
    is not in [bad] leads to a vertex finished earlier. *)
Definition finish_order_upto {c VP EP} (g : AdjacencyList c VP EP)
    (bad : EdgeDescriptor → Prop) (st : list DFSColour)
    (fin : list VertexDescriptor) : Prop :=
  NoDup fin ∧
  (∀ v, v ∈ fin ↔ st !! v = Some Black) ∧
  (∀ e, e ∈ edges g → src e ∈ fin → bad e ∨ precedes (tar e) (src e) fin).

(** ** Reachability through Unvisited vertices *)

(** A step along an edge to a vertex that is Unvisited in [st]. *)
Definition white_step {c VP EP} (g : AdjacencyList c VP EP) (st : list DFSColour)
    (x y : VertexDescriptor) : Prop :=
  edge g x y ∧ st !! y = Some White.

(** ** Nesting of the callbacks *)

(** What is open at a point of a run: a vertex that was discovered and is
    not finished yet, or an edge that was examined and is not finished yet. *)
Inductive Frame : Type :=
| FrameVertex (v : VertexDescriptor)
| FrameEdge (e : EdgeDescriptor).

(** One callback against the open frames, innermost first: the frames
    after it, or [None] when the callback does not fit them. *)
Definition nest_step (stack : list Frame) (ev : Event) : option (list Frame) :=
  match ev, stack with
  | EvInitVertex _, [] => Some []
  | EvStartVertex _, [] => Some []
  | EvDiscoverVertex v, [] => Some [FrameVertex v]
  | EvDiscoverVertex v, FrameEdge e :: _ =>
    if decide (tar e = v) then Some (FrameVertex v :: stack) else None
  | EvFinishVertex v, FrameVertex v' :: rest =>
    if decide (v' = v) then Some rest else None
  | EvExamineEdge e, FrameVertex u :: _ =>
    if decide (src e = u) then Some (FrameEdge e :: stack) else None
  | EvTreeEdge e, FrameEdge e' :: _
  | EvBackEdge e, FrameEdge e' :: _
  | EvForwardOrCrossEdge e, FrameEdge e' :: _ =>
    if decide (e' = e) then Some stack else None
  | EvFinishEdge e, FrameEdge e' :: rest =>
    if decide (e' = e) then Some rest else None
  | _, _ => None
  end.

Fixpoint nested (evs : list Event) (stack : list Frame) : option (list Frame) :=
  match evs with
  | [] => Some stack
  | ev :: evs' => s ← nest_step stack ev; nested evs' s
  end.

(** ** What a traversal writes to a graph *)

(** Everything of a graph but the payloads: the references of every vertex,
    out and in, and the end points of every stored edge. *)
Definition structure {c VP EP} (g : AdjacencyList c VP EP)
  : list (OutEdgeList * InEdgeList c) * list (nat * nat) :=
  ((λ sv, (eOut sv, eIn sv)) <$> vList g, (λ se, (se_src se, se_tar se)) <$> eList g).

(** What the callbacks of a visitor write to the graph satisfies [P]. *)
Definition visitor_writes {c VP EP VS W} (P : option (PayloadUpdate VP EP) → Prop)
    (visitor : Visitor c VP EP VS W) : Prop :=
  (∀ x g vs w, P (initVertex visitor x g vs w).2) ∧
  (∀ x g vs w, P (startVertex visitor x g vs w).2) ∧
  (∀ x g vs w, P (discoverVertex visitor x g vs w).2) ∧
  (∀ x g vs w, P (finishVertex visitor x g vs w).2) ∧
  (∀ x g vs w, P (examineEdge visitor x g vs w).2) ∧
  (∀ x g vs w, P (treeEdge visitor x g vs w).2) ∧
  (∀ x g vs w, P (backEdge visitor x g vs w).2) ∧
  (∀ x g vs w, P (forwardOrCrossEdge visitor x g vs w).2) ∧
  (∀ x g vs w, P (finishEdge visitor x g vs w).2).

(** A visitor that holds no reference into the graph: no callback writes to
    it. *)
Definition writes_nothing {c VP EP VS W} (visitor : Visitor c VP EP VS W) : Prop :=
  visitor_writes (λ upd, upd = None) visitor.

(** ** What a traversal reads of a graph *)

(** The out-edge references of every vertex and the end points of every
    stored edge. *)
Definition shape {c VP EP} (g : AdjacencyList c VP EP)
  : list OutEdgeList * list (nat * nat) :=
  (eOut <$> vList g, (λ se, (se_src se, se_tar se)) <$> eList g).

(** Two memories with graphs of one shape, the same colours and related
    worlds. *)
Definition same_run {c VP EP W c' VP' EP' W'} (RW : W → W' → Prop)
    (m : Memory c VP EP W) (m' : Memory c' VP' EP' W') : Prop :=
  shape (mem_graph m) = shape (mem_graph m') ∧
  mem_colour m = mem_colour m' ∧ RW (mem_world m) (mem_world m').

(** Two visitors whose callbacks, called with the same argument on graphs
    of one shape, keep a relation [RS] between the visitor objects and a
    relation [RW] between the worlds. *)
Definition related_visitors {c VP EP VS W c' VP' EP' VS' W'}
    (RS : VS → VS' → Prop) (RW : W → W' → Prop)
    (visitor : Visitor c VP EP VS W) (visitor' : Visitor c' VP' EP' VS' W') : Prop :=
  let related {A} (cb : A → AdjacencyList c VP EP → VS → W → Effect VP EP VS W)
                  (cb' : A → AdjacencyList c' VP' EP' → VS' → W' → Effect VP' EP' VS' W') :=
    ∀ x g h vs vs' w w', shape g = shape h → RS vs vs' → RW w w' →
      RS (cb x g vs w).1.1 (cb' x h vs' w').1.1 ∧
      RW (cb x g vs w).1.2 (cb' x h vs' w').1.2 in
  related (initVertex visitor) (initVertex visitor') ∧
  related (startVertex visitor) (startVertex visitor') ∧
  related (discoverVertex visitor) (discoverVertex visitor') ∧
  related (finishVertex visitor) (finishVertex visitor') ∧
  related (examineEdge visitor) (examineEdge visitor') ∧
  related (treeEdge visitor) (treeEdge visitor') ∧
  related (backEdge visitor) (backEdge visitor') ∧
  related (forwardOrCrossEdge visitor) (forwardOrCrossEdge visitor') ∧
  related (finishEdge visitor) (finishEdge visitor').

(** * Properties *)

(** ** Results *)

Lemma index_Ok {A} (l : list A) i x : index l i = Ok x ↔ l !! i = Some x.
Proof. unfold index. destruct (l !! i); split; intros; simplify_eq; done. Qed.

Lemma index_lt {A} (l : list A) i : i < length l → ∃ x, index l i = Ok x ∧ l !! i = Some x.
Proof.
  intros Hi. destruct (lookup_lt_is_Some_2 l i Hi) as [x Hx].
  exists x. split; [by apply index_Ok | done].
Qed.

Lemma assign_Ok {A} (l l' : list A) i x :
  assign l i x = Ok l' ↔ i < length l ∧ l' = <[i:=x]> l.
Proof.
  unfold assign. destruct (l !! i) eqn:E.
  - apply lookup_lt_Some in E. split; [intros; simplify_eq; done | intros [_ ->]; done].
  - apply lookup_ge_None_1 in E. split; [done | intros [? _]; lia].
Qed.

Lemma bind_Ok {A B} (f : A → Res B) (r : Res A) b :
  r ≫= f = Ok b ↔ ∃ a, r = Ok a ∧ f a = Ok b.
Proof.
  destruct r; simpl; split; try done.
  - intros ?. eauto.
  - intros (? & ? & ?). by simplify_eq.
  - intros (? & ? & ?). done.
  - intros (? & ? & ?). done.
Qed.

Lemma traverse_Ok_fmap {A B} (f : A → Res B) (h : A → B) l :
  (∀ x, x ∈ l → f x = Ok (h x)) → traverse f l = Ok (h <$> l).
Proof.
  induction l as [|x l IH]; intros Hf; [done|].
  simpl. rewrite Hf by left. simpl. rewrite IH; [done|].
  intros y Hy. apply Hf. by right.
Qed.

Lemma traverse_fmap {A B C} (f : B → Res C) (h : A → B) l :
  traverse (λ x, f (h x)) l = traverse f (h <$> l).
Proof. induction l as [|x l IH]; [done|]. simpl. by rewrite IH. Qed.

Lemma traverse_Ok_inv {A B} (f : A → Res B) l ys :
  traverse f l = Ok ys → Forall2 (λ x y, f x = Ok y) l ys.
Proof.
  revert ys. induction l as [|x l IH]; intros ys; simpl.
  - intros [= <-]. constructor.
  - intros (y & Hy & H)%bind_Ok. apply bind_Ok in H as (ys' & Hys & [= <-]).
    constructor; [done | by apply IH].
Qed.

(** ** Reading a range *)

Section Ranges.
Context {c : DirectedCategory} {VP EP : Type}.
Implicit Types g : AdjacencyList c VP EP.

Lemma OutEdgeRange_positions_Ok pl u g es :
  OutEdgeRange_positions (outEdges pl u g) = Ok es ↔
  pl = UntilFullExpression ∧ ∃ sv, vList g !! u = Some sv ∧ es = eOut sv.
Proof.
  unfold OutEdgeRange_positions, outEdges, out_positions, getIndex. destruct pl; simpl.
  - split; [done | by intros [? _]].
  - rewrite bind_Ok. split.
    + intros (sv & Hsv%index_Ok & [= <-]). eauto.
    + intros (_ & sv & Hsv%index_Ok & ->). eauto.
Qed.

Lemma OutEdgeRange_positions_alive u g sv :
  vList g !! u = Some sv →
  OutEdgeRange_positions (outEdges UntilFullExpression u g) = Ok (eOut sv).
Proof. intros Hsv. apply OutEdgeRange_positions_Ok. eauto. Qed.

Lemma OutEdgeRange_positions_dead u g :
  OutEdgeRange_positions (outEdges UntilReturn u g) = Fault.
Proof. done. Qed.

Lemma OutEdgeRange_positions_fuel pl u g :
  OutEdgeRange_positions (outEdges pl u g) ≠ OutOfFuel.
Proof.
  unfold OutEdgeRange_positions, outEdges, out_positions, getIndex, index.
  destruct pl; simpl; [done|]. by destruct (vList g !! u).
Qed.

(** What a read of [outEdges(v, g)] in the full-expression of the call
    finds: the stored out-edges where the parameter is still alive. *)
Lemma OutEdgeRange_edges_outEdges pl v g :
  OutEdgeRange_edges (outEdges pl v g) =
  match pl with
  | UntilFullExpression => out_edge_sequence v g
  | UntilReturn => Fault
  end.
Proof. by destruct pl. Qed.

Lemma in_edge_sequence_irrel (req req' : requires_Bidirectional c) v g :
  in_edge_sequence req v g = in_edge_sequence req' v g.
Proof.
  unfold requires_Bidirectional in *. destruct c; [discriminate|]. done.
Qed.

Lemma in_edge_count_irrel (req req' : requires_Bidirectional c) v g :
  in_edge_count req v g = in_edge_count req' v g.
Proof.
  unfold requires_Bidirectional in *. destruct c; [discriminate|]. done.
Qed.

Lemma InEdgeRange_edges_inEdges pl req v g :
  InEdgeRange_edges (inEdges pl req v g) =
  match pl with
  | UntilFullExpression => in_edge_sequence req v g
  | UntilReturn => Fault
  end.
Proof.
  destruct pl; [done|]. unfold InEdgeRange_edges, inEdges. simpl.
  apply in_edge_sequence_irrel.
Qed.

(** Two graphs with the same stored sequences read the same through the
    accessors, whatever the lifetime of a parameter. *)
Lemma accessors_same (g g' : AdjacencyList c VP EP) :
  (∀ w, out_edge_sequence w g' = out_edge_sequence w g) →
  (∀ req w, in_edge_sequence req w g' = in_edge_sequence req w g) →
  (∀ pl w, OutEdgeRange_edges (outEdges pl w g') = OutEdgeRange_edges (outEdges pl w g) ∧
           outDegree pl w g' = outDegree pl w g) ∧
  (∀ pl req w, InEdgeRange_edges (inEdges pl req w g') =
                 InEdgeRange_edges (inEdges pl req w g) ∧
               inDegree pl req w g' = inDegree pl req w g).
Proof.
  intros Hout Hin. split.
  - intros pl w. by rewrite !OutEdgeRange_edges_outEdges, Hout.
  - intros pl req w. by rewrite !InEdgeRange_edges_inEdges, Hin.
Qed.
End Ranges.

(** ** What depth-first search writes to the graph *)

Lemma write_payloads_structure {c VP EP} upd (g : AdjacencyList c VP EP) :
  structure (write_payloads upd g) = structure g.
Proof.
  destruct upd as [upd|]; [|done]. unfold structure. simpl. f_equal.
  - apply list_eq. intros i. rewrite !list_lookup_fmap, list_lookup_imap.
    by destruct (vList g !! i).
  - apply list_eq. intros i. rewrite !list_lookup_fmap, list_lookup_imap.
    by destruct (eList g !! i).
Qed.

Section Frame.
Context {c : DirectedCategory} {VP EP : Type} {VS W : Type}.
Context (visitor : Visitor c VP EP VS W).
Implicit Types m : Memory c VP EP W.

Lemma set_colour_Ok u col m m' :
  set_colour u col m = Ok m' ↔
  u < length (mem_colour m) ∧
  m' = mkMemory (mem_graph m) (<[u:=col]> (mem_colour m)) (mem_world m).
Proof.
  unfold set_colour. rewrite bind_Ok. split.
  - intros (cv & [Hu ->]%assign_Ok & [= <-]). done.
  - intros [Hu ->]. eexists. split; [by apply assign_Ok | done].
Qed.

Lemma set_colour_lt u col m :
  u < length (mem_colour m) →
  set_colour u col m =
  Ok (mkMemory (mem_graph m) (<[u:=col]> (mem_colour m)) (mem_world m)).
Proof. intros Hu. by apply set_colour_Ok. Qed.

(** A property of the graph that every write of the visitor keeps is kept
    by the traversal: [dfsVisit] and [dfs] write nothing of their own. *)
Context (P : option (PayloadUpdate VP EP) → Prop) (Inv : AdjacencyList c VP EP → Prop).
Context (Hvisitor : visitor_writes P visitor).
Context (Hkeep : ∀ upd g, P upd → Inv g → Inv (write_payloads upd g)).

Local Ltac kept :=
  simpl; unfold call; simpl; repeat (apply Hkeep; [apply Hvisitor|]); try done.

Lemma dfsVisit_edges_keeps visit es vs m r :
  (∀ vs v m m', visit vs v m = Ok m' → Inv (mem_graph m) → Inv (mem_graph m')) →
  dfsVisit_edges visit visitor es vs m = Ok r →
  Inv (mem_graph m) → Inv (mem_graph r.2).
Proof.
  intros Hvisit. revert vs m. induction es as [|oe es IH]; intros vs m; simpl.
  - by intros [= <-].
  - intros (e & _ & H)%bind_Ok Hm.
    apply bind_Ok in H as (cv & _ & H). apply bind_Ok in H as (r2 & Hr2 & H).
    apply IH in H; [done|]. kept.
    destruct cv; simpl in Hr2.
    + apply bind_Ok in Hr2 as (m' & Hm' & [= <-]). simpl.
      apply Hvisit in Hm'; [done|]. kept.
    + simplify_eq. kept.
    + simplify_eq. kept.
Qed.

Lemma dfsVisit_keeps pl fuel vs u m m' :
  dfsVisit pl fuel visitor vs u m = Ok m' → Inv (mem_graph m) → Inv (mem_graph m').
Proof.
  revert vs u m m'. induction fuel as [|fuel IH]; intros vs u m m'; simpl; [done|].
  intros (m2 & [_ ->]%set_colour_Ok & H)%bind_Ok Hm.
  apply bind_Ok in H as (es & _ & H). apply bind_Ok in H as (r3 & Hr3 & H).
  apply bind_Ok in H as (m4 & [_ ->]%set_colour_Ok & [= <-]).
  apply dfsVisit_edges_keeps in Hr3; [|by apply IH|kept].
  kept.
Qed.

Lemma dfs_init_keeps vs vis m r :
  dfs_init visitor vs vis m = Ok r → Inv (mem_graph m) → Inv (mem_graph r.2).
Proof.
  revert vis m. induction vs as [|v vs IH]; intros vis m; simpl.
  - by intros [= <-].
  - intros (m1 & [_ ->]%set_colour_Ok & H)%bind_Ok Hm. apply IH in H; [done|].
    kept.
Qed.

Lemma dfs_roots_keeps pl fuel vs vis m r :
  dfs_roots pl fuel visitor vs vis m = Ok r → Inv (mem_graph m) → Inv (mem_graph r.2).
Proof.
  revert vis m. induction vs as [|v vs IH]; intros vis m; simpl.
  - by intros [= <-].
  - intros (cv & _ & H)%bind_Ok Hm. destruct cv; try by apply IH in H.
    apply bind_Ok in H as (m' & Hm'%dfsVisit_keeps & H); [by apply IH in H|].
    kept.
Qed.

Lemma dfs_keeps pl vis g w r : dfs pl visitor vis g w = Ok r → Inv g → Inv r.1.
Proof.
  unfold dfs. intros (r1 & H1 & H)%bind_Ok Hg.
  apply dfs_init_keeps in H1; [|done].
  apply bind_Ok in H as (r2 & H2 & [= <-]). by apply dfs_roots_keeps in H2.
Qed.
End Frame.

(** [dfs] leaves the structure of the graph to every visitor, and the whole
    graph to a visitor that writes nothing. *)
Lemma dfs_structure {c VP EP VS W} pl (visitor : Visitor c VP EP VS W) vis g w r :
  dfs pl visitor vis g w = Ok r → structure r.1 = structure g.
Proof.
  intros Hr.
  apply (dfs_keeps visitor (λ _, True) (λ g', structure g' = structure g)) in Hr; [done| | |done].
  - by repeat split.
  - intros upd g' _ <-. apply write_payloads_structure.
Qed.

Lemma dfs_graph {c VP EP VS W} pl (visitor : Visitor c VP EP VS W) vis g w r :
  writes_nothing visitor → dfs pl visitor vis g w = Ok r → r.1 = g.
Proof.
  intros Hw Hr.
  apply (dfs_keeps visitor (λ upd, upd = None) (λ g', g' = g)) in Hr; [done|done| |done].
  by intros upd g' -> ->.
Qed.

(** ** The vertex store *)

Section StoreFacts.
Context {c : DirectedCategory} {VP EP : Type}.
Abbreviation Graph := (AdjacencyList c VP EP).
Implicit Types g : Graph.

Lemma addVertex_prop_numVertices g vp :
  (addVertex_prop vp g).1 = numVertices g ∧
  numVertices (addVertex_prop vp g).2 = S (numVertices g).
Proof. unfold addVertex_prop, numVertices. simpl. rewrite length_app. simpl. lia. Qed.

Lemma addVertex_numVertices `{DefaultConstructible VP} g :
  (addVertex g).1 = numVertices g ∧
  numVertices (addVertex g).2 = S (numVertices g).
Proof. apply addVertex_prop_numVertices. Qed.

Lemma addVertex_calls_from `{DefaultConstructible VP} calls g :
  (addVertex_calls calls g).1 = seq (numVertices g) (length calls) ∧
  numVertices (addVertex_calls calls g).2 = numVertices g + length calls.
Proof.
  revert g. induction calls as [|call calls IH]; intros g; simpl.
  - split; [done | lia].
  - set (r := match call with None => addVertex g | Some vp => addVertex_prop vp g end).
    assert (r.1 = numVertices g ∧ numVertices r.2 = S (numVertices g)) as [Hr1 Hr2].
    { subst r. destruct call; [apply addVertex_prop_numVertices | apply addVertex_numVertices]. }
    destruct (IH r.2) as [IH1 IH2]. rewrite IH1, IH2, Hr1, Hr2. split; [done | lia].
Qed.

Lemma push_out_Ok i oe (vl vl' : list (StoredVertex c VP)) :
  push_out i oe vl = Ok vl' ↔
  ∃ sv, vl !! i = Some sv ∧
        vl' = <[i := mkStoredVertex (eOut sv ++ [oe]) (eIn sv) (vProp sv)]> vl.
Proof.
  unfold push_out. rewrite bind_Ok. split.
  - intros (sv & Hsv%index_Ok & [= <-]). eauto.
  - intros (sv & Hsv & ->). exists sv. by rewrite (proj2 (index_Ok _ _ _) Hsv).
Qed.

Lemma push_in_Ok i ie (vl vl' : list (StoredVertex c VP)) :
  push_in i ie vl = Ok vl' ↔
  ∃ sv, vl !! i = Some sv ∧
        vl' = <[i := mkStoredVertex (eOut sv) (InEdgeList_push_back ie (eIn sv)) (vProp sv)]> vl.
Proof.
  unfold push_in. rewrite bind_Ok. split.
  - intros (sv & Hsv%index_Ok & [= <-]). eauto.
  - intros (sv & Hsv & ->). exists sv. by rewrite (proj2 (index_Ok _ _ _) Hsv).
Qed.
End StoreFacts.

(** What a successful [addEdge] leaves: the edge at the end of the store,
    the vertex list with the references pushed. *)
Lemma addEdge_prop_Ok {c VP EP} v u ep (g : AdjacencyList c VP EP) r :
  addEdge_prop v u ep g = Ok r →
  r.1 = mkEdgeDescriptor v u (numEdges g) ∧
  eList r.2 = eList g ++ [mkStoredEdge ep v u] ∧
  length (vList r.2) = length (vList g) ∧
  v < numVertices g.
Proof.
  destruct c; simpl; unfold addEdge_prop_Directed, addEdge_prop_Bidirectional, getIndex.
  - intros (vl & (sv & Hsv & ->)%push_out_Ok & [= <-])%bind_Ok. simpl.
    rewrite length_insert. apply lookup_lt_Some in Hsv. done.
  - intros (vl & (sv & Hsv & ->)%push_out_Ok & H)%bind_Ok.
    apply bind_Ok in H as (vl' & (sv' & Hsv' & ->)%push_in_Ok & [= <-]). simpl.
    rewrite !length_insert. apply lookup_lt_Some in Hsv. done.
Qed.

Lemma addEdge_prop_total {c VP EP} v u ep (g : AdjacencyList c VP EP) :
  v < numVertices g → u < numVertices g → ∃ r, addEdge_prop v u ep g = Ok r.
Proof.
  intros Hv Hu.
  destruct (lookup_lt_is_Some_2 (vList g) v Hv) as [sv Hsv].
  destruct c; simpl; unfold addEdge_prop_Directed, addEdge_prop_Bidirectional, getIndex.
  - unfold push_out. rewrite (proj2 (index_Ok _ _ _) Hsv). simpl. eauto.
  - unfold push_out. rewrite (proj2 (index_Ok _ _ _) Hsv). simpl.
    unfold push_in.
    destruct (index_lt (<[v:=mkStoredVertex (eOut sv ++ [mkOutEdge (numEdges g)])
                               (eIn sv) (vProp sv)]> (vList g)) u) as (sv' & -> & _).
    { by rewrite length_insert. }
    simpl. eauto.
Qed.


(** C5: every [addVertex] call, with or without a payload, returns the
    vertex count it found and raises the count by one; so [n] calls from the
    empty graph return the descriptors [0, ..., n-1] in this order (the
    [k]-th call returns [k-1]) and leave [numVertices] at [n]. *)
Theorem addVertex_descriptors_dense {c : DirectedCategory} {VP EP : Type}
    `{DefaultConstructible VP} (g : AdjacencyList c VP EP) (vp : VP)
    (calls : list (option VP)) :
  ((addVertex g).1 = numVertices g ∧ numVertices (addVertex g).2 = S (numVertices g)) ∧
  ((addVertex_prop vp g).1 = numVertices g ∧
   numVertices (addVertex_prop vp g).2 = S (numVertices g)) ∧
  (let r := addVertex_calls calls (AdjacencyList_empty : AdjacencyList c VP EP) in
   numVertices r.2 = length calls ∧ r.1 = seq 0 (length calls)).
Proof.
  split; [apply addVertex_numVertices|].
  split; [apply addVertex_prop_numVertices|].
  simpl. destruct (addVertex_calls_from calls (AdjacencyList_empty : AdjacencyList c VP EP))
    as [H1 H2].
  rewrite H1, H2. done.
Qed.



(** ** Creation order of the references *)

Lemma filter_ext_in {A} (P Q : A → Prop) `{∀ x, Decision (P x)} `{∀ x, Decision (Q x)}
    (l : list A) :
  (∀ x, x ∈ l → P x ↔ Q x) → filter P l = filter Q l.
Proof.
  induction l as [|x l IH]; intros HPQ; [done|].
  rewrite !filter_cons. rewrite IH by (intros y Hy; apply HPQ; by right).
  pose proof (HPQ x (list_elem_of_here _ _)) as Hx.
  destruct (decide (P x)) as [HP|HP], (decide (Q x)) as [HQ|HQ]; try done; tauto.
Qed.

Lemma filter_fmap {A B} (h : A → B) (P : B → Prop) `{∀ y, Decision (P y)} (l : list A) :
  filter P (h <$> l) = h <$> filter (λ x, P (h x)) l.
Proof.
  induction l as [|x l IH]; [done|].
  rewrite fmap_cons, !filter_cons, IH. by destruct (decide (P (h x))).
Qed.

Lemma filter_eq_count {A} `{EqDecision A} (x : A) (l : list A) :
  NoDup l → length (filter (x =.) l) = if decide (x ∈ l) then 1 else 0.
Proof.
  induction 1 as [|y l Hy Hnd IH]; [done|].
  rewrite filter_cons. destruct (decide (x = y)) as [->|Hne]; simpl.
  - rewrite IH. rewrite decide_False by done. rewrite decide_True by left. done.
  - rewrite IH. destruct (decide (x ∈ l)).
    + rewrite decide_True by (by right). done.
    + rewrite decide_False; [done|]. rewrite elem_of_cons. tauto.
Qed.

Section EdgesWith.
Context {EP : Type} (f : StoredEdge EP → nat).
Implicit Types el : list (StoredEdge EP).

Lemma edges_with_snoc el se v :
  edges_with f (el ++ [se]) v =
  edges_with f el v ++ (if decide (f se = v) then [length el] else []).
Proof.
  unfold edges_with. rewrite length_app. simpl. rewrite Nat.add_1_r, seq_S. simpl.
  rewrite filter_app. f_equal.
  - apply filter_ext_in. intros i Hi. apply elem_of_seq in Hi.
    rewrite lookup_app_l by lia. done.
  - rewrite filter_cons, filter_nil. rewrite list_lookup_middle by done. simpl.
    destruct (decide (f se = v)).
    + rewrite decide_True; [done | by f_equal].
    + rewrite decide_False; [done | by intros [= ?]].
Qed.

Lemma edges_with_none el v :
  (∀ i se, el !! i = Some se → f se ≠ v) → edges_with f el v = [].
Proof.
  intros Hne. unfold edges_with.
  induction (seq 0 (length el)) as [|i l IH]; [done|].
  rewrite filter_cons, IH. rewrite decide_False; [done|].
  destruct (el !! i) as [se|] eqn:E; simpl; [|done].
  intros [= ?]. by eapply Hne.
Qed.

Lemma edges_with_ext el el' v :
  length el' = length el →
  (∀ i, f <$> el' !! i = f <$> el !! i) →
  edges_with f el' v = edges_with f el v.
Proof.
  intros Hlen Hf. unfold edges_with. rewrite Hlen.
  apply filter_ext_in. intros i _. by rewrite Hf.
Qed.

Lemma elem_of_edges_with el v i :
  i ∈ edges_with f el v ↔ ∃ se, el !! i = Some se ∧ f se = v.
Proof.
  unfold edges_with. rewrite list_elem_of_filter, elem_of_seq. split.
  - intros [Hf _]. destruct (el !! i) as [se|]; simplify_eq/=. eauto.
  - intros (se & Hse & <-). rewrite Hse. split; [done|].
    apply lookup_lt_Some in Hse. lia.
Qed.

Lemma NoDup_edges_with el v : NoDup (edges_with f el v).
Proof. apply NoDup_filter, NoDup_seq. Qed.
End EdgesWith.

Section EdgeAt.
Context {c : DirectedCategory} {VP EP : Type}.
Implicit Types g : AdjacencyList c VP EP.

Lemma edges_edge_at g : edges g = edge_at g <$> seq 0 (numEdges g).
Proof.
  apply list_eq. intros i. unfold edges, edge_at, numEdges.
  rewrite list_lookup_imap, list_lookup_fmap.
  destruct (eList g !! i) as [se|] eqn:E; simpl.
  - rewrite (proj2 (lookup_seq 0 (length (eList g)) i i)); simpl; [by rewrite E|].
    apply lookup_lt_Some in E. done.
  - apply lookup_ge_None_1 in E. rewrite lookup_ge_None_2; [done|].
    rewrite length_seq. done.
Qed.

Lemma elem_of_edges g e :
  e ∈ edges g ↔ storedEdgeIdx e < numEdges g ∧ e = edge_at g (storedEdgeIdx e).
Proof.
  rewrite edges_edge_at, list_elem_of_fmap. split.
  - intros (i & -> & Hi%elem_of_seq).
    assert (storedEdgeIdx (edge_at g i) = i) as ->.
    { unfold edge_at. by destruct (eList g !! i). }
    split; [lia | done].
  - intros [Hi He]. exists (storedEdgeIdx e). split; [done|]. apply elem_of_seq. lia.
Qed.

Lemma storedEdgeIdx_edge_at g i : storedEdgeIdx (edge_at g i) = i.
Proof. unfold edge_at. by destruct (eList g !! i). Qed.

Lemma edge_at_lookup g i se :
  eList g !! i = Some se → edge_at g i = mkEdgeDescriptor (se_src se) (se_tar se) i.
Proof. unfold edge_at. by intros ->. Qed.

Lemma dereference_edge_at g i : i < numEdges g → dereference g i = Ok (edge_at g i).
Proof.
  intros Hi. unfold dereference, edge_at.
  destruct (index_lt (eList g) i Hi) as (se & -> & ->). done.
Qed.

Lemma dereference_Ok g i e : dereference g i = Ok e → i < numEdges g ∧ e = edge_at g i.
Proof.
  unfold dereference. intros (se & Hse%index_Ok & [= <-])%bind_Ok.
  split; [by apply lookup_lt_Some in Hse | by rewrite (edge_at_lookup _ _ _ Hse)].
Qed.

Lemma count_edge_edge_at g e (l : list nat) :
  count_edge e (edge_at g <$> l) = length (filter (storedEdgeIdx e =.) l).
Proof.
  unfold count_edge. induction l as [|i l IH]; [done|].
  rewrite fmap_cons, !filter_cons.
  assert (edge_eq e (edge_at g i) ↔ storedEdgeIdx e = i) as Hiff.
  { unfold edge_eq, EdgeDescriptor_eqb. rewrite bool_decide_eq_true.
    by rewrite storedEdgeIdx_edge_at. }
  destruct (decide (edge_eq e (edge_at g i))) as [H|H],
           (decide (storedEdgeIdx e = i)) as [H'|H']; simpl; try (by rewrite IH); tauto.
Qed.

Lemma traverse_dereference g (l : list nat) :
  (∀ i, i ∈ l → i < numEdges g) →
  traverse (dereference g) l = Ok (edge_at g <$> l).
Proof. intros Hl. apply traverse_Ok_fmap. intros i Hi. apply dereference_edge_at; auto. Qed.

(** The positions of the edges with a given end point, as descriptors. *)
Lemma edge_at_edges_with (f : StoredEdge EP → nat) (h : EdgeDescriptor → nat) g v :
  (∀ i se, eList g !! i = Some se → h (edge_at g i) = f se) →
  edge_at g <$> edges_with f (eList g) v = filter (λ e, h e = v) (edges g).
Proof.
  intros Hh. rewrite edges_edge_at, filter_fmap. unfold edges_with, numEdges.
  f_equal. apply filter_ext_in. intros i Hi%elem_of_seq.
  destruct (lookup_lt_is_Some_2 (eList g) i) as [se Hse]; [lia|].
  rewrite (Hh _ _ Hse), Hse. simpl. split; [by intros [= ->] | by intros ->].
Qed.
End EdgeAt.

(** ** The storage invariant *)

Lemma insert_refs_push {A} (refs : A → list nat) (vl : list A) (pos : nat → list nat)
    (v m : nat) (sv new : A) :
  (∀ w x, vl !! w = Some x → refs x = pos w) →
  vl !! v = Some sv →
  refs new = refs sv ++ [m] →
  ∀ w x, <[v:=new]> vl !! w = Some x →
         refs x = pos w ++ (if decide (v = w) then [m] else []).
Proof.
  intros Hall Hsv Hnew w x Hx. destruct (decide (v = w)) as [<-|Hne].
  - rewrite list_lookup_insert_eq in Hx by (by eapply lookup_lt_Some).
    simplify_eq. rewrite Hnew. f_equal. by apply Hall.
  - rewrite list_lookup_insert_ne in Hx by done. rewrite app_nil_r. by apply Hall.
Qed.

Lemma insert_refs_keep {A} (refs : A → list nat) (vl : list A) (pos : nat → list nat)
    (v : nat) (sv new : A) :
  (∀ w x, vl !! w = Some x → refs x = pos w) →
  vl !! v = Some sv →
  refs new = refs sv →
  ∀ w x, <[v:=new]> vl !! w = Some x → refs x = pos w.
Proof.
  intros Hall Hsv Hnew w x Hx. destruct (decide (v = w)) as [<-|Hne].
  - rewrite list_lookup_insert_eq in Hx by (by eapply lookup_lt_Some).
    simplify_eq. rewrite Hnew. by apply Hall.
  - rewrite list_lookup_insert_ne in Hx by done. by apply Hall.
Qed.

Lemma storage_invariant_empty {c VP EP} :
  storage_invariant (AdjacencyList_empty : AdjacencyList c VP EP).
Proof.
  unfold storage_invariant. simpl.
  split; [intros i se [=]|]. split; [intros v sv [=]|].
  destruct c; [done|]. split; [intros i se [=] | intros v sv [=]].
Qed.

Lemma storage_invariant_n {c VP EP} `{DefaultConstructible VP} n :
  storage_invariant (AdjacencyList_n n : AdjacencyList c VP EP).
Proof.
  unfold storage_invariant. simpl.
  split; [intros i se [=]|]. split.
  - intros v sv [-> _]%lookup_replicate. done.
  - destruct c; [done|]. split; [intros i se [=]|].
    intros v sv [-> _]%lookup_replicate. done.
Qed.

Lemma storage_invariant_addVertex_prop {c VP EP} (g : AdjacencyList c VP EP) vp :
  storage_invariant g → storage_invariant (addVertex_prop vp g).2.
Proof.
  unfold storage_invariant, addVertex_prop, edges_from, edges_into, numVertices. simpl.
  rewrite length_app. simpl.
  intros (Hsrc & Hout & Hin). split; [|split].
  - intros i se Hse. specialize (Hsrc _ _ Hse). lia.
  - intros v sv [[_ Hv]|[-> <-]]%lookup_snoc_Some; [by apply Hout|].
    simpl. symmetry. apply edges_with_none.
    intros i se Hse. specialize (Hsrc _ _ Hse). lia.
  - destruct c; [done|]. destruct Hin as [Htar Hin]. split.
    + intros i se Hse. specialize (Htar _ _ Hse). lia.
    + intros v sv [[_ Hv]|[-> <-]]%lookup_snoc_Some; [by apply Hin|].
      simpl. symmetry. apply edges_with_none.
      intros i se Hse. specialize (Htar _ _ Hse). lia.
Qed.

Lemma storage_invariant_addEdge_prop {c VP EP} (g : AdjacencyList c VP EP) v u ep r :
  storage_invariant g → addEdge_prop v u ep g = Ok r → storage_invariant r.2.
Proof.
  unfold storage_invariant, edges_from, edges_into, numVertices.
  intros (Hsrc & Hout & Hin).
  destruct c; simpl; unfold addEdge_prop_Directed, addEdge_prop_Bidirectional, getIndex.
  - intros (vl & (sv & Hsv & ->)%push_out_Ok & [= <-])%bind_Ok. simpl.
    rewrite length_insert. split; [|split; [|done]].
    + intros i se [[_ Hse]|[_ <-]]%lookup_snoc_Some; [by eapply Hsrc|].
      simpl. by eapply lookup_lt_Some.
    + intros w x Hx. rewrite edges_with_snoc. simpl.
      eapply (insert_refs_push (λ x, oe_storedEdgeIdx <$> eOut x)); [apply Hout|done| |done].
      simpl. by rewrite fmap_app.
  - destruct Hin as [Htar Hin].
    intros (vl & (sv & Hsv & ->)%push_out_Ok & H)%bind_Ok.
    apply bind_Ok in H as (vl' & (sv' & Hsv' & ->)%push_in_Ok & [= <-]). simpl.
    rewrite !length_insert.
    assert (u < length (vList g)) as Hu.
    { apply lookup_lt_Some in Hsv'. by rewrite length_insert in Hsv'. }
    apply lookup_lt_Some in Hsv as Hv.
    split; [|split; [|split]].
    + intros i se [[_ Hse]|[_ <-]]%lookup_snoc_Some; [by eapply Hsrc | done].
    + intros w x. rewrite edges_with_snoc. simpl. revert w x.
      eapply (insert_refs_keep (λ x, oe_storedEdgeIdx <$> eOut x)
                (<[v:=mkStoredVertex (eOut sv ++ [mkOutEdge (numEdges g)]) (eIn sv) (vProp sv)]>
                   (vList g))
                (λ w, edges_with se_src (eList g) w ++
                      (if decide (v = w) then [length (eList g)] else [])));
        [|exact Hsv'|done].
      eapply (insert_refs_push (λ x, oe_storedEdgeIdx <$> eOut x)); [apply Hout|exact Hsv|].
      simpl. by rewrite fmap_app.
    + intros i se [[_ Hse]|[_ <-]]%lookup_snoc_Some; [by eapply Htar | done].
    + intros w x. rewrite edges_with_snoc. simpl. revert w x.
      eapply (insert_refs_push (λ x : StoredVertex Bidirectional VP, ie_storedEdgeIdx <$> InEdgeList_refs (eIn x)));
        [|exact Hsv'|].
      * eapply (insert_refs_keep (λ x : StoredVertex Bidirectional VP, ie_storedEdgeIdx <$> InEdgeList_refs (eIn x)));
          [apply Hin|exact Hsv|done].
      * simpl. by rewrite fmap_app.
Qed.

Lemma storage_invariant_vertex_prop_write {c VP EP} (g g' : AdjacencyList c VP EP) v x :
  storage_invariant g → vertex_prop_write g v x = Ok g' → storage_invariant g'.
Proof.
  unfold storage_invariant, vertex_prop_write, edges_from, edges_into, numVertices, getIndex.
  intros (Hsrc & Hout & Hin) (sv & Hsv%index_Ok & [= <-])%bind_Ok. simpl.
  rewrite length_insert. split; [done|]. split.
  - eapply (insert_refs_keep (λ x, oe_storedEdgeIdx <$> eOut x)); [apply Hout|done|done].
  - destruct c; [done|]. destruct Hin as [Htar Hin]. split; [done|].
    eapply (insert_refs_keep (λ x : StoredVertex Bidirectional VP, ie_storedEdgeIdx <$> InEdgeList_refs (eIn x)));
      [apply Hin|done|done].
Qed.

Lemma storage_invariant_edge_prop_write {c VP EP} (g g' : AdjacencyList c VP EP) e x :
  storage_invariant g → edge_prop_write g e x = Ok g' → storage_invariant g'.
Proof.
  unfold storage_invariant, edge_prop_write, edges_from, edges_into, numVertices.
  intros (Hsrc & Hout & Hin) (se & Hse%index_Ok & [= <-])%bind_Ok. simpl.
  set (i0 := storedEdgeIdx e) in *.
  set (el' := <[i0 := mkStoredEdge x (se_src se) (se_tar se)]> (eList g)).
  assert (∀ (f : StoredEdge EP → nat),
            f (mkStoredEdge x (se_src se) (se_tar se)) = f se →
            ∀ i, f <$> el' !! i = f <$> eList g !! i) as Hsame.
  { intros f Hf i. subst el'. destruct (decide (i0 = i)) as [<-|Hne].
    - rewrite list_lookup_insert_eq by (by eapply lookup_lt_Some). rewrite Hse. simpl.
      by rewrite Hf.
    - by rewrite list_lookup_insert_ne. }
  assert (∀ f v, f (mkStoredEdge x (se_src se) (se_tar se)) = f se →
                 edges_with f el' v = edges_with f (eList g) v) as Hwith.
  { intros f v Hf. apply edges_with_ext; [apply length_insert | by apply Hsame]. }
  assert (∀ (f : StoredEdge EP → nat) bound,
            f (mkStoredEdge x (se_src se) (se_tar se)) = f se →
            (∀ i s, eList g !! i = Some s → f s < bound) →
            ∀ i s, el' !! i = Some s → f s < bound) as Hbound.
  { intros f bound Hf Hall i s Hs. pose proof (Hsame f Hf i) as Hi. rewrite Hs in Hi.
    destruct (eList g !! i) as [s'|] eqn:E; simplify_eq/=.
    rewrite Hi. by eapply Hall. }
  split; [by apply (Hbound se_src)|]. split.
  - intros v sv Hsv. rewrite (Hwith se_src) by done. by apply Hout.
  - destruct c; [done|]. destruct Hin as [Htar Hin]. split; [by apply (Hbound se_tar)|].
    intros v sv Hsv. rewrite (Hwith se_tar) by done. by apply Hin.
Qed.

(** The invariant speaks of the structure only: payload writes keep it. *)
Lemma structure_lookup_edge {c VP EP} (g g' : AdjacencyList c VP EP) i se' :
  structure g' = structure g → eList g' !! i = Some se' →
  ∃ se, eList g !! i = Some se ∧ se_src se = se_src se' ∧ se_tar se = se_tar se'.
Proof.
  unfold structure. intros [= _ He] H.
  pose proof (f_equal (.!! i) He) as Hi. rewrite !list_lookup_fmap, H in Hi.
  destruct (eList g !! i) as [se|]; simplify_eq/=. eauto.
Qed.

Lemma structure_lookup_vertex {c VP EP} (g g' : AdjacencyList c VP EP) v sv' :
  structure g' = structure g → vList g' !! v = Some sv' →
  ∃ sv, vList g !! v = Some sv ∧ eOut sv = eOut sv' ∧ eIn sv = eIn sv'.
Proof.
  unfold structure. intros [= Hv _] H.
  pose proof (f_equal (.!! v) Hv) as Hi. rewrite !list_lookup_fmap, H in Hi.
  destruct (vList g !! v) as [sv|]; simplify_eq/=. eauto.
Qed.

Lemma structure_lengths {c VP EP} (g g' : AdjacencyList c VP EP) :
  structure g' = structure g →
  numVertices g' = numVertices g ∧ numEdges g' = numEdges g.
Proof.
  unfold structure, numVertices, numEdges. intros [= Hv He].
  apply (f_equal length) in Hv. apply (f_equal length) in He.
  rewrite !length_fmap in Hv. rewrite !length_fmap in He. done.
Qed.

Lemma structure_edges_with {c VP EP} (g g' : AdjacencyList c VP EP) :
  structure g' = structure g →
  (∀ v, edges_from g' v = edges_from g v) ∧ (∀ v, edges_into g' v = edges_into g v).
Proof.
  intros Hs. destruct (structure_lengths _ _ Hs) as [_ Hlen]. unfold numEdges in Hlen.
  unfold structure in Hs. injection Hs as _ He.
  split; intros v; (apply edges_with_ext; [done|]); intros i;
    pose proof (f_equal (.!! i) He) as Hi; rewrite !list_lookup_fmap in Hi;
    destruct (eList g' !! i), (eList g !! i); simplify_eq/=; congruence.
Qed.

Lemma storage_invariant_structure {c VP EP} (g g' : AdjacencyList c VP EP) :
  structure g' = structure g → storage_invariant g → storage_invariant g'.
Proof.
  intros Hs (Hsrc & Hout & Hin). destruct (structure_lengths _ _ Hs) as [Hlv _].
  destruct (structure_edges_with _ _ Hs) as [Hfrom Hinto].
  unfold storage_invariant. rewrite Hlv. split; [|split].
  - intros i se' (se & Hse & <- & _)%(structure_lookup_edge g g'); [by eapply Hsrc | done].
  - intros v sv' (sv & Hsv & <- & _)%(structure_lookup_vertex g g'); [|done].
    rewrite Hfrom. by apply Hout.
  - destruct c; [done|]. destruct Hin as [Htar Hin]. split.
    + intros i se' (se & Hse & _ & <-)%(structure_lookup_edge g g'); [by eapply Htar | done].
    + intros v sv' (sv & Hsv & _ & <-)%(structure_lookup_vertex g g'); [|done].
      rewrite Hinto. by apply Hin.
Qed.

Lemma built_storage_invariant {c VP EP} (g : AdjacencyList c VP EP) :
  built g → storage_invariant g.
Proof.
  induction 1 as [| | | | | | | |VS W pl visitor vis g w r _ IH Hr
                 |OIter Out O pl g oIter out r _ IH Hr].
  - apply storage_invariant_empty.
  - apply storage_invariant_n.
  - by apply storage_invariant_addVertex_prop.
  - by apply storage_invariant_addVertex_prop.
  - by eapply storage_invariant_addEdge_prop.
  - by eapply storage_invariant_addEdge_prop.
  - by eapply storage_invariant_vertex_prop_write.
  - by eapply storage_invariant_edge_prop_write.
  - eapply storage_invariant_structure; [|done]. by eapply dfs_structure.
  - eapply storage_invariant_structure; [|done]. by eapply dfs_structure.
Qed.

(** ** What the invariant gives: ranges in creation order, consistency *)

Lemma src_edge_at {c VP EP} (g : AdjacencyList c VP EP) i se :
  eList g !! i = Some se → src (edge_at g i) = se_src se.
Proof. intros H. by rewrite (edge_at_lookup _ _ _ H). Qed.

Lemma tar_edge_at {c VP EP} (g : AdjacencyList c VP EP) i se :
  eList g !! i = Some se → tar (edge_at g i) = se_tar se.
Proof. intros H. by rewrite (edge_at_lookup _ _ _ H). Qed.

Lemma edges_with_lt {EP} (f : StoredEdge EP → nat) el v i :
  i ∈ edges_with f el v → i < length el.
Proof. intros (se & Hse & _)%elem_of_edges_with. by eapply lookup_lt_Some. Qed.

Lemma out_edge_sequence_edges_from {c VP EP} (g : AdjacencyList c VP EP) v :
  storage_invariant g → v < numVertices g →
  out_edge_sequence v g = Ok (edge_at g <$> edges_from g v).
Proof.
  intros (_ & Hout & _) Hv. unfold out_edge_sequence, getIndex.
  destruct (index_lt (vList g) v Hv) as (sv & -> & Hsv). simpl.
  rewrite (traverse_fmap (dereference g) oe_storedEdgeIdx), (Hout _ _ Hsv).
  apply traverse_dereference. intros i Hi. by eapply edges_with_lt.
Qed.

Lemma in_edge_sequence_edges_into {c VP EP} (g : AdjacencyList c VP EP)
    (req : requires_Bidirectional c) v :
  storage_invariant g → v < numVertices g →
  in_edge_sequence req v g = Ok (edge_at g <$> edges_into g v).
Proof.
  unfold requires_Bidirectional in req. subst c.
  intros (_ & _ & _ & Hin) Hv. unfold in_edge_sequence, getIndex.
  destruct (index_lt (vList g) v Hv) as (sv & -> & Hsv). simpl.
  rewrite (traverse_fmap (dereference g) ie_storedEdgeIdx).
  specialize (Hin _ _ Hsv). simpl in Hin. rewrite Hin.
  apply traverse_dereference. intros i Hi. by eapply edges_with_lt.
Qed.

Lemma out_edge_sequence_lt {c VP EP} (g : AdjacencyList c VP EP) v es :
  out_edge_sequence v g = Ok es → v < numVertices g.
Proof.
  unfold out_edge_sequence. intros (sv & Hsv%index_Ok & _)%bind_Ok. by eapply lookup_lt_Some.
Qed.

Lemma in_edge_sequence_lt {c VP EP} (g : AdjacencyList c VP EP) req v es :
  in_edge_sequence req v g = Ok es → v < numVertices g.
Proof.
  unfold in_edge_sequence. intros (sv & Hsv%index_Ok & _)%bind_Ok. by eapply lookup_lt_Some.
Qed.

(** An edge of the store occurs once among the positions with its own end
    point and not at all among those with another. *)
Lemma count_edge_edges_with {c VP EP} (g : AdjacencyList c VP EP)
    (f : StoredEdge EP → nat) e se v :
  eList g !! storedEdgeIdx e = Some se →
  count_edge e (edge_at g <$> edges_with f (eList g) v) =
  if decide (f se = v) then 1 else 0.
Proof.
  intros Hse. rewrite count_edge_edge_at, filter_eq_count by apply NoDup_edges_with.
  destruct (decide (f se = v)) as [Hf|Hf].
  - rewrite decide_True; [done|]. apply elem_of_edges_with. eauto.
  - rewrite decide_False; [done|].
    intros (se' & Hse' & Hf')%elem_of_edges_with. by simplify_eq.
Qed.

Lemma storage_invariant_consistent {c VP EP} (g : AdjacencyList c VP EP) :
  storage_invariant g → adjacency_consistent g.
Proof.
  intros Hinv. pose proof Hinv as (Hsrc & Hout & Hin).
  split; [|split; [|split]].
  - intros e [Hi He]%elem_of_edges.
    destruct (lookup_lt_is_Some_2 (eList g) (storedEdgeIdx e) Hi) as [se Hse].
    assert (src e = se_src se) as Hs by (rewrite He; by apply src_edge_at).
    split.
    + exists (edge_at g <$> edges_from g (src e)). split.
      * apply out_edge_sequence_edges_from; [done|]. rewrite Hs. by eapply Hsrc.
      * unfold edges_from. rewrite (count_edge_edges_with g se_src e se) by done.
        by rewrite decide_True.
    + intros v es Hv Hes. pose proof (out_edge_sequence_lt _ _ _ Hes) as Hlt.
      rewrite (out_edge_sequence_edges_from g v Hinv Hlt) in Hes. simplify_eq.
      unfold edges_from. rewrite (count_edge_edges_with g se_src e se) by done.
      rewrite decide_False; [done | congruence].
  - intros req e [Hi He]%elem_of_edges.
    destruct (lookup_lt_is_Some_2 (eList g) (storedEdgeIdx e) Hi) as [se Hse].
    assert (tar e = se_tar se) as Ht by (rewrite He; by apply tar_edge_at).
    split.
    + exists (edge_at g <$> edges_into g (tar e)). split.
      * apply in_edge_sequence_edges_into; [done|]. rewrite Ht.
        unfold requires_Bidirectional in req. subst c. destruct Hin as [Htar _].
        by eapply Htar.
      * unfold edges_into. rewrite (count_edge_edges_with g se_tar e se) by done.
        by rewrite decide_True.
    + intros v es Hv Hes. pose proof (in_edge_sequence_lt _ _ _ _ Hes) as Hlt.
      rewrite (in_edge_sequence_edges_into g req v Hinv Hlt) in Hes. simplify_eq.
      unfold edges_into. rewrite (count_edge_edges_with g se_tar e se) by done.
      rewrite decide_False; [done | congruence].
  - intros v sv oe Hsv Hoe. apply (elem_of_edges_with se_src (eList g) v).
    fold (edges_from g v). rewrite <- (Hout _ _ Hsv). by apply list_elem_of_fmap_2.
  - intros v sv ie Hsv Hie. destruct c; [by apply not_elem_of_nil in Hie|].
    destruct Hin as [_ Hin]. apply (elem_of_edges_with se_tar (eList g) v).
    fold (edges_into g v). rewrite <- (Hin _ _ Hsv). by apply list_elem_of_fmap_2.
Qed.

Lemma addEdge_prop_edges {c VP EP} v u ep (g : AdjacencyList c VP EP) r :
  addEdge_prop v u ep g = Ok r → r.1 ∈ edges r.2 ∧ src r.1 = v ∧ tar r.1 = u.
Proof.
  intros (He & Hel & _ & _)%addEdge_prop_Ok. rewrite He. simpl. split; [|done].
  apply elem_of_edges. simpl. unfold numEdges, edge_at. rewrite Hel.
  rewrite length_app, list_lookup_middle by done. simpl. split; [lia | done].
Qed.

(** ** Stored in-edges and the numbers of references *)

Section Degrees.
Context {c : DirectedCategory} {VP EP : Type} (g : AdjacencyList c VP EP).
Context (Hinv : storage_invariant g).

Lemma out_edge_sequence_filter v :
  v < numVertices g → out_edge_sequence v g = Ok (filter (λ e, src e = v) (edges g)).
Proof.
  intros Hv. rewrite (out_edge_sequence_edges_from g v Hinv Hv). f_equal.
  apply (edge_at_edges_with se_src src). intros i se. apply src_edge_at.
Qed.

Lemma in_edge_sequence_filter req v :
  v < numVertices g → in_edge_sequence req v g = Ok (filter (λ e, tar e = v) (edges g)).
Proof.
  intros Hv. rewrite (in_edge_sequence_edges_into g req v Hinv Hv). f_equal.
  apply (edge_at_edges_with se_tar tar). intros i se. apply tar_edge_at.
Qed.

Lemma out_edge_count_filter v :
  v < numVertices g →
  out_edge_count v g = Ok (length (filter (λ e, src e = v) (edges g))).
Proof.
  intros Hv. destruct Hinv as (_ & Hout & _). unfold out_edge_count, getIndex.
  destruct (index_lt (vList g) v Hv) as (sv & -> & Hsv). simpl. f_equal.
  rewrite <- (edge_at_edges_with se_src src g v) by (intros i se; apply src_edge_at).
  fold (edges_from g v). rewrite <- (Hout _ _ Hsv). by rewrite !length_fmap.
Qed.
End Degrees.

Lemma in_edge_count_filter {c VP EP} (g : AdjacencyList c VP EP) req v :
  storage_invariant g → v < numVertices g →
  in_edge_count req v g = Ok (length (filter (λ e, tar e = v) (edges g))).
Proof.
  unfold requires_Bidirectional in req. subst c.
  intros (_ & _ & _ & Hin) Hv. unfold in_edge_count, getIndex.
  destruct (index_lt (vList g) v Hv) as (sv & -> & Hsv). simpl. f_equal.
  rewrite <- (edge_at_edges_with se_tar tar g v) by (intros i se; apply tar_edge_at).
  fold (edges_into g v). rewrite <- (Hin _ _ Hsv). by rewrite !length_fmap.
Qed.

(** ** The colours along a visit *)

Lemma whites_le (st st' : list DFSColour) :
  length st' = length st →
  (∀ v, st' !! v = Some White → st !! v = Some White) →
  whites st' ≤ whites st.
Proof.
  unfold whites. revert st'. induction st as [|a st IH]; intros [|a' st'] Hlen Hpt;
    simplify_eq/=; [done|].
  rewrite !filter_cons.
  assert (length (filter (White =.) st') ≤ length (filter (White =.) st)) as Hle.
  { apply IH; [done|]. intros v Hv. by apply (Hpt (S v)). }
  pose proof (Hpt 0) as H0. simpl in H0.
  destruct (decide (White = a')) as [<-|], (decide (White = a)) as [<-|Hne]; simpl; try lia.
  exfalso. apply Hne. specialize (H0 eq_refl). by simplify_eq.
Qed.

Lemma whites_lt (st st' : list DFSColour) u :
  length st' = length st →
  (∀ v, st' !! v = Some White → st !! v = Some White) →
  st !! u = Some White → st' !! u ≠ Some White →
  whites st' < whites st.
Proof.
  unfold whites. revert st' u. induction st as [|a st IH]; intros [|a' st'] u Hlen Hpt Hu Hu';
    simplify_eq/=.
  rewrite !filter_cons.
  assert (length (filter (White =.) st') ≤ length (filter (White =.) st)) as Hle.
  { apply whites_le; [done|]. intros v Hv. by apply (Hpt (S v)). }
  pose proof (Hpt 0) as H0. simpl in H0.
  destruct u as [|u]; simplify_eq/=.
  - destruct (decide (White = a')) as [<-|]; [done|].
    destruct (decide (White = White)); [simpl; lia | done].
  - assert (length (filter (White =.) st') < length (filter (White =.) st)) as Hlt.
    { eapply IH; [done| |done|done]. intros v Hv. by apply (Hpt (S v)). }
    destruct (decide (White = a')) as [<-|], (decide (White = a)) as [<-|Hne]; simpl; try lia.
    exfalso. apply Hne. specialize (H0 eq_refl). by simplify_eq.
Qed.

Lemma whites_replicate n : whites (replicate n White) = n.
Proof.
  unfold whites. induction n as [|n IH]; [done|]. cbn [replicate].
  rewrite filter_cons, decide_True by done. simpl. by rewrite IH.
Qed.

Section Colours.
Context {c : DirectedCategory} {VP EP : Type} (g : AdjacencyList c VP EP).

Lemma colours_step_refl st : colours_step st st.
Proof. split; [done|]. split; [done | by left]. Qed.

Lemma colours_step_trans st1 st2 st3 :
  colours_step st1 st2 → colours_step st2 st3 → colours_step st1 st3.
Proof.
  intros (Hl1 & Hf1 & Hm1) (Hl2 & Hf2 & Hm2). split; [congruence|]. split.
  - intros v Hv. rewrite Hf2; [by apply Hf1|]. by rewrite Hf1.
  - intros v Hv. destruct (Hm1 v Hv) as [H|H]; [by apply Hm2|].
    right. rewrite Hf2; [done|]. by rewrite H.
Qed.

Lemma colours_step_vertex st u st' :
  st !! u = Some White →
  colours_step (<[u:=Grey]> st) st' →
  colours_step st (<[u:=Black]> st').
Proof.
  intros Hu (Hl & Hf & Hm). rewrite length_insert in Hl.
  split; [by rewrite length_insert|]. split.
  - intros v Hv. assert (u ≠ v) as Hne by congruence.
    rewrite list_lookup_insert_ne by done.
    rewrite Hf; rewrite list_lookup_insert_ne by done; done.
  - intros v Hv. destruct (decide (u = v)) as [<-|Hne].
    + right. apply list_lookup_insert_eq. rewrite Hl. by eapply lookup_lt_Some.
    + rewrite list_lookup_insert_ne by done. apply Hm.
      by rewrite list_lookup_insert_ne.
Qed.

Lemma Visit_colours :
  (∀ st u evs st', Visit g st u evs st' → colours_step st st') ∧
  (∀ st es evs st', VisitEdges g st es evs st' → colours_step st st').
Proof.
  apply Visit_VisitEdges_ind.
  - intros st u es evs st' Hu _ _ IH. by apply colours_step_vertex.
  - apply colours_step_refl.
  - intros st e es evs1 st1 evs2 st2 _ _ IH1 _ IH2. by eapply colours_step_trans.
  - done.
  - done.
Qed.

Lemma Visit_black st u evs st' :
  Visit g st u evs st' → st' !! u = Some Black.
Proof.
  inversion 1 as [? ? es evs0 st0 Hu Hes Hloop]; subst.
  apply list_lookup_insert_eq.
  destruct (proj2 Visit_colours _ _ _ _ Hloop) as (Hl & _).
  rewrite Hl, length_insert. by eapply lookup_lt_Some.
Qed.

Lemma colours_step_whites st st' : colours_step st st' → whites st' ≤ whites st.
Proof.
  intros (Hl & Hf & _). apply whites_le; [done|].
  intros v Hv. destruct (decide (st !! v = Some White)) as [|Hne]; [done|].
  rewrite (Hf v Hne) in Hv. done.
Qed.

Lemma Visit_white st u evs st' :
  Visit g st u evs st' → st !! u = Some White.
Proof. by inversion 1. Qed.

Lemma Visit_whites st u evs st' :
  Visit g st u evs st' → whites st' < whites st.
Proof.
  intros HV. pose proof (Visit_black _ _ _ _ HV) as Hb.
  pose proof (Visit_white _ _ _ _ HV) as Hw.
  destruct (proj1 Visit_colours _ _ _ _ HV) as (Hl & Hf & _).
  apply (whites_lt st st' u); [done| |done|].
  - intros v Hv. destruct (decide (st !! v = Some White)) as [|Hne]; [done|].
    rewrite (Hf v Hne) in Hv. done.
  - by rewrite Hb.
Qed.

Lemma VisitRoots_colours st vs evs st' :
  VisitRoots g st vs evs st' → colours_step st st'.
Proof.
  induction 1 as [|st v vs evs1 st1 evs2 st2 _ HV _ IH|].
  - apply colours_step_refl.
  - eapply colours_step_trans; [|done]. by eapply (proj1 Visit_colours).
  - done.
Qed.
End Colours.

(** ** The protocol fixes the callbacks *)

Lemma Visit_deterministic {c VP EP} (g : AdjacencyList c VP EP) :
  (∀ st u evs st', Visit g st u evs st' →
     ∀ evs2 st2, Visit g st u evs2 st2 → evs2 = evs ∧ st2 = st') ∧
  (∀ st es evs st', VisitEdges g st es evs st' →
     ∀ evs2 st2, VisitEdges g st es evs2 st2 → evs2 = evs ∧ st2 = st').
Proof.
  apply Visit_VisitEdges_ind.
  - intros st u es evs st' _ Hes _ IH evs2 st2 H2.
    inversion H2 as [? ? es2 evs0 st0 _ Hes2 HV2]; subst.
    rewrite Hes in Hes2. simplify_eq.
    by destruct (IH _ _ HV2) as [-> ->].
  - intros st evs2 st2 H2. by inversion H2.
  - intros st e es evs1 st1 evs2 st2 Hw _ IH1 _ IH2 evs' st' H2.
    inversion H2 as [|? ? ? evs1' st1' evs2' st2' _ HV1 HV2| |]; subst; try congruence.
    destruct (IH1 _ _ HV1) as [-> ->]. by destruct (IH2 _ _ HV2) as [-> ->].
  - intros st e es evs2 st2 Hg _ IH evs' st' H2.
    inversion H2 as [| |? ? ? evs2' st2' _ HV2|]; subst; try congruence.
    by destruct (IH _ _ HV2) as [-> ->].
  - intros st e es evs2 st2 Hb _ IH evs' st' H2.
    inversion H2 as [| | |? ? ? evs2' st2' _ HV2]; subst; try congruence.
    by destruct (IH _ _ HV2) as [-> ->].
Qed.

(** ** The recorded callbacks follow the protocol *)

Section RecorderSound.
Context {c : DirectedCategory} {VP EP : Type} (pl : ParamLifetime).
Implicit Types m : Memory c VP EP (list Event).

Lemma dfsVisit_edges_sound visit oes m r :
  (∀ v m m', mem_colour m !! v = Some White → visit tt v m = Ok m' →
     ∃ evs, mem_graph m' = mem_graph m ∧ mem_world m' = mem_world m ++ evs ∧
            Visit (mem_graph m) (mem_colour m) v evs (mem_colour m')) →
  dfsVisit_edges visit RecordingVisitor oes tt m = Ok r →
  ∃ es evs,
    traverse (λ oe, dereference (mem_graph m) (oe_storedEdgeIdx oe)) oes = Ok es ∧
    mem_graph r.2 = mem_graph m ∧ mem_world r.2 = mem_world m ++ evs ∧
    VisitEdges (mem_graph m) (mem_colour m) es evs (mem_colour r.2).
Proof.
  intros Hvisit. revert m. induction oes as [|oe oes IH]; intros m; simpl.
  - intros [= <-]. exists [], []. simpl. rewrite app_nil_r. repeat split. constructor.
  - intros (e & He & H)%bind_Ok. rewrite He. simpl.
    apply bind_Ok in H as (cv & Hcv%index_Ok & H).
    apply bind_Ok in H as (r2 & Hr2 & H). simpl in Hcv.
    destruct cv; simpl in Hr2.
    + apply bind_Ok in Hr2 as (m' & Hm' & [= <-]).
      apply Hvisit in Hm' as (evs1 & Hg1 & Hw1 & HV1); [|done]. simpl in *.
      apply IH in H as (es & evs2 & Hes & Hg2 & Hw2 & HV2). simpl in *.
      rewrite Hg1 in Hes, Hg2, HV2. rewrite Hes. simpl.
      exists (e :: es), (EvExamineEdge e :: EvTreeEdge e :: evs1 ++ EvFinishEdge e :: evs2).
      split; [done|]. split; [done|]. split.
      * rewrite Hw2, Hw1. rewrite <- !app_assoc. done.
      * by eapply VisitEdges_tree.
    + simplify_eq. simpl in *.
      apply IH in H as (es & evs2 & Hes & Hg2 & Hw2 & HV2). simpl in *.
      rewrite Hes. simpl.
      exists (e :: es), (EvExamineEdge e :: EvBackEdge e :: EvFinishEdge e :: evs2).
      split; [done|]. split; [done|]. split.
      * rewrite Hw2. rewrite <- !app_assoc. done.
      * by eapply VisitEdges_back.
    + simplify_eq. simpl in *.
      apply IH in H as (es & evs2 & Hes & Hg2 & Hw2 & HV2). simpl in *.
      rewrite Hes. simpl.
      exists (e :: es),
        (EvExamineEdge e :: EvForwardOrCrossEdge e :: EvFinishEdge e :: evs2).
      split; [done|]. split; [done|]. split.
      * rewrite Hw2. rewrite <- !app_assoc. done.
      * by eapply VisitEdges_forwardOrCross.
Qed.

Lemma dfsVisit_sound fuel u m m' :
  mem_colour m !! u = Some White →
  dfsVisit pl fuel RecordingVisitor tt u m = Ok m' →
  ∃ evs, mem_graph m' = mem_graph m ∧ mem_world m' = mem_world m ++ evs ∧
         Visit (mem_graph m) (mem_colour m) u evs (mem_colour m').
Proof.
  revert u m m'. induction fuel as [|fuel IH]; intros u m m' Hu; simpl; [done|].
  intros (m2 & [_ ->]%set_colour_Ok & H)%bind_Ok.
  apply bind_Ok in H as (oes & (_ & sv & Hsv & ->)%OutEdgeRange_positions_Ok & H).
  apply bind_Ok in H as (r3 & Hr3 & H).
  apply bind_Ok in H as (m4 & [_ ->]%set_colour_Ok & [= <-]). simpl.
  apply dfsVisit_edges_sound in Hr3 as (es & evs & Hes & Hg & Hw & HV);
    [|intros v m0 m0'; apply IH].
  simpl in *. exists (EvDiscoverVertex u :: evs ++ [EvFinishVertex u]).
  split; [done|]. split.
  - rewrite Hw. rewrite <- !app_assoc. done.
  - eapply Visit_vertex; [done| |exact HV].
    unfold out_edge_sequence, getIndex. rewrite (proj2 (index_Ok _ _ _) Hsv). simpl. exact Hes.
Qed.

Lemma dfs_roots_sound fuel vs m r :
  dfs_roots pl fuel RecordingVisitor vs tt m = Ok r →
  ∃ evs, mem_graph r.2 = mem_graph m ∧ mem_world r.2 = mem_world m ++ evs ∧
         VisitRoots (mem_graph m) (mem_colour m) vs evs (mem_colour r.2).
Proof.
  revert m. induction vs as [|v vs IH]; intros m; simpl.
  - intros [= <-]. exists []. simpl. rewrite app_nil_r. repeat split. constructor.
  - intros (cv & Hcv%index_Ok & H)%bind_Ok.
    destruct cv.
    + apply bind_Ok in H as (m' & Hm' & H).
      apply dfsVisit_sound in Hm' as (evs1 & Hg1 & Hw1 & HV1); [|done]. simpl in *.
      apply IH in H as (evs2 & Hg2 & Hw2 & HV2).
      rewrite Hg1 in Hg2, HV2.
      exists (EvStartVertex v :: evs1 ++ evs2).
      split; [done|]. split.
      * rewrite Hw2, Hw1. rewrite <- !app_assoc. done.
      * by eapply VisitRoots_start.
    + apply IH in H as (evs2 & Hg2 & Hw2 & HV2). exists evs2.
      repeat split; try done. by eapply VisitRoots_skip.
    + apply IH in H as (evs2 & Hg2 & Hw2 & HV2). exists evs2.
      repeat split; try done. by eapply VisitRoots_skip.
Qed.

Lemma insert_replicate_White n i :
  <[i:=White]> (replicate n White) = replicate n White.
Proof.
  apply list_eq. intros j. destruct (decide (i = j)) as [<-|Hne].
  - destruct (decide (i < n)) as [Hi|Hi].
    + rewrite list_lookup_insert_eq by (by rewrite length_replicate).
      symmetry. by apply lookup_replicate.
    + rewrite list_insert_ge; [done|]. rewrite length_replicate. lia.
  - by rewrite list_lookup_insert_ne.
Qed.

Lemma dfs_init_sound n vs m r :
  mem_colour m = replicate n White →
  dfs_init RecordingVisitor vs tt m = Ok r →
  r = (tt, mkMemory (mem_graph m) (replicate n White)
             (mem_world m ++ (EvInitVertex <$> vs))).
Proof.
  revert m. induction vs as [|v vs IH]; intros m Hcol; simpl.
  - intros [= <-]. rewrite app_nil_r. destruct m. simpl in *. by subst.
  - intros (m1 & [_ ->]%set_colour_Ok & H)%bind_Ok. simpl in H.
    apply IH in H; [|simpl; by rewrite Hcol, insert_replicate_White].
    rewrite H. simpl. rewrite <- app_assoc. done.
Qed.

Lemma dfs_trace_protocol (g : AdjacencyList c VP EP) evs :
  dfs_trace pl g = Ok evs → DfsProtocol g evs.
Proof.
  unfold dfs_trace, dfs. intros (r & H & [= <-])%bind_Ok.
  apply bind_Ok in H as (r1 & H1 & H).
  apply (dfs_init_sound (numVertices g)) in H1; [|done]. subst r1. simpl in H.
  apply bind_Ok in H as (r2 & H2 & [= <-]). simpl.
  apply dfs_roots_sound in H2 as (body & Hg & Hw & HV). simpl in *.
  exists body, (mem_colour r2.2). split; [done|]. done.
Qed.
End RecorderSound.

(** ** Depth-first search returns *)

Lemma whites_insert st u col :
  st !! u = Some White → col ≠ White → whites (<[u:=col]> st) < whites st.
Proof.
  intros Hu Hcol. apply (whites_lt _ _ u); [apply length_insert| |done|].
  - intros v. destruct (decide (u = v)) as [<-|Hne].
    + rewrite list_lookup_insert_eq by (by eapply lookup_lt_Some). congruence.
    + by rewrite list_lookup_insert_ne.
  - rewrite list_lookup_insert_eq by (by eapply lookup_lt_Some). congruence.
Qed.

Lemma well_formed_traversable {c VP EP} (g : AdjacencyList c VP EP) :
  well_formed g → traversable g.
Proof.
  intros [(_ & _ & Hrefs & _) Htar] v sv oe Hsv Hoe.
  destruct (Hrefs v sv oe Hsv Hoe) as (se & Hse & _). exists se. split; [done|].
  rewrite <- (tar_edge_at g _ _ Hse). apply Htar. apply elem_of_edges.
  rewrite storedEdgeIdx_edge_at. split; [|done]. by eapply lookup_lt_Some.
Qed.

Section RecorderTotal.
Context {c : DirectedCategory} {VP EP : Type}.
Implicit Types m : Memory c VP EP (list Event).

Lemma fits_step m m' :
  fits m → mem_graph m' = mem_graph m →
  colours_step (mem_colour m) (mem_colour m') → fits m'.
Proof. intros [Ht Hl] Hg (Hl' & _). split; rewrite Hg; [done | congruence]. Qed.

Lemma dfsVisit_edges_total fuel oes m :
  (∀ v m, fits m → mem_colour m !! v = Some White → whites (mem_colour m) ≤ fuel →
          ∃ m', dfsVisit UntilFullExpression fuel RecordingVisitor tt v m = Ok m') →
  fits m →
  (∀ oe, oe ∈ oes → ∃ se, eList (mem_graph m) !! oe_storedEdgeIdx oe = Some se ∧
                          se_tar se < numVertices (mem_graph m)) →
  whites (mem_colour m) ≤ fuel →
  ∃ r, dfsVisit_edges (dfsVisit UntilFullExpression fuel RecordingVisitor) RecordingVisitor oes tt m = Ok r.
Proof.
  intros IHf. revert m. induction oes as [|oe oes IH]; intros m Hfit Hrefs Hw; simpl.
  - eauto.
  - destruct (Hrefs oe) as (se & Hse & Htar); [by left|].
    unfold dereference. rewrite (proj2 (index_Ok _ _ _) Hse). simpl.
    destruct Hfit as [Ht Hl].
    destruct (index_lt (mem_colour m) (se_tar se)) as (cv & -> & Hcv); [lia|]. simpl.
    assert (∀ m2 : Memory c VP EP (list Event),
              mem_graph m2 = mem_graph m →
              colours_step (mem_colour m) (mem_colour m2) →
              ∃ r, dfsVisit_edges (dfsVisit UntilFullExpression fuel RecordingVisitor) RecordingVisitor
                     oes tt m2 = Ok r) as Hrest.
    { intros m2 Hg Hstep. apply IH.
      - by apply (fits_step m).
      - intros oe' Hoe'. rewrite Hg. apply Hrefs. by right.
      - pose proof (colours_step_whites _ _ Hstep). lia. }
    destruct cv; simpl.
    + destruct (IHf (se_tar se)
                  (mkMemory (mem_graph m) (mem_colour m)
                     ((mem_world m ++ [EvExamineEdge (mkEdgeDescriptor (se_src se) (se_tar se)
                                                        (oe_storedEdgeIdx oe))]) ++
                      [EvTreeEdge (mkEdgeDescriptor (se_src se) (se_tar se)
                                     (oe_storedEdgeIdx oe))])))
        as [m' Hm']; [done|done|done|].
      rewrite Hm'. simpl.
      apply dfsVisit_sound in Hm' as (evs & Hg & _ & HV); [|done]. simpl in *.
      apply Hrest; simpl; [done|]. by eapply (proj1 (Visit_colours _)).
    + apply Hrest; simpl; [done | apply colours_step_refl].
    + apply Hrest; simpl; [done | apply colours_step_refl].
Qed.

Lemma dfsVisit_total fuel u m :
  fits m → mem_colour m !! u = Some White → whites (mem_colour m) ≤ fuel →
  ∃ m', dfsVisit UntilFullExpression fuel RecordingVisitor tt u m = Ok m'.
Proof.
  revert u m. induction fuel as [|fuel IH]; intros u m Hfit Hu Hw.
  - pose proof (whites_insert _ u Grey Hu ltac:(done)). lia.
  - simpl. destruct Hfit as [Ht Hl]. pose proof (lookup_lt_Some _ _ _ Hu) as Hlt.
    rewrite set_colour_lt by done. simpl.
    destruct (index_lt (vList (mem_graph m)) u) as (sv & Hsv & Hsv');
      [unfold numVertices in Hl; lia|].
    rewrite (OutEdgeRange_positions_alive _ _ _ Hsv'). simpl.
    pose proof (whites_insert _ u Grey Hu ltac:(done)) as Hlt'.
    edestruct (dfsVisit_edges_total fuel (eOut sv)) as [r3 Hr3]; [exact IH| | | |].
    4:{ rewrite Hr3. simpl.
        apply dfsVisit_edges_sound in Hr3 as (es & evs & _ & _ & _ & HV);
          [|intros v m0 m0'; apply dfsVisit_sound].
        destruct (proj2 (Visit_colours _) _ _ _ _ HV) as (Hl3 & _). simpl in Hl3.
        rewrite length_insert in Hl3.
        rewrite set_colour_lt by lia. simpl. eauto. }
    + split; simpl; [done | by rewrite length_insert].
    + simpl. intros oe Hoe. by eapply Ht.
    + simpl. lia.
Qed.

Lemma dfs_roots_total fuel vs m :
  fits m → (∀ v, v ∈ vs → base v < numVertices (mem_graph m)) →
  whites (mem_colour m) ≤ fuel →
  ∃ r, dfs_roots UntilFullExpression fuel RecordingVisitor vs tt m = Ok r.
Proof.
  revert m. induction vs as [|v vs IH]; intros m Hfit Hvs Hw; simpl; [eauto|].
  pose proof Hfit as [Ht Hl].
  destruct (index_lt (mem_colour m) (base v)) as (cv & -> & Hcv).
  { rewrite Hl. apply Hvs. by left. }
  simpl. destruct cv.
  - destruct (dfsVisit_total fuel (base v)
                (mkMemory (mem_graph m) (mem_colour m) (mem_world m ++ [EvStartVertex v])))
      as [m' Hm']; [done|done|done|].
    rewrite Hm'. simpl.
    apply dfsVisit_sound in Hm' as (evs & Hg & _ & HV); [|done]. simpl in *.
    pose proof (proj1 (Visit_colours _) _ _ _ _ HV) as Hstep.
    apply IH.
    + by apply (fits_step m).
    + intros v' Hv'. rewrite Hg. apply Hvs. by right.
    + pose proof (colours_step_whites _ _ Hstep). lia.
  - apply IH; [done| |done]. intros v' Hv'. apply Hvs. by right.
  - apply IH; [done| |done]. intros v' Hv'. apply Hvs. by right.
Qed.

Lemma dfs_init_total n vs m :
  mem_colour m = replicate n White →
  (∀ v, v ∈ vs → base v < n) →
  dfs_init RecordingVisitor vs tt m =
  Ok (tt, mkMemory (mem_graph m) (replicate n White)
            (mem_world m ++ (EvInitVertex <$> vs))).
Proof.
  revert m. induction vs as [|v vs IH]; intros m Hcol Hvs; simpl.
  - rewrite app_nil_r. destruct m. simpl in *. by subst.
  - rewrite set_colour_lt; [|rewrite Hcol, length_replicate; apply Hvs; by left].
    simpl. rewrite IH; simpl.
    + by rewrite <- app_assoc.
    + rewrite Hcol. apply insert_replicate_White.
    + intros v' Hv'. apply Hvs. by right.
Qed.

Lemma vertices_lt (g : AdjacencyList c VP EP) v :
  v ∈ vertices g → base v < numVertices g.
Proof.
  unfold vertices. intros (i & -> & Hi%elem_of_seq)%list_elem_of_fmap. simpl. lia.
Qed.

Lemma dfs_trace_total (g : AdjacencyList c VP EP) :
  traversable g → ∃ evs, dfs_trace UntilFullExpression g = Ok evs.
Proof.
  intros Ht. unfold dfs_trace, dfs.
  rewrite (dfs_init_total (numVertices g)); [|done|apply vertices_lt]. simpl.
  edestruct (dfs_roots_total (numVertices g) (vertices g)) as [r2 ->];
    [| | |simpl; eauto].
  - split; simpl; [done | apply length_replicate].
  - simpl. apply vertices_lt.
  - simpl. by rewrite whites_replicate.
Qed.
End RecorderTotal.

(** ** The depth given by [dfs] is enough on every graph *)

Lemma bind_fuel {A B} (r : Res A) (f : A → Res B) :
  r ≠ OutOfFuel → (∀ a, r = Ok a → f a ≠ OutOfFuel) → r ≫= f ≠ OutOfFuel.
Proof. destruct r; simpl; [by eauto | done | done]. Qed.

Lemma index_fuel {A} (l : list A) i : index l i ≠ OutOfFuel.
Proof. unfold index. by destruct (l !! i). Qed.

Section RecorderFuel.
Context {c : DirectedCategory} {VP EP : Type} (pl : ParamLifetime).
Implicit Types m : Memory c VP EP (list Event).

Lemma set_colour_fuel u col m : set_colour u col m ≠ OutOfFuel.
Proof. unfold set_colour, assign. by destruct (mem_colour m !! u). Qed.

Lemma dereference_fuel (g : AdjacencyList c VP EP) i : dereference g i ≠ OutOfFuel.
Proof. unfold dereference, index. by destruct (eList g !! i). Qed.

Lemma dfsVisit_edges_fuel fuel oes m :
  (∀ v m, mem_colour m !! v = Some White → whites (mem_colour m) ≤ fuel →
          dfsVisit pl fuel RecordingVisitor tt v m ≠ OutOfFuel) →
  whites (mem_colour m) ≤ fuel →
  dfsVisit_edges (dfsVisit pl fuel RecordingVisitor) RecordingVisitor oes tt m ≠ OutOfFuel.
Proof.
  intros IHf. revert m. induction oes as [|oe oes IH]; intros m Hw; simpl; [done|].
  apply bind_fuel; [apply dereference_fuel|]. intros e _.
  apply bind_fuel; [apply index_fuel|]. intros cv Hcv%index_Ok. simpl in Hcv.
  apply bind_fuel.
  - destruct cv; [|done|done]. apply bind_fuel; [by apply IHf | done].
  - intros [[] m2] Hr2. apply IH. simpl. destruct cv; simplify_eq/=; try done.
    apply bind_Ok in Hr2 as (m' & Hm' & [= <-]). simpl.
    apply dfsVisit_sound in Hm' as (evs & _ & _ & HV); [|done]. simpl in HV.
    pose proof (colours_step_whites _ _ (proj1 (Visit_colours _) _ _ _ _ HV)). lia.
Qed.

Lemma dfsVisit_fuel fuel u m :
  mem_colour m !! u = Some White → whites (mem_colour m) ≤ fuel →
  dfsVisit pl fuel RecordingVisitor tt u m ≠ OutOfFuel.
Proof.
  revert u m. induction fuel as [|fuel IH]; intros u m Hu Hw.
  - pose proof (whites_insert _ u Grey Hu ltac:(done)). lia.
  - simpl. apply bind_fuel; [apply set_colour_fuel|].
    intros m2 [_ ->]%set_colour_Ok. simpl.
    apply bind_fuel; [apply OutEdgeRange_positions_fuel|]. intros es _.
    apply bind_fuel.
    + apply dfsVisit_edges_fuel; [exact IH|]. simpl.
      pose proof (whites_insert _ u Grey Hu ltac:(done)). lia.
    + intros r3 _. apply bind_fuel; [apply set_colour_fuel | done].
Qed.

Lemma dfs_roots_fuel fuel vs m :
  whites (mem_colour m) ≤ fuel →
  dfs_roots pl fuel RecordingVisitor vs tt m ≠ OutOfFuel.
Proof.
  revert m. induction vs as [|v vs IH]; intros m Hw; simpl; [done|].
  apply bind_fuel; [apply index_fuel|]. intros cv Hcv%index_Ok.
  destruct cv; [|by apply IH|by apply IH].
  apply bind_fuel; [by apply dfsVisit_fuel|]. intros m' Hm'. apply IH.
  apply dfsVisit_sound in Hm' as (evs & _ & _ & HV); [|done]. simpl in HV.
  pose proof (colours_step_whites _ _ (proj1 (Visit_colours _) _ _ _ _ HV)). lia.
Qed.

Lemma dfs_init_fuel vs m : dfs_init RecordingVisitor vs tt m ≠ OutOfFuel.
Proof.
  revert m. induction vs as [|v vs IH]; intros m; simpl; [done|].
  apply bind_fuel; [apply set_colour_fuel|]. intros m1 _. apply IH.
Qed.

(** Whatever the graph, the recursion of [dfs] stays within [numVertices g]. *)
Lemma dfs_trace_fuel (g : AdjacencyList c VP EP) : dfs_trace pl g ≠ OutOfFuel.
Proof.
  unfold dfs_trace, dfs. apply bind_fuel; [|done].
  apply bind_fuel; [apply dfs_init_fuel|]. intros r1 Hr1.
  apply (dfs_init_sound (numVertices g)) in Hr1; [|done]. subst r1. simpl.
  apply bind_fuel; [|done]. apply dfs_roots_fuel. simpl. by rewrite whites_replicate.
Qed.
End RecorderFuel.

(** ** Counting callbacks *)

Lemma occurrences_nil ev : occurrences ev [] = 0.
Proof. done. Qed.

Lemma occurrences_cons ev x evs :
  occurrences ev (x :: evs) = (if decide (ev = x) then 1 else 0) + occurrences ev evs.
Proof. unfold occurrences. rewrite filter_cons. by destruct (decide (ev = x)). Qed.

Lemma occurrences_app ev evs1 evs2 :
  occurrences ev (evs1 ++ evs2) = occurrences ev evs1 + occurrences ev evs2.
Proof. unfold occurrences. by rewrite filter_app, length_app. Qed.

Lemma count_edge_app e es1 es2 :
  count_edge e (es1 ++ es2) = count_edge e es1 + count_edge e es2.
Proof. unfold count_edge. by rewrite filter_app, length_app. Qed.

Lemma count_edge_cons e x es :
  count_edge e (x :: es) = count_edge e [x] + count_edge e es.
Proof. apply (count_edge_app e [x] es). Qed.

Lemma occurrences_discovered v evs :
  occurrences (EvDiscoverVertex v) evs = length (filter (v =.) (discovered evs)).
Proof.
  induction evs as [|ev evs IH]; [done|]. rewrite occurrences_cons, IH.
  destruct ev; simpl; try done.
  rewrite filter_cons. destruct (decide (v = v0)) as [->|Hne].
  - by rewrite decide_True.
  - rewrite decide_False by congruence. done.
Qed.

Lemma sum_list_with_single {A} `{EqDecision A} (f : A → nat) (s : A) (l : list A) :
  (∀ v, v ≠ s → f v = 0) →
  sum_list_with f l = f s * length (filter (s =.) l).
Proof.
  intros Hf. induction l as [|x l IH]; simpl; [lia|].
  rewrite filter_cons, IH. destruct (decide (s = x)) as [<-|Hne]; simpl; [lia|].
  rewrite Hf by congruence. lia.
Qed.

Lemma examined_app evs1 evs2 : examined (evs1 ++ evs2) = examined evs1 ++ examined evs2.
Proof. apply omap_app. Qed.

Lemma discovered_app evs1 evs2 :
  discovered (evs1 ++ evs2) = discovered evs1 ++ discovered evs2.
Proof. apply omap_app. Qed.

Lemma finished_app evs1 evs2 : finished (evs1 ++ evs2) = finished evs1 ++ finished evs2.
Proof. apply omap_app. Qed.

Lemma examined_cons ev evs :
  examined (ev :: evs) =
  match ev with EvExamineEdge e => e :: examined evs | _ => examined evs end.
Proof. by destruct ev. Qed.

Lemma discovered_cons ev evs :
  discovered (ev :: evs) =
  match ev with EvDiscoverVertex v => v :: discovered evs | _ => discovered evs end.
Proof. by destruct ev. Qed.

Lemma finished_cons ev evs :
  finished (ev :: evs) =
  match ev with EvFinishVertex v => v :: finished evs | _ => finished evs end.
Proof. by destruct ev. Qed.

Ltac obs_simpl :=
  rewrite ?examined_cons, ?discovered_cons, ?finished_cons,
          ?examined_app, ?discovered_app, ?finished_app,
          ?examined_cons, ?discovered_cons, ?finished_cons;
  change (examined []) with (@nil EdgeDescriptor);
  change (discovered []) with (@nil nat);
  change (finished []) with (@nil nat);
  rewrite ?app_nil_r.

Ltac occ_simpl :=
  repeat (rewrite ?occurrences_app, ?occurrences_cons, ?occurrences_nil;
          try rewrite !decide_False by done).

Section Counting.
Context {c : DirectedCategory} {VP EP : Type} (g : AdjacencyList c VP EP).

Lemma counted_trans st1 evs1 st2 evs2 st3 :
  counted st1 evs1 st2 → counted st2 evs2 st3 → counted st1 (evs1 ++ evs2) st3.
Proof.
  intros H1 H2 v. destruct (H1 v), (H2 v). rewrite !occurrences_app. lia.
Qed.

Lemma Visit_counted :
  (∀ st u evs st', Visit g st u evs st' → counted st evs st') ∧
  (∀ st es evs st', VisitEdges g st es evs st' → counted st evs st').
Proof.
  apply Visit_VisitEdges_ind.
  - intros st u es evs st' Hu _ HV IH v.
    pose proof (lookup_lt_Some _ _ _ Hu) as Hlt.
    destruct (proj2 (Visit_colours g) _ _ _ _ HV) as (Hl & Hf & _).
    rewrite length_insert in Hl.
    destruct (IH v) as [IHd IHf]. occ_simpl.
    destruct (decide (u = v)) as [<-|Hne].
    + rewrite !decide_True by done.
      rewrite list_lookup_insert_eq in IHd, IHf by done.
      rewrite (Hf u) in IHd, IHf by (rewrite list_lookup_insert_eq by done; done).
      rewrite list_lookup_insert_eq in IHd, IHf by done.
      rewrite list_lookup_insert_eq by lia. rewrite Hu. simpl in *.
      rewrite ?decide_True by done. lia.
    + rewrite !decide_False by congruence.
      rewrite list_lookup_insert_ne in IHd, IHf by done.
      rewrite list_lookup_insert_ne by done. lia.
  - intros st v. occ_simpl. lia.
  - intros st e es evs1 st1 evs2 st2 _ _ IH1 _ IH2 v.
    destruct (IH1 v), (IH2 v). occ_simpl. lia.
  - intros st e es evs2 st2 _ _ IH v. destruct (IH v). occ_simpl. lia.
  - intros st e es evs2 st2 _ _ IH v. destruct (IH v). occ_simpl. lia.
Qed.

Lemma VisitRoots_counted st vs evs st' :
  VisitRoots g st vs evs st' → counted st evs st'.
Proof.
  induction 1 as [st|st v vs evs1 st1 evs2 st2 _ HV _ IH|]; [| |done].
  - intros v. occ_simpl. lia.
  - intros w. destruct (proj1 Visit_counted _ _ _ _ HV w), (IH w). occ_simpl. lia.
Qed.

(** From a state without Active vertices the roots end Done. *)
Lemma VisitRoots_done st vs evs st' :
  VisitRoots g st vs evs st' →
  (∀ v, st !! v ≠ Some Grey) →
  (∀ v, st' !! v ≠ Some Grey) ∧ (∀ v, v ∈ vs → st' !! base v = Some Black).
Proof.
  induction 1 as [st|st v vs evs1 st1 evs2 st2 Hv HV HR IH|st v vs cv evs st2 Hv Hcv HR IH];
    intros Hgrey.
  - split; [done|]. intros v Hv. by apply not_elem_of_nil in Hv.
  - destruct (proj1 (Visit_colours g) _ _ _ _ HV) as (_ & Hf & Hm).
    assert (∀ w, st1 !! w ≠ Some Grey) as Hgrey1.
    { intros w Hw. destruct (decide (st !! w = Some White)) as [HW|HW].
      - destruct (Hm w HW); congruence.
      - rewrite (Hf w HW) in Hw. by apply (Hgrey w). }
    destruct (IH Hgrey1) as [Hgrey2 Hblack]. split; [done|].
    intros w [->|Hw]%elem_of_cons; [|by apply Hblack].
    destruct (VisitRoots_colours g _ _ _ _ HR) as (_ & Hf2 & _).
    pose proof (Visit_black g _ _ _ _ HV) as Hb. rewrite Hf2; [done | by rewrite Hb].
  - destruct (IH Hgrey) as [Hgrey2 Hblack]. split; [done|].
    intros w [->|Hw]%elem_of_cons; [|by apply Hblack].
    destruct (VisitRoots_colours g _ _ _ _ HR) as (_ & Hf2 & _).
    rewrite Hf2 by (rewrite Hv; congruence). rewrite Hv.
    destruct cv; [done | by apply Hgrey in Hv | done].
Qed.

(** The edges examined are the out-edges of the vertices discovered. *)
Lemma Visit_examined e :
  (∀ st u evs st', Visit g st u evs st' →
     count_edge e (examined evs) =
     sum_list_with (λ v, count_edge e (out_of g v)) (discovered evs)) ∧
  (∀ st es evs st', VisitEdges g st es evs st' →
     count_edge e (examined evs) =
     count_edge e es + sum_list_with (λ v, count_edge e (out_of g v)) (discovered evs)).
Proof.
  apply Visit_VisitEdges_ind.
  - intros st u es evs st' _ Hes _ IH. obs_simpl. simpl.
    rewrite IH. unfold out_of. by rewrite Hes.
  - done.
  - intros st e' es evs1 st1 evs2 st2 _ _ IH1 _ IH2. obs_simpl.
    rewrite sum_list_with_app, (count_edge_cons e e'), count_edge_app, IH1, IH2.
    rewrite (count_edge_cons e e' es). lia.
  - intros st e' es evs2 st2 _ _ IH. obs_simpl.
    rewrite (count_edge_cons e e'), IH, (count_edge_cons e e' es). lia.
  - intros st e' es evs2 st2 _ _ IH. obs_simpl.
    rewrite (count_edge_cons e e'), IH, (count_edge_cons e e' es). lia.
Qed.

Lemma VisitRoots_examined e st vs evs st' :
  VisitRoots g st vs evs st' →
  count_edge e (examined evs) =
  sum_list_with (λ v, count_edge e (out_of g v)) (discovered evs).
Proof.
  induction 1 as [st|st v vs evs1 st1 evs2 st2 _ HV _ IH|]; [done| |done].
  obs_simpl. rewrite sum_list_with_app, count_edge_app, IH.
  by rewrite (proj1 (Visit_examined e) _ _ _ _ HV).
Qed.
End Counting.

(** ** A whole run: every vertex once, every edge once *)

Lemma occurrences_examined e evs :
  occurrences (EvExamineEdge e) evs = length (filter (e =.) (examined evs)).
Proof.
  induction evs as [|ev evs IH]; [done|]. rewrite occurrences_cons, IH.
  destruct ev; simpl; try done.
  rewrite filter_cons. destruct (decide (e = e0)) as [->|Hne].
  - by rewrite decide_True.
  - rewrite decide_False by congruence. done.
Qed.

Lemma init_events_silent (vs : list counting_iterator) :
  discovered (EvInitVertex <$> vs) = [] ∧ finished (EvInitVertex <$> vs) = [] ∧
  examined (EvInitVertex <$> vs) = [].
Proof. induction vs as [|v vs IH]; [done|]. rewrite fmap_cons. by obs_simpl. Qed.

Lemma occurrences_init ev (vs : list counting_iterator) :
  (∀ v, ev ≠ EvInitVertex v) → occurrences ev (EvInitVertex <$> vs) = 0.
Proof.
  intros Hev. induction vs as [|v vs IH]; [done|].
  rewrite fmap_cons, occurrences_cons, IH. by rewrite decide_False.
Qed.

Section WholeRun.
Context {c : DirectedCategory} {VP EP : Type} (g : AdjacencyList c VP EP).

Lemma elem_of_vertices v : v < numVertices g → mkCountingIterator v ∈ vertices g.
Proof. intros Hv. apply list_elem_of_fmap_2, elem_of_seq. lia. Qed.

Lemma out_edge_sequence_edges v es e : out_edge_sequence v g = Ok es → e ∈ es → e ∈ edges g.
Proof.
  unfold out_edge_sequence. intros (sv & _ & Hes%traverse_Ok_inv)%bind_Ok He.
  apply list_elem_of_lookup in He as [i Hi].
  destruct (Forall2_lookup_r _ _ _ _ _ Hes Hi) as (oe & _ & [Hlt ->]%dereference_Ok).
  apply elem_of_edges. by rewrite storedEdgeIdx_edge_at.
Qed.

Lemma Visit_examined_edges :
  (∀ st u evs st', Visit g st u evs st' → ∀ e, e ∈ examined evs → e ∈ edges g) ∧
  (∀ st es evs st', VisitEdges g st es evs st' →
     (∀ e, e ∈ es → e ∈ edges g) → ∀ e, e ∈ examined evs → e ∈ edges g).
Proof.
  apply Visit_VisitEdges_ind.
  - intros st u es evs st' _ Hes _ IH e. obs_simpl. simpl. apply IH.
    intros e'. by apply (out_edge_sequence_edges u).
  - intros st _ e He. by apply not_elem_of_nil in He.
  - intros st e' es evs1 st1 evs2 st2 _ _ IH1 _ IH2 Hes e. obs_simpl.
    rewrite elem_of_cons, elem_of_app.
    intros [->|[He|He]]; [apply Hes; by left | by apply IH1 |].
    apply IH2; [|done]. intros e0 He0. apply Hes. by right.
  - intros st e' es evs2 st2 _ _ IH Hes e. obs_simpl. rewrite elem_of_cons.
    intros [->|He]; [apply Hes; by left|].
    apply IH; [|done]. intros e0 He0. apply Hes. by right.
  - intros st e' es evs2 st2 _ _ IH Hes e. obs_simpl. rewrite elem_of_cons.
    intros [->|He]; [apply Hes; by left|].
    apply IH; [|done]. intros e0 He0. apply Hes. by right.
Qed.

Lemma VisitRoots_examined_edges st vs evs st' :
  VisitRoots g st vs evs st' → ∀ e, e ∈ examined evs → e ∈ edges g.
Proof.
  induction 1 as [st|st v vs evs1 st1 evs2 st2 _ HV _ IH|st v vs cv evs st2 _ _ _ IH];
    intros e; [| |by apply IH].
  - intros He. by apply not_elem_of_nil in He.
  - obs_simpl. rewrite elem_of_app.
    intros [He|He]; [by eapply (proj1 Visit_examined_edges) | by apply IH].
Qed.

(** Among descriptors of this graph, [==] is equality. *)
Lemma count_edge_structural e (es : list EdgeDescriptor) :
  e ∈ edges g → (∀ e', e' ∈ es → e' ∈ edges g) →
  count_edge e es = length (filter (e =.) es).
Proof.
  intros [_ He]%elem_of_edges Hes. unfold count_edge. f_equal.
  apply filter_ext_in. intros e' [_ He']%Hes%elem_of_edges.
  unfold edge_eq, EdgeDescriptor_eqb. rewrite bool_decide_eq_true.
  split; [|by intros ->]. intros Hidx. rewrite He, He'. by rewrite Hidx.
Qed.

Lemma DfsProtocol_vertices evs v :
  DfsProtocol g evs → v < numVertices g →
  occurrences (EvDiscoverVertex v) evs = 1 ∧ occurrences (EvFinishVertex v) evs = 1.
Proof.
  intros (body & st' & -> & HR) Hv.
  rewrite !occurrences_app, !occurrences_init by done.
  destruct (VisitRoots_counted g _ _ _ _ HR v) as [Hd Hf].
  destruct (VisitRoots_done g _ _ _ _ HR) as [_ Hblack].
  { intros w [? _]%lookup_replicate. done. }
  specialize (Hblack _ (elem_of_vertices v Hv)). simpl in Hblack.
  rewrite Hblack in Hd, Hf.
  rewrite (proj2 (lookup_replicate _ _ _ _) (conj eq_refl Hv)) in Hd, Hf.
  simpl in *. lia.
Qed.

Lemma DfsProtocol_edges evs e :
  DfsProtocol g evs → out_edges_once g → e ∈ edges g →
  count_edge e (examined evs) = 1 ∧ occurrences (EvExamineEdge e) evs = 1.
Proof.
  intros Hp Honce He. pose proof Hp as (body & st' & -> & HR).
  destruct (Honce e He) as [(es & Hes & Hone) Hother].
  assert (count_edge e (examined ((EvInitVertex <$> vertices g) ++ body)) = 1) as Hcount.
  { obs_simpl. rewrite (proj2 (proj2 (init_events_silent _))). simpl.
    rewrite (VisitRoots_examined g e _ _ _ _ HR).
    rewrite (sum_list_with_single _ (src e)).
    - unfold out_of. rewrite Hes, Hone, <- occurrences_discovered.
      destruct (DfsProtocol_vertices _ (src e) Hp (out_edge_sequence_lt _ _ _ Hes)) as [Hd _].
      rewrite occurrences_app, occurrences_init in Hd by done. simpl in Hd. lia.
    - intros v Hv. unfold out_of. destruct (out_edge_sequence v g) as [es'| |] eqn:E; [|done|done].
      by eapply Hother. }
  split; [done|].
  rewrite occurrences_examined, <- count_edge_structural; [done|done|].
  intros e'. obs_simpl. rewrite (proj2 (proj2 (init_events_silent _))). simpl.
  by eapply VisitRoots_examined_edges.
Qed.
End WholeRun.

(** ** Finish order in a graph without cycles *)

Lemma precedes_app_r {A} (y x : A) fin l :
  precedes y x fin → precedes y x (fin ++ l).
Proof.
  intros (l1 & l2 & -> & Hy). exists l1, (l2 ++ l). split; [|done].
  by rewrite <- app_assoc.
Qed.

Lemma precedes_before {A} (y x : A) fin :
  precedes y x fin → before x y (reverse fin).
Proof.
  intros (l1 & l2 & -> & (a & b & ->)%list_elem_of_split).
  exists (reverse l2), (reverse b), (reverse a).
  rewrite reverse_app, reverse_cons, reverse_app, reverse_cons.
  rewrite <- !app_assoc. done.
Qed.

Section FinishOrder.
Context {c : DirectedCategory} {VP EP : Type} (g : AdjacencyList c VP EP).
Context (Hcons : adjacency_consistent g) (Hacyclic : acyclic g).

Lemma out_edge_sequence_src u es e : out_edge_sequence u g = Ok es → e ∈ es → src e = u.
Proof.
  destruct Hcons as (_ & _ & Hrefs & _).
  unfold out_edge_sequence, getIndex. intros (sv & Hsv%index_Ok & Hes%traverse_Ok_inv)%bind_Ok He.
  apply list_elem_of_lookup in He as [i Hi].
  destruct (Forall2_lookup_r _ _ _ _ _ Hes Hi) as (oe & Hoe & [Hlt ->]%dereference_Ok).
  destruct (Hrefs u sv oe Hsv) as (se & Hse & <-); [by eapply list_elem_of_lookup_2|].
  by apply src_edge_at.
Qed.

Lemma edge_out_edge_sequence u y es :
  out_edge_sequence u g = Ok es → edge g u y → ∃ e, e ∈ es ∧ tar e = y.
Proof.
  destruct Hcons as (Honce & _).
  intros Hes (e & He & <- & <-). destruct (Honce e He) as [(es' & Hes' & Hone) _].
  rewrite Hes in Hes'. simplify_eq.
  rewrite (count_edge_structural g e es') in Hone;
    [|done|intros e'; by apply (out_edge_sequence_edges g (src e))].
  destruct (filter (e =.) es') as [|e' l] eqn:E; [done|].
  assert (e' ∈ filter (e =.) es') as [<- He']%list_elem_of_filter by (rewrite E; by left).
  eauto.
Qed.

Lemma finish_invariant_grey st u fin :
  st !! u = Some White →
  finish_invariant g st fin → finish_invariant g (<[u:=Grey]> st) fin.
Proof.
  intros Hu (Hnd & Hmem & Hord). split; [done|]. split; [|done].
  intros v. rewrite Hmem. destruct (decide (u = v)) as [<-|Hne].
  - rewrite list_lookup_insert_eq by (by eapply lookup_lt_Some). rewrite Hu. done.
  - by rewrite list_lookup_insert_ne.
Qed.

Lemma finish_invariant_black st u es fin :
  u < length st →
  st !! u = Some Grey →
  out_edge_sequence u g = Ok es →
  (∀ e, e ∈ es → st !! tar e = Some Black) →
  finish_invariant g st fin → finish_invariant g (<[u:=Black]> st) (fin ++ [u]).
Proof.
  intros Hlt Hu Hes Hblack (Hnd & Hmem & Hord).
  assert (u ∉ fin) as Hnot by (rewrite Hmem, Hu; done).
  split; [|split].
  - apply NoDup_app. split; [done|]. split; [|apply NoDup_singleton].
    intros x Hx ->%list_elem_of_singleton. done.
  - intros v. rewrite elem_of_app, list_elem_of_singleton, Hmem.
    destruct (decide (u = v)) as [<-|Hne].
    + rewrite list_lookup_insert_eq by done. tauto.
    + rewrite list_lookup_insert_ne by done. split; [intros [?|?]; [done|congruence] | tauto].
  - intros x y [Hx| ->%list_elem_of_singleton]%elem_of_app Hxy.
    + by apply precedes_app_r, Hord.
    + destruct (edge_out_edge_sequence _ _ _ Hes Hxy) as (e & He & <-).
      exists fin, []. split; [done|]. apply Hmem. by apply Hblack.
Qed.

Lemma Visit_finish_order :
  (∀ st u evs st', Visit g st u evs st' →
     ∀ fin, finish_invariant g st fin →
            (∀ x, st !! x = Some Grey → rtc (edge g) x u) →
            finish_invariant g st' (fin ++ finished evs)) ∧
  (∀ st es evs st', VisitEdges g st es evs st' →
     ∀ fin u, finish_invariant g st fin →
              st !! u = Some Grey →
              (∀ e, e ∈ es → e ∈ edges g ∧ src e = u) →
              (∀ x, st !! x = Some Grey → rtc (edge g) x u) →
              finish_invariant g st' (fin ++ finished evs) ∧
              (∀ e, e ∈ es → st' !! tar e = Some Black)).
Proof.
  apply Visit_VisitEdges_ind.
  - intros st u es evs st' Hu Hes HV IH fin HJ Hgrey.
    pose proof (lookup_lt_Some _ _ _ Hu) as Hlt.
    destruct (proj2 (Visit_colours g) _ _ _ _ HV) as (Hl & Hf & _).
    rewrite length_insert in Hl.
    destruct (IH fin u) as [HJ' Hblack].
    + by apply finish_invariant_grey.
    + by apply list_lookup_insert_eq.
    + intros e He. split; [by eapply out_edge_sequence_edges | by eapply out_edge_sequence_src].
    + intros x. destruct (decide (u = x)) as [<-|Hne]; [done|].
      rewrite list_lookup_insert_ne by done. apply Hgrey.
    + obs_simpl. simpl. rewrite app_assoc.
      apply (finish_invariant_black _ _ es); [lia| |done|done|done].
      rewrite Hf; rewrite list_lookup_insert_eq by done; done.
  - intros st fin u HJ _ _ _. obs_simpl. split; [done|].
    intros e He. by apply not_elem_of_nil in He.
  - intros st e es evs1 st1 evs2 st2 Hw HV1 IH1 HV2 IH2 fin u HJ Hu Hes Hgrey.
    destruct (proj1 (Visit_colours g) _ _ _ _ HV1) as (_ & Hf1 & Hm1).
    destruct (proj2 (Visit_colours g) _ _ _ _ HV2) as (_ & Hf2 & _).
    destruct (Hes e) as [He Hsrc]; [by left|].
    destruct (IH2 (fin ++ finished evs1) u) as [HJ2 Hblack].
    + apply IH1; [done|]. intros x Hx. eapply rtc_r; [by apply Hgrey|].
      exists e. done.
    + rewrite Hf1; [done | by rewrite Hu].
    + intros e' He'. apply Hes. by right.
    + intros x Hx. apply Hgrey.
      destruct (decide (st !! x = Some White)) as [HW|HW].
      * destruct (Hm1 x HW); congruence.
      * by rewrite <- (Hf1 x HW).
    + obs_simpl. rewrite app_assoc. split; [done|].
      intros e' [->|He']%elem_of_cons; [|by apply Hblack].
      pose proof (Visit_black g _ _ _ _ HV1) as Hb.
      rewrite Hf2; [done | by rewrite Hb].
  - intros st e es evs2 st2 Hg _ _ fin u _ _ Hes Hgrey. exfalso.
    destruct (Hes e) as [He Hsrc]; [by left|].
    apply (Hacyclic u). eapply tc_rtc_r; [|by apply Hgrey].
    apply tc_once. exists e. done.
  - intros st e es evs2 st2 Hb HV2 IH2 fin u HJ Hu Hes Hgrey.
    destruct (proj2 (Visit_colours g) _ _ _ _ HV2) as (_ & Hf2 & _).
    destruct (IH2 fin u) as [HJ2 Hblack]; [done|done| |done|].
    + intros e' He'. apply Hes. by right.
    + obs_simpl. split; [done|].
      intros e' [->|He']%elem_of_cons; [|by apply Hblack].
      rewrite Hf2; [done | by rewrite Hb].
Qed.

Lemma VisitRoots_finish_order st vs evs st' :
  VisitRoots g st vs evs st' →
  ∀ fin, finish_invariant g st fin → (∀ x, st !! x ≠ Some Grey) →
         finish_invariant g st' (fin ++ finished evs).
Proof.
  induction 1 as [st|st v vs evs1 st1 evs2 st2 Hv HV HR IH|st v vs cv evs st2 _ _ _ IH];
    intros fin HJ Hgrey.
  - obs_simpl. done.
  - obs_simpl. rewrite app_assoc. apply IH.
    + apply (proj1 Visit_finish_order _ _ _ _ HV); [done|].
      intros x Hx. by apply Hgrey in Hx.
    + destruct (proj1 (Visit_colours g) _ _ _ _ HV) as (_ & Hf & Hm).
      intros w Hw. destruct (decide (st !! w = Some White)) as [HW|HW].
      * destruct (Hm w HW); congruence.
      * rewrite (Hf w HW) in Hw. by apply (Hgrey w).
  - by apply IH.
Qed.

(** The reverse of the finish order of a whole run is a topological order. *)
Lemma DfsProtocol_topological evs :
  DfsProtocol g evs → topological_order g (reverse (finished evs)).
Proof.
  intros (body & st' & -> & HR). obs_simpl.
  rewrite (proj1 (proj2 (init_events_silent _))). simpl.
  assert (∀ x, replicate (numVertices g) White !! x ≠ Some Grey) as Hgrey.
  { intros x [? _]%lookup_replicate. done. }
  destruct (VisitRoots_finish_order _ _ _ _ HR []) as (Hnd & Hmem & Hord); [|done|].
  { split; [constructor|]. split.
    - intros v. split; [by intros ?%not_elem_of_nil|]. by intros [? _]%lookup_replicate.
    - intros x y Hx. by apply not_elem_of_nil in Hx. }
  simpl in *.
  destruct (VisitRoots_done g _ _ _ _ HR Hgrey) as [_ Hblack].
  destruct (VisitRoots_colours g _ _ _ _ HR) as (Hl & _). rewrite length_replicate in Hl.
  split.
  - rewrite reverse_Permutation. apply NoDup_Permutation; [done|apply NoDup_seq|].
    intros v. rewrite Hmem, elem_of_seq. split.
    + intros Hv%lookup_lt_Some. lia.
    + intros [_ Hv]. apply (Hblack _ (elem_of_vertices g v Hv)).
  - intros u v Huv. apply precedes_before, Hord; [|done].
    apply Hmem. destruct Huv as (e & He & <- & _).
    destruct Hcons as (Honce & _). destruct (Honce e He) as [(es & Hes%out_edge_sequence_lt & _) _].
    apply (Hblack _ (elem_of_vertices g _ Hes)).
Qed.
End FinishOrder.

(** ** The graphs of the driver *)

Lemma targets_valid_Forall {c VP EP} (g : AdjacencyList c VP EP) :
  Forall (λ e, tar e < numVertices g) (edges g) → targets_valid g.
Proof. intros H e He. by apply (proj1 (Forall_forall _ _) H). Qed.

Lemma acyclic_ascending {c VP EP} (g : AdjacencyList c VP EP) :
  Forall (λ e, src e < tar e) (edges g) → acyclic g.
Proof.
  intros H.
  assert (∀ u v, tc (edge g) u v → u < v) as Hlt.
  { induction 1 as [u v (e & He & <- & <-)|u v w (e & He & <- & <-) _ IH].
    - by apply (proj1 (Forall_forall _ _) H).
    - pose proof (proj1 (Forall_forall _ _) H e He) as Hst. simpl in Hst. lia. }
  intros v Hv%Hlt. lia.
Qed.

Lemma graph1_built : built graph1.
Proof.
  pose proof (@built_empty Directed NoProp NoProp) as H.
  do 8 apply (built_addVertex _) in H.
  apply (built_addEdge _ noProp 0 3 _ _) with (2 := eq_refl) in H.
  apply (built_addEdge _ noProp 3 5 _ _) with (2 := eq_refl) in H.
  apply (built_addEdge _ noProp 5 7 _ _) with (2 := eq_refl) in H.
  apply (built_addEdge _ noProp 2 4 _ _) with (2 := eq_refl) in H.
  apply (built_addEdge _ noProp 4 6 _ _) with (2 := eq_refl) in H.
  apply (built_addEdge _ noProp 6 7 _ _) with (2 := eq_refl) in H.
  exact H.
Qed.

Lemma graph1_well_formed : well_formed graph1.
Proof.
  split; [apply storage_invariant_consistent, built_storage_invariant, graph1_built|].
  apply targets_valid_Forall. vm_compute. repeat constructor.
Qed.

Lemma graph1_acyclic : acyclic graph1.
Proof. apply acyclic_ascending. vm_compute. repeat constructor. Qed.

Lemma loop_graph_built : built loop_graph.
Proof.
  pose proof (@built_empty Directed NoProp NoProp) as H.
  do 3 apply (built_addVertex _) in H.
  apply (built_addEdge _ noProp 0 0 _ _) with (2 := eq_refl) in H.
  apply (built_addEdge _ noProp 0 1 _ _) with (2 := eq_refl) in H.
  apply (built_addEdge _ noProp 0 1 _ _) with (2 := eq_refl) in H.
  exact H.
Qed.

Lemma loop_graph_well_formed : well_formed loop_graph.
Proof.
  split; [apply storage_invariant_consistent, built_storage_invariant, loop_graph_built|].
  apply targets_valid_Forall. vm_compute. repeat constructor.
Qed.

Lemma main_graph_built : built main_graph.
Proof.
  pose proof (@built_empty Bidirectional Z Z) as H.
  apply (built_addVertex _) in H.
  apply (built_addVertex_prop 43%Z) in H.
  do 3 apply (built_addVertex _) in H.
  apply (built_addEdge_prop 0 1 123%Z _ _) with (2 := eq_refl) in H.
  apply (built_addEdge_prop 1 0 321%Z _ _) with (2 := eq_refl) in H.
  apply (built_addEdge _ 0%Z 2 0 _ _) with (2 := eq_refl) in H.
  exact H.
Qed.

(** * Further properties of the store *)

(** ** Reads outside the vertex list and the edge list *)

Section Bounds.
Context {c : DirectedCategory} {VP EP : Type}.
Implicit Types g : AdjacencyList c VP EP.

Lemma index_ge {A} (l : list A) i : length l ≤ i → index l i = Fault.
Proof. intros Hi. unfold index. by rewrite lookup_ge_None_2. Qed.

Lemma index_Fault {A} (l : list A) i : index l i = Fault ↔ length l ≤ i.
Proof.
  split; [|apply index_ge]. unfold index. destruct (l !! i) eqn:E; [done|].
  intros _. by apply lookup_ge_None_1.
Qed.

Lemma out_edge_sequence_ge g v : numVertices g ≤ v → out_edge_sequence v g = Fault.
Proof. intros Hv. unfold out_edge_sequence, getIndex. by rewrite index_ge. Qed.

Lemma out_edge_count_ge g v : numVertices g ≤ v → out_edge_count v g = Fault.
Proof. intros Hv. unfold out_edge_count, getIndex. by rewrite index_ge. Qed.

Lemma in_edge_sequence_ge g req v : numVertices g ≤ v → in_edge_sequence req v g = Fault.
Proof. intros Hv. unfold in_edge_sequence, getIndex. by rewrite index_ge. Qed.

Lemma in_edge_count_ge g req v : numVertices g ≤ v → in_edge_count req v g = Fault.
Proof. intros Hv. unfold in_edge_count, getIndex. by rewrite index_ge. Qed.

Lemma vertex_prop_ge g v : numVertices g ≤ v → vertex_prop g v = Fault.
Proof. intros Hv. unfold vertex_prop, getIndex. by rewrite index_ge. Qed.

Lemma traverse_ext {A B} (f f' : A → Res B) l :
  (∀ x, x ∈ l → f x = f' x) → traverse f l = traverse f' l.
Proof.
  induction l as [|x l IH]; intros Hf; [done|]. simpl.
  rewrite (Hf x) by left. destruct (f' x); [|done|done]. simpl.
  rewrite IH; [done|]. intros y Hy. apply Hf. by right.
Qed.
End Bounds.

(** ** A new vertex has no edge *)

Section AddVertex.
Context {c : DirectedCategory} {VP EP : Type}.
Implicit Types g : AdjacencyList c VP EP.

Lemma InEdgeList_get_empty (req : requires_Bidirectional c) :
  InEdgeList_get req (InEdgeList_empty : InEdgeList c) = [].
Proof. unfold requires_Bidirectional in req. by subst c. Qed.

Lemma addVertex_prop_isolated g vp : adds_isolated_vertex g (addVertex_prop vp g).
Proof.
  unfold adds_isolated_vertex, addVertex_prop, out_edge_sequence, out_edge_count, in_edge_sequence, in_edge_count,
    vertex_prop, edge_prop, edges, dereference, getIndex, index, numVertices.
  simpl. rewrite length_app. simpl.
  split; [done|]. split; [lia|]. split; [done|]. split; [done|]. split.
  - intros w Hw. rewrite !lookup_app_l by done. done.
  - rewrite !list_lookup_middle by done. simpl. split; [done|]. split; [done|].
    intros req. by rewrite InEdgeList_get_empty.
Qed.
End AddVertex.

(** X1: [addVertex(g)] and [addVertex(vp, g)] return the old vertex count
    and add one vertex for which no out-edge and no in-edge is stored; the
    edges, the out-edges and in-edges stored for every old vertex, their
    numbers and all payloads stay as they were. *)
Theorem addVertex_adds_isolated_vertex {c : DirectedCategory} {VP EP : Type}
    `{DefaultConstructible VP} (g : AdjacencyList c VP EP) (vp : VP) :
  adds_isolated_vertex g (addVertex g) ∧
  adds_isolated_vertex g (addVertex_prop vp g) ∧
  vertex_prop (addVertex g).2 (addVertex g).1 = Ok default_value.
Proof.
  split; [apply (addVertex_prop_isolated g default_value)|].
  split; [apply addVertex_prop_isolated|].
  unfold vertex_prop, addVertex, getIndex, index, numVertices. simpl.
  by rewrite list_lookup_middle.
Qed.

(** ** The constructor with a vertex count *)

Lemma addVertex_calls_default {c VP EP} `{DefaultConstructible VP} n
    (g : AdjacencyList c VP EP) :
  (addVertex_calls (replicate n None) g).2 =
  mkAdjacencyList
    (vList g ++ replicate n (mkStoredVertex [] InEdgeList_empty default_value))
    (eList g).
Proof.
  revert g. induction n as [|n IH]; intros g; simpl.
  - rewrite app_nil_r. by destruct g.
  - rewrite IH. simpl. by rewrite <- app_assoc.
Qed.

(** X2: [AdjacencyList(n)] is the graph that [n] calls of [addVertex(g)]
    build from the empty graph: [n] vertices with the default payload and no
    edge, so no out-edge and no in-edge is stored for any vertex, and a
    descriptor from [n] on is outside the vertex list. *)
Theorem AdjacencyList_n_is_addVertex_calls {c : DirectedCategory} {VP EP : Type}
    `{DefaultConstructible VP} (n : nat) :
  let g : AdjacencyList c VP EP := AdjacencyList_n n in
  g = (addVertex_calls (replicate n None) AdjacencyList_empty).2 ∧
  numVertices g = n ∧ numEdges g = 0 ∧ edges g = [] ∧
  (∀ v, v < n →
        out_edge_sequence v g = Ok [] ∧ out_edge_count v g = Ok 0 ∧
        vertex_prop g v = Ok default_value ∧
        ∀ req, in_edge_sequence req v g = Ok [] ∧ in_edge_count req v g = Ok 0) ∧
  (∀ v, n ≤ v →
        out_edge_sequence v g = Fault ∧ out_edge_count v g = Fault ∧ vertex_prop g v = Fault).
Proof.
  intros g.
  assert (numVertices g = n) as Hn by (unfold numVertices; simpl; apply length_replicate).
  split; [by rewrite addVertex_calls_default|].
  split; [done|]. split; [done|]. split; [done|]. split.
  - intros v Hv.
    unfold out_edge_sequence, out_edge_count, in_edge_sequence, in_edge_count, vertex_prop, getIndex, index.
    simpl. rewrite lookup_replicate_2 by done. simpl.
    split; [done|]. split; [done|]. split; [done|].
    intros req. by rewrite InEdgeList_get_empty.
  - intros v Hv. rewrite <- Hn in Hv.
    by rewrite out_edge_sequence_ge, out_edge_count_ge, vertex_prop_ge.
Qed.

(** ** What [addEdge] checks, and what it leaves *)

Lemma Res_cases {A} (r : Res A) : (∃ a, r = Ok a) ∨ r = Fault ∨ r = OutOfFuel.
Proof. destruct r; eauto. Qed.

Lemma vertex_prop_fmap {c VP EP} (g : AdjacencyList c VP EP) w :
  vertex_prop g w = index (vProp <$> vList g) w.
Proof.
  unfold vertex_prop, getIndex, index. rewrite list_lookup_fmap.
  by destruct (vList g !! w).
Qed.

Lemma fmap_insert_same {A B} (f : A → B) (l : list A) i x y :
  l !! i = Some x → f y = f x → f <$> <[i:=y]> l = f <$> l.
Proof.
  intros Hx Hf. rewrite list_fmap_insert, Hf. apply list_insert_id.
  by rewrite list_lookup_fmap, Hx.
Qed.

Section AddEdgeFacts.
Context {c : DirectedCategory} {VP EP : Type}.
Implicit Types g : AdjacencyList c VP EP.

Lemma addEdge_prop_fuel v u ep g : addEdge_prop v u ep g ≠ OutOfFuel.
Proof.
  destruct c; simpl;
    unfold addEdge_prop_Directed, addEdge_prop_Bidirectional, push_out, push_in.
  - apply bind_fuel; [|done]. apply bind_fuel; [apply index_fuel | done].
  - apply bind_fuel; [apply bind_fuel; [apply index_fuel | done]|].
    intros vl _. apply bind_fuel; [|done]. apply bind_fuel; [apply index_fuel | done].
Qed.

Lemma addEdge_prop_returns v u ep g :
  v < numVertices g → (c = Bidirectional → u < numVertices g) →
  ∃ r, addEdge_prop v u ep g = Ok r.
Proof.
  intros Hv Hu. destruct c; [|by apply addEdge_prop_total; auto].
  destruct (lookup_lt_is_Some_2 (vList g) v Hv) as [sv Hsv].
  simpl. unfold addEdge_prop_Directed, getIndex, push_out.
  rewrite (proj2 (index_Ok _ _ _) Hsv). simpl. eauto.
Qed.

Lemma addEdge_prop_target v u ep g r :
  addEdge_prop v u ep g = Ok r → c = Bidirectional → u < numVertices g.
Proof.
  intros Hr Hc. subst c. revert Hr. simpl.
  unfold addEdge_prop_Bidirectional, getIndex.
  intros (vl & (sv & Hsv & ->)%push_out_Ok & H)%bind_Ok.
  apply bind_Ok in H as (vl' & (sv' & Hsv'%lookup_lt_Some & ->)%push_in_Ok & _).
  by rewrite length_insert in Hsv'.
Qed.

Lemma addEdge_prop_vProp v u ep g r :
  addEdge_prop v u ep g = Ok r → vProp <$> vList r.2 = vProp <$> vList g.
Proof.
  destruct c; simpl; unfold addEdge_prop_Directed, addEdge_prop_Bidirectional, getIndex.
  - intros (vl & (sv & Hsv & ->)%push_out_Ok & [= <-])%bind_Ok. simpl.
    by apply (fmap_insert_same _ _ _ sv).
  - intros (vl & (sv & Hsv & ->)%push_out_Ok & H)%bind_Ok.
    apply bind_Ok in H as (vl' & (sv' & Hsv' & ->)%push_in_Ok & [= <-]). simpl.
    rewrite (fmap_insert_same _ _ _ sv') by done.
    by apply (fmap_insert_same _ _ _ sv).
Qed.

Lemma addEdge_prop_edges_app v u ep g r :
  addEdge_prop v u ep g = Ok r → edges r.2 = edges g ++ [r.1].
Proof.
  intros (-> & Hel & _)%addEdge_prop_Ok. unfold edges, numEdges. rewrite Hel.
  rewrite imap_app. simpl. by rewrite Nat.add_0_r.
Qed.
End AddEdgeFacts.

(** X3: [addEdge] returns exactly when the source is a vertex and, in a
    Bidirectional graph, the target is one too; in every other case it indexes
    the vertex list out of range.  A Directed graph never looks at the target:
    an edge to a descriptor that is no vertex is stored like any other. *)
Theorem addEdge_checks_source_only {c : DirectedCategory} {VP EP : Type}
    (v u : VertexDescriptor) (ep : EP) (g : AdjacencyList c VP EP) :
  ((∃ r, addEdge_prop v u ep g = Ok r) ↔
   v < numVertices g ∧ (c = Bidirectional → u < numVertices g)) ∧
  (¬ (v < numVertices g ∧ (c = Bidirectional → u < numVertices g)) →
   addEdge_prop v u ep g = Fault) ∧
  (c = Directed → v < numVertices g → numVertices g ≤ u →
   ∃ r, addEdge_prop v u ep g = Ok r ∧ r.1 ∈ edges r.2 ∧ tar r.1 = u ∧
        ¬ targets_valid r.2).
Proof.
  assert ((∃ r, addEdge_prop v u ep g = Ok r) ↔
          v < numVertices g ∧ (c = Bidirectional → u < numVertices g)) as Hiff.
  { split.
    - intros [r Hr]. split; [by apply addEdge_prop_Ok in Hr as (_ & _ & _ & ?)|].
      by eapply addEdge_prop_target.
    - intros [Hv Hu]. by apply addEdge_prop_returns. }
  split; [exact Hiff|]. split.
  - intros Hnot. destruct (Res_cases (addEdge_prop v u ep g)) as [Hr|[Hr|Hr]].
    + by apply Hiff in Hr.
    + done.
    + by apply addEdge_prop_fuel in Hr.
  - intros Hc Hv Hu.
    destruct (addEdge_prop_returns v u ep g Hv) as [r Hr]; [intros ?; congruence|].
    exists r. split; [done|].
    destruct (addEdge_prop_edges _ _ _ _ _ Hr) as (Hin & _ & Ht).
    split; [done|]. split; [done|].
    intros Hvalid. specialize (Hvalid _ Hin).
    apply addEdge_prop_Ok in Hr as (_ & _ & Hlen & _).
    unfold numVertices in *. lia.
Qed.

(** X4: [addEdge(v, u, ...)] puts the new edge at the end of the edge range:
    the descriptor it returns carries [v], [u] and the old edge count, every
    old edge keeps its descriptor and its payload, the vertex count and the
    vertex payloads stay as they were. *)
Theorem addEdge_appends_edge {c : DirectedCategory} {VP EP : Type}
    (v u : VertexDescriptor) (ep : EP) (g : AdjacencyList c VP EP)
    (r : EdgeDescriptor * AdjacencyList c VP EP) :
  addEdge_prop v u ep g = Ok r →
  r.1 = mkEdgeDescriptor v u (numEdges g) ∧
  edges r.2 = edges g ++ [r.1] ∧
  numEdges r.2 = S (numEdges g) ∧
  numVertices r.2 = numVertices g ∧
  (∀ w, vertex_prop r.2 w = vertex_prop g w) ∧
  (∀ e, storedEdgeIdx e < numEdges g → edge_prop r.2 e = edge_prop g e).
Proof.
  intros Hr. pose proof (addEdge_prop_edges_app _ _ _ _ _ Hr) as Happ.
  pose proof (addEdge_prop_vProp _ _ _ _ _ Hr) as Hvp.
  destruct (addEdge_prop_Ok _ _ _ _ _ Hr) as (He & Hel & Hlen & _).
  split; [done|]. split; [done|]. split; [|split; [done|split]].
  - unfold numEdges. rewrite Hel, length_app. simpl. lia.
  - intros w. by rewrite !vertex_prop_fmap, Hvp.
  - intros e Hlt. unfold edge_prop, index. rewrite Hel. by rewrite lookup_app_l.
Qed.

Lemma addEdge_appends_edge_witness :
  let g : AdjacencyList Bidirectional Z Z := AdjacencyList_n 2 in
  ∃ r, addEdge_prop 0 1 123%Z g = Ok r ∧
       r.1 = mkEdgeDescriptor 0 1 (numEdges g) ∧
       edges r.2 = edges g ++ [r.1] ∧
       numEdges r.2 = S (numEdges g) ∧
       numVertices r.2 = numVertices g ∧
       (∀ w, vertex_prop r.2 w = vertex_prop g w) ∧
       (∀ e, storedEdgeIdx e < numEdges g → edge_prop r.2 e = edge_prop g e).
Proof.
  intros g. eexists. split; [reflexivity|].
  apply (addEdge_appends_edge 0 1 123%Z g). reflexivity.
Defined.

(** ** The adjacency sequences grow at the end *)

Section AddEdgeAdjacency.
Context {c : DirectedCategory} {VP EP : Type}.
Implicit Types g : AdjacencyList c VP EP.

Lemma filter_snoc_eq {A} (h : A → nat) (l : list A) (x : A) (w : nat) :
  filter (λ e, h e = w) (l ++ [x]) =
  filter (λ e, h e = w) l ++ (if decide (h x = w) then [x] else []).
Proof.
  rewrite filter_app. by f_equal.
Qed.

Lemma addEdge_prop_out_edge_sequence v u ep g r w :
  storage_invariant g → addEdge_prop v u ep g = Ok r →
  out_edge_sequence w r.2 =
  es ← out_edge_sequence w g; Ok (es ++ (if decide (v = w) then [r.1] else [])).
Proof.
  intros Hinv Hr. pose proof (storage_invariant_addEdge_prop _ _ _ _ _ Hinv Hr) as Hinv'.
  pose proof (addEdge_prop_edges_app _ _ _ _ _ Hr) as Happ.
  destruct (addEdge_prop_Ok _ _ _ _ _ Hr) as (He & _ & Hlen & _).
  destruct (decide (w < numVertices g)) as [Hw|Hw].
  - rewrite (out_edge_sequence_filter g Hinv w Hw). simpl.
    rewrite (out_edge_sequence_filter r.2 Hinv' w) by (unfold numVertices in *; lia).
    rewrite Happ, (filter_snoc_eq src).
    by destruct (addEdge_prop_edges _ _ _ _ _ Hr) as (_ & -> & _).
  - rewrite !out_edge_sequence_ge; [done| lia | unfold numVertices in *; lia].
Qed.

Lemma addEdge_prop_in_edge_sequence v u ep g r req w :
  storage_invariant g → addEdge_prop v u ep g = Ok r →
  in_edge_sequence req w r.2 =
  es ← in_edge_sequence req w g; Ok (es ++ (if decide (u = w) then [r.1] else [])).
Proof.
  intros Hinv Hr. pose proof (storage_invariant_addEdge_prop _ _ _ _ _ Hinv Hr) as Hinv'.
  pose proof (addEdge_prop_edges_app _ _ _ _ _ Hr) as Happ.
  destruct (addEdge_prop_Ok _ _ _ _ _ Hr) as (He & _ & Hlen & _).
  destruct (decide (w < numVertices g)) as [Hw|Hw].
  - rewrite (in_edge_sequence_filter g Hinv req w Hw). simpl.
    rewrite (in_edge_sequence_filter r.2 Hinv' req w) by (unfold numVertices in *; lia).
    rewrite Happ, (filter_snoc_eq tar).
    by destruct (addEdge_prop_edges _ _ _ _ _ Hr) as (_ & _ & ->).
  - rewrite !in_edge_sequence_ge; [done| lia | unfold numVertices in *; lia].
Qed.

Lemma addEdge_prop_out_edge_count v u ep g r w :
  storage_invariant g → addEdge_prop v u ep g = Ok r →
  out_edge_count w r.2 = d ← out_edge_count w g; Ok (d + (if decide (v = w) then 1 else 0)).
Proof.
  intros Hinv Hr. pose proof (storage_invariant_addEdge_prop _ _ _ _ _ Hinv Hr) as Hinv'.
  pose proof (addEdge_prop_edges_app _ _ _ _ _ Hr) as Happ.
  destruct (addEdge_prop_Ok _ _ _ _ _ Hr) as (He & _ & Hlen & _).
  destruct (decide (w < numVertices g)) as [Hw|Hw].
  - rewrite (out_edge_count_filter g Hinv w Hw). simpl.
    rewrite (out_edge_count_filter r.2 Hinv' w) by (unfold numVertices in *; lia).
    rewrite Happ, (filter_snoc_eq src), length_app.
    destruct (addEdge_prop_edges _ _ _ _ _ Hr) as (_ & -> & _).
    by destruct (decide (v = w)).
  - rewrite !out_edge_count_ge; [done| lia | unfold numVertices in *; lia].
Qed.

Lemma addEdge_prop_in_edge_count v u ep g r req w :
  storage_invariant g → addEdge_prop v u ep g = Ok r →
  in_edge_count req w r.2 = d ← in_edge_count req w g; Ok (d + (if decide (u = w) then 1 else 0)).
Proof.
  intros Hinv Hr. pose proof (storage_invariant_addEdge_prop _ _ _ _ _ Hinv Hr) as Hinv'.
  pose proof (addEdge_prop_edges_app _ _ _ _ _ Hr) as Happ.
  destruct (addEdge_prop_Ok _ _ _ _ _ Hr) as (He & _ & Hlen & _).
  destruct (decide (w < numVertices g)) as [Hw|Hw].
  - rewrite (in_edge_count_filter g req w Hinv Hw). simpl.
    rewrite (in_edge_count_filter r.2 req w Hinv') by (unfold numVertices in *; lia).
    rewrite Happ, (filter_snoc_eq tar), length_app.
    destruct (addEdge_prop_edges _ _ _ _ _ Hr) as (_ & _ & ->).
    by destruct (decide (u = w)).
  - rewrite !in_edge_count_ge; [done| lia | unfold numVertices in *; lia].
Qed.
End AddEdgeAdjacency.

(** X5: on a graph built by the operations of the library, [addEdge(v, u, ...)]
    appends the new edge to the out-edges stored for [v] and, in a
    Bidirectional graph, to the in-edges stored for [u]: the stored sequences
    list the edges in the order of their creation; the numbers of references
    stored for [v] and [u] grow by one, and what is stored for every other
    vertex stays as it was. *)
Theorem addEdge_extends_adjacency {c : DirectedCategory} {VP EP : Type}
    (v u : VertexDescriptor) (ep : EP) (g : AdjacencyList c VP EP)
    (r : EdgeDescriptor * AdjacencyList c VP EP) :
  built g → addEdge_prop v u ep g = Ok r →
  (∃ es, out_edge_sequence v g = Ok es ∧ out_edge_sequence v r.2 = Ok (es ++ [r.1]) ∧
         out_edge_count v g = Ok (length es) ∧ out_edge_count v r.2 = Ok (S (length es))) ∧
  (∀ w, w ≠ v → out_edge_sequence w r.2 = out_edge_sequence w g ∧ out_edge_count w r.2 = out_edge_count w g) ∧
  (∀ req,
     (∃ es, in_edge_sequence req u g = Ok es ∧ in_edge_sequence req u r.2 = Ok (es ++ [r.1]) ∧
            in_edge_count req u g = Ok (length es) ∧
            in_edge_count req u r.2 = Ok (S (length es))) ∧
     (∀ w, w ≠ u → in_edge_sequence req w r.2 = in_edge_sequence req w g ∧
                   in_edge_count req w r.2 = in_edge_count req w g)).
Proof.
  intros Hinv%built_storage_invariant Hr.
  destruct (addEdge_prop_Ok _ _ _ _ _ Hr) as (_ & _ & _ & Hv).
  split; [|split].
  - exists (filter (λ e, src e = v) (edges g)).
    rewrite (addEdge_prop_out_edge_sequence _ _ _ _ _ v Hinv Hr).
    rewrite (addEdge_prop_out_edge_count _ _ _ _ _ v Hinv Hr).
    rewrite (out_edge_sequence_filter g Hinv v Hv), (out_edge_count_filter g Hinv v Hv). simpl.
    rewrite !decide_True by done. rewrite Nat.add_1_r. done.
  - intros w Hw.
    rewrite (addEdge_prop_out_edge_sequence _ _ _ _ _ w Hinv Hr).
    rewrite (addEdge_prop_out_edge_count _ _ _ _ _ w Hinv Hr).
    rewrite !decide_False by done.
    destruct (out_edge_sequence w g), (out_edge_count w g); simpl; rewrite ?app_nil_r, ?Nat.add_0_r; done.
  - intros req.
    pose proof (addEdge_prop_target _ _ _ _ _ Hr req) as Hu. split.
    + exists (filter (λ e, tar e = u) (edges g)).
      rewrite (addEdge_prop_in_edge_sequence _ _ _ _ _ req u Hinv Hr).
      rewrite (addEdge_prop_in_edge_count _ _ _ _ _ req u Hinv Hr).
      rewrite (in_edge_sequence_filter g Hinv req u Hu), (in_edge_count_filter g req u Hinv Hu). simpl.
      rewrite !decide_True by done. rewrite Nat.add_1_r. done.
    + intros w Hw.
      rewrite (addEdge_prop_in_edge_sequence _ _ _ _ _ req w Hinv Hr).
      rewrite (addEdge_prop_in_edge_count _ _ _ _ _ req w Hinv Hr).
      rewrite !decide_False by done.
      destruct (in_edge_sequence req w g), (in_edge_count req w g); simpl;
        rewrite ?app_nil_r, ?Nat.add_0_r; done.
Qed.

Lemma addEdge_extends_adjacency_witness :
  built main_graph ∧
  ∃ r, addEdge_prop 3 0 7%Z main_graph = Ok r ∧
    (∃ es, out_edge_sequence 3 main_graph = Ok es ∧ out_edge_sequence 3 r.2 = Ok (es ++ [r.1]) ∧
           out_edge_count 3 main_graph = Ok (length es) ∧
           out_edge_count 3 r.2 = Ok (S (length es))) ∧
    (∀ w, w ≠ 3 → out_edge_sequence w r.2 = out_edge_sequence w main_graph ∧
                  out_edge_count w r.2 = out_edge_count w main_graph) ∧
    (∀ req,
       (∃ es, in_edge_sequence req 0 main_graph = Ok es ∧ in_edge_sequence req 0 r.2 = Ok (es ++ [r.1]) ∧
              in_edge_count req 0 main_graph = Ok (length es) ∧
              in_edge_count req 0 r.2 = Ok (S (length es))) ∧
       (∀ w, w ≠ 0 → in_edge_sequence req w r.2 = in_edge_sequence req w main_graph ∧
                     in_edge_count req w r.2 = in_edge_count req w main_graph)).
Proof.
  split; [apply main_graph_built|].
  eexists. split; [reflexivity|].
  apply (addEdge_extends_adjacency 3 0 7%Z main_graph); [apply main_graph_built|reflexivity].
Defined.

(** ** Writing a payload through [operator[]] *)

Section Observations.
Context {c : DirectedCategory} {VP EP : Type}.
Implicit Types g : AdjacencyList c VP EP.

Lemma edge_eq_idx (a b : EdgeDescriptor) :
  edge_eq a b ↔ storedEdgeIdx a = storedEdgeIdx b.
Proof. unfold edge_eq, EdgeDescriptor_eqb. apply bool_decide_eq_true. Qed.

Lemma dereference_fmap g idx :
  dereference g idx =
  p ← index ((λ se, (se_src se, se_tar se)) <$> eList g) idx;
  Ok (mkEdgeDescriptor p.1 p.2 idx).
Proof.
  unfold dereference, index. rewrite list_lookup_fmap. by destruct (eList g !! idx).
Qed.

Lemma edges_fmap g :
  edges g = imap (λ i p, mkEdgeDescriptor p.1 p.2 i)
              ((λ se, (se_src se, se_tar se)) <$> eList g).
Proof. unfold edges. by rewrite imap_fmap. Qed.

Lemma out_edge_sequence_fmap g w :
  out_edge_sequence w g =
  oes ← index (eOut <$> vList g) w;
  traverse (λ oe, dereference g (oe_storedEdgeIdx oe)) oes.
Proof.
  unfold out_edge_sequence, getIndex, index. rewrite list_lookup_fmap.
  by destruct (vList g !! w).
Qed.

Lemma out_edge_count_fmap g w :
  out_edge_count w g = oes ← index (eOut <$> vList g) w; Ok (length oes).
Proof.
  unfold out_edge_count, getIndex, index. rewrite list_lookup_fmap.
  by destruct (vList g !! w).
Qed.

Lemma in_edge_sequence_fmap g req w :
  in_edge_sequence req w g =
  ies ← index (eIn <$> vList g) w;
  traverse (λ ie, dereference g (ie_storedEdgeIdx ie)) (InEdgeList_get req ies).
Proof.
  unfold in_edge_sequence, getIndex, index. rewrite list_lookup_fmap.
  by destruct (vList g !! w).
Qed.

Lemma in_edge_count_fmap g req w :
  in_edge_count req w g =
  ies ← index (eIn <$> vList g) w; Ok (length (InEdgeList_get req ies)).
Proof.
  unfold in_edge_count, getIndex, index. rewrite list_lookup_fmap.
  by destruct (vList g !! w).
Qed.

(** Two stores with the same references and the same end points give the
    same edge range, adjacency sequences and degrees. *)
Lemma same_references g g' :
  eOut <$> vList g' = eOut <$> vList g →
  eIn <$> vList g' = eIn <$> vList g →
  (λ se, (se_src se, se_tar se)) <$> eList g' =
    (λ se, (se_src se, se_tar se)) <$> eList g →
  edges g' = edges g ∧
  (∀ w, out_edge_sequence w g' = out_edge_sequence w g ∧ out_edge_count w g' = out_edge_count w g) ∧
  (∀ req w, in_edge_sequence req w g' = in_edge_sequence req w g ∧ in_edge_count req w g' = in_edge_count req w g).
Proof.
  intros Hout Hin Hends.
  assert (∀ idx, dereference g' idx = dereference g idx) as Hd.
  { intros idx. by rewrite !dereference_fmap, Hends. }
  split; [by rewrite !edges_fmap, Hends|]. split.
  - intros w. rewrite !out_edge_sequence_fmap, !out_edge_count_fmap, Hout. split; [|done].
    destruct (index (eOut <$> vList g) w); [|done|done]. simpl.
    apply traverse_ext. intros oe _. apply Hd.
  - intros req w. rewrite !in_edge_sequence_fmap, !in_edge_count_fmap, Hin. split; [|done].
    destruct (index (eIn <$> vList g) w); [|done|done]. simpl.
    apply traverse_ext. intros ie _. apply Hd.
Qed.

Lemma vertex_prop_write_Ok g v x g' :
  vertex_prop_write g v x = Ok g' ↔
  ∃ sv, vList g !! v = Some sv ∧
        g' = mkAdjacencyList (<[v := mkStoredVertex (eOut sv) (eIn sv) x]> (vList g))
                             (eList g).
Proof.
  unfold vertex_prop_write, getIndex. rewrite bind_Ok. split.
  - intros (sv & Hsv%index_Ok & [= <-]). eauto.
  - intros (sv & Hsv & ->). exists sv. by rewrite (proj2 (index_Ok _ _ _) Hsv).
Qed.

Lemma edge_prop_write_Ok g e x g' :
  edge_prop_write g e x = Ok g' ↔
  ∃ se, eList g !! storedEdgeIdx e = Some se ∧
        g' = mkAdjacencyList (vList g)
               (<[storedEdgeIdx e := mkStoredEdge x (se_src se) (se_tar se)]> (eList g)).
Proof.
  unfold edge_prop_write. rewrite bind_Ok. split.
  - intros (se & Hse%index_Ok & [= <-]). eauto.
  - intros (se & Hse & ->). exists se. by rewrite (proj2 (index_Ok _ _ _) Hse).
Qed.
End Observations.

(** X6: [g[v] = x] on a vertex descriptor writes the payload of that vertex
    and nothing else: [g[v]] then reads [x], every other vertex payload, every
    edge payload, the edge range, the out-edges and in-edges stored for every
    vertex and their numbers are as before, and so is what [outEdges],
    [outDegree], [inEdges] and [inDegree] give, whatever the lifetime of a
    parameter.  The access is inside the vertex list exactly when [v] is
    below the vertex count. *)
Theorem vertex_prop_write_read {c : DirectedCategory} {VP EP : Type}
    (g : AdjacencyList c VP EP) (v : VertexDescriptor) (x : VP) :
  ((∃ g', vertex_prop_write g v x = Ok g') ↔ v < numVertices g) ∧
  (numVertices g ≤ v → vertex_prop_write g v x = Fault ∧ vertex_prop g v = Fault) ∧
  (∀ g', vertex_prop_write g v x = Ok g' →
     vertex_prop g' v = Ok x ∧
     (∀ w, w ≠ v → vertex_prop g' w = vertex_prop g w) ∧
     numVertices g' = numVertices g ∧ edges g' = edges g ∧
     (∀ e, edge_prop g' e = edge_prop g e) ∧
     (∀ w, out_edge_sequence w g' = out_edge_sequence w g ∧ out_edge_count w g' = out_edge_count w g) ∧
     (∀ req w, in_edge_sequence req w g' = in_edge_sequence req w g ∧
               in_edge_count req w g' = in_edge_count req w g) ∧
     (∀ pl w, OutEdgeRange_edges (outEdges pl w g') = OutEdgeRange_edges (outEdges pl w g) ∧
              outDegree pl w g' = outDegree pl w g) ∧
     (∀ pl req w, InEdgeRange_edges (inEdges pl req w g') =
                    InEdgeRange_edges (inEdges pl req w g) ∧
                  inDegree pl req w g' = inDegree pl req w g)).
Proof.
  split; [|split].
  - split.
    + intros [g' (sv & Hsv%lookup_lt_Some & _)%vertex_prop_write_Ok]. done.
    + intros Hv. destruct (lookup_lt_is_Some_2 (vList g) v Hv) as [sv Hsv].
      eexists. apply vertex_prop_write_Ok. eauto.
  - intros Hv. split; [|by apply vertex_prop_ge].
    unfold vertex_prop_write, getIndex. by rewrite index_ge.
  - intros g' (sv & Hsv & ->)%vertex_prop_write_Ok.
    pose proof (lookup_lt_Some _ _ _ Hsv) as Hv.
    destruct (same_references g
                (mkAdjacencyList (<[v := mkStoredVertex (eOut sv) (eIn sv) x]> (vList g))
                                 (eList g))) as (Hedges & Hout & Hin); simpl.
    { by apply (fmap_insert_same _ _ _ sv). }
    { by apply (fmap_insert_same _ _ _ sv). }
    { done. }
    destruct (accessors_same g
                (mkAdjacencyList (<[v := mkStoredVertex (eOut sv) (eIn sv) x]> (vList g))
                                 (eList g))) as [Hacc_out Hacc_in].
    { intros w. apply Hout. }
    { intros req w. apply Hin. }
    split; [|split; [|split; [|split; [done|split; [done|split; [done|split; [done|]]]]]]];
      [| | |by split].
    + unfold vertex_prop, getIndex, index. simpl.
      by rewrite list_lookup_insert_eq.
    + intros w Hw. unfold vertex_prop, getIndex, index. simpl.
      by rewrite list_lookup_insert_ne.
    + unfold numVertices. simpl. by rewrite length_insert.
Qed.

(** X7: [g[e]] looks at the stored index of [e] only, so descriptors that
    [operator==] equates read and write the same payload.  [g[e] = x] writes
    the payload of that edge and nothing else: the end points of every edge,
    the edge range, the out-edges and in-edges stored for every vertex, their
    numbers and all other payloads are as before, and so is what [outEdges],
    [outDegree], [inEdges] and [inDegree] give, whatever the lifetime of a
    parameter.  The access is inside the edge list exactly when the stored
    index is below the edge count. *)
Theorem edge_prop_write_read {c : DirectedCategory} {VP EP : Type}
    (g : AdjacencyList c VP EP) (e : EdgeDescriptor) (x : EP) :
  ((∃ g', edge_prop_write g e x = Ok g') ↔ storedEdgeIdx e < numEdges g) ∧
  (numEdges g ≤ storedEdgeIdx e → edge_prop_write g e x = Fault ∧ edge_prop g e = Fault) ∧
  (∀ e', edge_eq e e' → edge_prop g e' = edge_prop g e) ∧
  (∀ g', edge_prop_write g e x = Ok g' →
     (∀ e', edge_eq e e' → edge_prop g' e' = Ok x) ∧
     (∀ e', ¬ edge_eq e e' → edge_prop g' e' = edge_prop g e') ∧
     numEdges g' = numEdges g ∧ edges g' = edges g ∧
     (∀ w, vertex_prop g' w = vertex_prop g w) ∧
     (∀ w, out_edge_sequence w g' = out_edge_sequence w g ∧ out_edge_count w g' = out_edge_count w g) ∧
     (∀ req w, in_edge_sequence req w g' = in_edge_sequence req w g ∧
               in_edge_count req w g' = in_edge_count req w g) ∧
     (∀ pl w, OutEdgeRange_edges (outEdges pl w g') = OutEdgeRange_edges (outEdges pl w g) ∧
              outDegree pl w g' = outDegree pl w g) ∧
     (∀ pl req w, InEdgeRange_edges (inEdges pl req w g') =
                    InEdgeRange_edges (inEdges pl req w g) ∧
                  inDegree pl req w g' = inDegree pl req w g)).
Proof.
  split; [|split; [|split]].
  - split.
    + intros [g' (se & Hse%lookup_lt_Some & _)%edge_prop_write_Ok]. done.
    + intros He. destruct (lookup_lt_is_Some_2 (eList g) _ He) as [se Hse].
      eexists. apply edge_prop_write_Ok. eauto.
  - intros He. unfold edge_prop_write, edge_prop. by rewrite !index_ge.
  - intros e' Heq%edge_eq_idx. unfold edge_prop. by rewrite Heq.
  - intros g' (se & Hse & ->)%edge_prop_write_Ok.
    pose proof (lookup_lt_Some _ _ _ Hse) as Hlt.
    destruct (same_references g
                (mkAdjacencyList (vList g)
                   (<[storedEdgeIdx e := mkStoredEdge x (se_src se) (se_tar se)]> (eList g))))
      as (Hedges & Hout & Hin); simpl.
    { done. }
    { done. }
    { by apply (fmap_insert_same _ _ _ se). }
    destruct (accessors_same g
                (mkAdjacencyList (vList g)
                   (<[storedEdgeIdx e := mkStoredEdge x (se_src se) (se_tar se)]> (eList g))))
      as [Hacc_out Hacc_in].
    { intros w. apply Hout. }
    { intros req w. apply Hin. }
    split; [|split; [|split; [|split; [done|split; [done|split; [done|split; [done|]]]]]]];
      [| | |by split].
    + intros e' Heq%edge_eq_idx. unfold edge_prop, index. simpl.
      rewrite <- Heq. by rewrite list_lookup_insert_eq.
    + intros e' Hne. unfold edge_prop, index. simpl.
      rewrite list_lookup_insert_ne; [done|]. intros Heq. by apply Hne, edge_eq_idx.
    + unfold numEdges. simpl. by rewrite length_insert.
Qed.

(** ** Equality of edge descriptors *)

Lemma edges_lookup {c VP EP} (g : AdjacencyList c VP EP) i e :
  edges g !! i = Some e → storedEdgeIdx e = i.
Proof.
  unfold edges. rewrite list_lookup_imap.
  destruct (eList g !! i); simpl; [|done]. by intros [= <-].
Qed.

Lemma edge_eq_edges {c VP EP} (g : AdjacencyList c VP EP) a b :
  a ∈ edges g → b ∈ edges g → edge_eq a b → a = b.
Proof.
  intros [_ Ha]%elem_of_edges [_ Hb]%elem_of_edges Heq%edge_eq_idx.
  rewrite Ha, Hb. by rewrite Heq.
Qed.

(** X8: [operator==] on edge descriptors compares the stored index only.  It
    is an equivalence; among the descriptors of one graph it holds of a
    descriptor and itself only, so parallel edges are told apart and the edge
    range lists every edge once, at the position of its stored index; so it
    is among the out-edges stored for a vertex, and among what a read of
    [outEdges] returns; but two descriptors with different end points compare
    equal when their stored indices agree. *)
Theorem EdgeDescriptor_eq_stored_index {c : DirectedCategory} {VP EP : Type}
    (g : AdjacencyList c VP EP) :
  (∀ a b, EdgeDescriptor_eqb a b = true ↔ storedEdgeIdx a = storedEdgeIdx b) ∧
  Equivalence edge_eq ∧
  (∀ a b, a ∈ edges g → b ∈ edges g → (edge_eq a b ↔ a = b)) ∧
  NoDup (edges g) ∧ length (edges g) = numEdges g ∧
  (∀ i e, edges g !! i = Some e → storedEdgeIdx e = i) ∧
  (∀ v es a b, out_edge_sequence v g = Ok es → a ∈ es → b ∈ es → edge_eq a b → a = b) ∧
  (∀ pl v es a b, OutEdgeRange_edges (outEdges pl v g) = Ok es →
                  a ∈ es → b ∈ es → edge_eq a b → a = b) ∧
  (∃ a b, edge_eq a b ∧ a ≠ b).
Proof.
  split; [apply edge_eq_idx|].
  split; [|split; [|split; [|split; [|split; [|split; [|split]]]]]].
  - split.
    + intros a. by apply edge_eq_idx.
    + intros a b ?%edge_eq_idx. by apply edge_eq_idx.
    + intros a b d ?%edge_eq_idx ?%edge_eq_idx. apply edge_eq_idx. congruence.
  - intros a b Ha Hb. split; [by apply (edge_eq_edges g)|]. intros ->. by apply edge_eq_idx.
  - apply NoDup_alt. intros i j e Hi Hj.
    apply edges_lookup in Hi, Hj. congruence.
  - unfold edges, numEdges. apply length_imap.
  - apply edges_lookup.
  - intros v es a b Hes Ha Hb. apply (edge_eq_edges g); by eapply out_edge_sequence_edges.
  - intros pl v es a b Hes Ha Hb. rewrite OutEdgeRange_edges_outEdges in Hes.
    destruct pl; [done|]. apply (edge_eq_edges g); by eapply out_edge_sequence_edges.
  - exists (mkEdgeDescriptor 0 1 0), (mkEdgeDescriptor 1 0 0). split; [|done].
    by apply edge_eq_idx.
Qed.

(** ** Degrees add up to the number of edges *)

Lemma sum_list_fmap_with {A} (f : A → nat) (l : list A) :
  sum_list (f <$> l) = sum_list_with f l.
Proof. induction l as [|x l IH]; simpl; [done|]. by f_equal. Qed.

Lemma sum_list_with_ext {A} (f f' : A → nat) (l : list A) :
  (∀ x, f x = f' x) → sum_list_with f l = sum_list_with f' l.
Proof. intros Hf. induction l as [|x l IH]; simpl; [done|]. by rewrite Hf, IH. Qed.

Lemma sum_list_with_add {A} (f f' : A → nat) (l : list A) :
  sum_list_with (λ x, f x + f' x) l = sum_list_with f l + sum_list_with f' l.
Proof. induction l as [|x l IH]; simpl; [done|]. rewrite IH. lia. Qed.

Lemma sum_list_with_zero {A} (l : list A) : sum_list_with (λ _, 0) l = 0.
Proof. induction l as [|x l IH]; simpl; done. Qed.

(** Sorting the elements of a list by a key below [n] loses none and
    repeats none. *)
Lemma count_by_key {A} (h : A → nat) (l : list A) (n : nat) :
  (∀ x, x ∈ l → h x < n) →
  sum_list_with (λ v, length (filter (λ x, h x = v) l)) (seq 0 n) = length l.
Proof.
  induction l as [|x l IH]; intros Hlt.
  - rewrite (sum_list_with_ext _ (λ _, 0)) by done. apply sum_list_with_zero.
  - rewrite (sum_list_with_ext _
      (λ v, (if decide (h x = v) then 1 else 0) + length (filter (λ x, h x = v) l))).
    2:{ intros v. rewrite filter_cons. by destruct (decide (h x = v)). }
    rewrite sum_list_with_add, IH by (intros y Hy; apply Hlt; by right).
    rewrite (sum_list_with_single _ (h x)).
    2:{ intros v Hv. by rewrite decide_False. }
    rewrite decide_True by done.
    rewrite filter_eq_count by apply NoDup_seq.
    rewrite decide_True; [simpl; lia|].
    apply elem_of_seq. specialize (Hlt x (list_elem_of_here _ _)). lia.
Qed.

Section DegreeSum.
Context {c : DirectedCategory} {VP EP : Type} (g : AdjacencyList c VP EP).
Context (Hinv : storage_invariant g).

Lemma storage_invariant_src e : e ∈ edges g → src e < numVertices g.
Proof.
  intros [Hlt ->]%elem_of_edges.
  destruct (lookup_lt_is_Some_2 (eList g) _ Hlt) as [se Hse].
  rewrite (src_edge_at _ _ _ Hse). destruct Hinv as (Hsrc & _). by eapply Hsrc.
Qed.

Lemma storage_invariant_tar e :
  c = Bidirectional → e ∈ edges g → tar e < numVertices g.
Proof.
  intros Hc [Hlt ->]%elem_of_edges.
  destruct (lookup_lt_is_Some_2 (eList g) _ Hlt) as [se Hse].
  rewrite (tar_edge_at _ _ _ Hse). destruct Hinv as (_ & _ & Hin).
  subst c. destruct Hin as [Htar _]. by eapply Htar.
Qed.

Lemma out_edge_count_sum :
  ∃ ds, traverse (λ v, out_edge_count (base v) g) (vertices g) = Ok ds ∧
        sum_list ds = numEdges g.
Proof.
  exists ((λ v, length (filter (λ e, src e = base v) (edges g))) <$> vertices g).
  split.
  - apply traverse_Ok_fmap. intros v Hv%vertices_lt. by apply out_edge_count_filter.
  - unfold vertices. rewrite <- list_fmap_compose, sum_list_fmap_with.
    rewrite (sum_list_with_ext _ (λ v, length (filter (λ e, src e = v) (edges g)))) by done.
    rewrite count_by_key by apply storage_invariant_src.
    unfold edges, numEdges. apply length_imap.
Qed.

Lemma in_edge_count_sum req :
  ∃ ds, traverse (λ v, in_edge_count req (base v) g) (vertices g) = Ok ds ∧
        sum_list ds = numEdges g.
Proof.
  exists ((λ v, length (filter (λ e, tar e = base v) (edges g))) <$> vertices g).
  split.
  - apply traverse_Ok_fmap. intros v Hv%vertices_lt. by apply in_edge_count_filter.
  - unfold vertices. rewrite <- list_fmap_compose, sum_list_fmap_with.
    rewrite (sum_list_with_ext _ (λ v, length (filter (λ e, tar e = v) (edges g)))) by done.
    rewrite count_by_key by (intros e; by apply storage_invariant_tar).
    unfold edges, numEdges. apply length_imap.
Qed.
End DegreeSum.

(** X9: on a graph built by the operations of the library the numbers of
    out-edge references stored for the vertices add up to the number of
    edges, and so do the numbers of in-edge references of a Bidirectional
    graph: every edge is counted at one source and at one target. *)
Theorem stored_references_add_up_to_numEdges {c : DirectedCategory} {VP EP : Type}
    (g : AdjacencyList c VP EP) :
  built g →
  (∃ ds, traverse (λ v, out_edge_count (base v) g) (vertices g) = Ok ds ∧
         sum_list ds = numEdges g) ∧
  (∀ req, ∃ ds, traverse (λ v, in_edge_count req (base v) g) (vertices g) = Ok ds ∧
                sum_list ds = numEdges g).
Proof.
  intros Hinv%built_storage_invariant. split.
  - by apply out_edge_count_sum.
  - intros req. by apply in_edge_count_sum.
Qed.

Lemma stored_references_add_up_to_numEdges_witness :
  built main_graph ∧
  (∃ ds, traverse (λ v, out_edge_count (base v) main_graph) (vertices main_graph) = Ok ds ∧
         sum_list ds = numEdges main_graph) ∧
  (∀ req, ∃ ds, traverse (λ v, in_edge_count req (base v) main_graph) (vertices main_graph)
                = Ok ds ∧
                sum_list ds = numEdges main_graph).
Proof.
  split; [apply main_graph_built|].
  apply (stored_references_add_up_to_numEdges main_graph), main_graph_built.
Defined.

(** ** Adjacency consistency of the store *)

(** X10: what the operations of the library store is consistent.  On every
    graph they build (the constructors, [addVertex], [addEdge], the property
    accessors, [dfs], [topoSort]) each stored edge is referenced exactly once
    among the out-edges stored for its source and not among those of another
    vertex, in a Bidirectional graph exactly once among the in-edges stored
    for its target and not among those of another vertex; every out-edge
    (in-edge) reference stored for a vertex points to a stored edge whose
    source (target) is that vertex; and in a Bidirectional graph the target
    of every edge is a vertex.  [addEdge(v, u, ...)] with end points that are
    vertices returns, leaves such a graph, and the descriptor it returns is a
    stored edge from [v] to [u]. *)
Theorem stored_adjacency_consistent {c : DirectedCategory} {VP EP : Type}
    (g : AdjacencyList c VP EP) :
  built g →
  adjacency_consistent g ∧
  (c = Bidirectional → targets_valid g) ∧
  ∀ v u ep, v < numVertices g → u < numVertices g →
    ∃ r, addEdge_prop v u ep g = Ok r ∧
         adjacency_consistent r.2 ∧ r.1 ∈ edges r.2 ∧ src r.1 = v ∧ tar r.1 = u.
Proof.
  intros Hb%built_storage_invariant. split; [by apply storage_invariant_consistent|].
  split; [intros Hc e He; by apply storage_invariant_tar|].
  intros v u ep Hv Hu. destruct (addEdge_prop_total v u ep g Hv Hu) as [r Hr].
  exists r. split; [done|]. split; [|by eapply addEdge_prop_edges].
  by eapply storage_invariant_consistent, storage_invariant_addEdge_prop.
Qed.

Lemma stored_adjacency_consistent_witness :
  (built main_graph ∧ 3 < numVertices main_graph ∧ 0 < numVertices main_graph) ∧
  adjacency_consistent main_graph ∧
  targets_valid main_graph ∧
  ∃ r, addEdge_prop 3 0 7%Z main_graph = Ok r ∧
       adjacency_consistent r.2 ∧ r.1 ∈ edges r.2 ∧ src r.1 = 3 ∧ tar r.1 = 0.
Proof.
  assert (3 < numVertices main_graph ∧ 0 < numVertices main_graph) as [H3 H0]
    by (vm_compute; lia).
  split; [split; [apply main_graph_built | done]|].
  destruct (stored_adjacency_consistent main_graph main_graph_built) as (Hc & Ht & Hadd).
  split; [exact Hc|]. split; [exact (Ht eq_refl)|]. exact (Hadd 3 0 7%Z H3 H0).
Defined.

(** ** Stored in-edges mirror stored out-edges *)

(** X11: in a Bidirectional graph built by the operations of the library an
    edge is among the out-edges stored for [u] and leads to [v] exactly when
    it is among the in-edges stored for [v] and comes from [u]; both say that
    it is an edge of the graph from [u] to [v]. *)
Theorem stored_in_edges_mirror_out_edges {c : DirectedCategory} {VP EP : Type}
    (g : AdjacencyList c VP EP) (req : requires_Bidirectional c)
    (e : EdgeDescriptor) (u v : VertexDescriptor) :
  built g →
  ((∃ es, out_edge_sequence u g = Ok es ∧ e ∈ es ∧ tar e = v) ↔
   (e ∈ edges g ∧ src e = u ∧ tar e = v)) ∧
  ((∃ es, in_edge_sequence req v g = Ok es ∧ e ∈ es ∧ src e = u) ↔
   (e ∈ edges g ∧ src e = u ∧ tar e = v)).
Proof.
  intros Hinv%built_storage_invariant. split.
  - split.
    + intros (es & Hes & He & Ht). pose proof (out_edge_sequence_lt _ _ _ Hes) as Hu.
      rewrite (out_edge_sequence_filter g Hinv u Hu) in Hes. simplify_eq.
      by apply list_elem_of_filter in He as [? ?].
    + intros (He & Hs & Ht). pose proof (storage_invariant_src g Hinv e He) as Hu.
      rewrite Hs in Hu. eexists. split; [by apply out_edge_sequence_filter|].
      split; [|done]. by apply list_elem_of_filter.
  - split.
    + intros (es & Hes & He & Hs). pose proof (in_edge_sequence_lt _ _ _ _ Hes) as Hv.
      rewrite (in_edge_sequence_filter g Hinv req v Hv) in Hes. simplify_eq.
      by apply list_elem_of_filter in He as [? ?].
    + intros (He & Hs & Ht). pose proof (storage_invariant_tar g Hinv e req He) as Hv.
      rewrite Ht in Hv. eexists. split; [by apply in_edge_sequence_filter|].
      split; [|done]. by apply list_elem_of_filter.
Qed.

Lemma stored_in_edges_mirror_out_edges_witness :
  built main_graph ∧
  ((∃ es, out_edge_sequence 1 main_graph = Ok es ∧ mkEdgeDescriptor 1 0 1 ∈ es ∧
          tar (mkEdgeDescriptor 1 0 1) = 0) ↔
   (mkEdgeDescriptor 1 0 1 ∈ edges main_graph ∧
    src (mkEdgeDescriptor 1 0 1) = 1 ∧ tar (mkEdgeDescriptor 1 0 1) = 0)) ∧
  ((∃ es, in_edge_sequence eq_refl 0 main_graph = Ok es ∧ mkEdgeDescriptor 1 0 1 ∈ es ∧
          src (mkEdgeDescriptor 1 0 1) = 1) ↔
   (mkEdgeDescriptor 1 0 1 ∈ edges main_graph ∧
    src (mkEdgeDescriptor 1 0 1) = 1 ∧ tar (mkEdgeDescriptor 1 0 1) = 0)).
Proof.
  split; [apply main_graph_built|].
  apply (stored_in_edges_mirror_out_edges main_graph eq_refl), main_graph_built.
Defined.

(** * Further properties of the traversal *)

(** ** The visitor does not steer the traversal *)

Lemma Res_rel_bind {A B A' B'} (R : A → B → Prop) (S : A' → B' → Prop)
    (r : Res A) (r' : Res B) (f : A → Res A') (f' : B → Res B') :
  Res_rel R r r' →
  (∀ a b, R a b → Res_rel S (f a) (f' b)) →
  Res_rel S (r ≫= f) (r' ≫= f').
Proof. intros [a b Hab| |] Hf; simpl; [by apply Hf | constructor | constructor]. Qed.

Lemma Res_rel_eq {A} (r : Res A) : Res_rel eq r r.
Proof. destruct r; by constructor. Qed.

Lemma index_fmap_rel {A B C} (f : A → C) (f' : B → C) (l : list A) (l' : list B) i :
  f <$> l = f' <$> l' → Res_rel (λ x y, f x = f' y) (index l i) (index l' i).
Proof.
  intros Heq. unfold index.
  assert ((f <$> l) !! i = (f' <$> l') !! i) as Hi by (by rewrite Heq).
  rewrite !list_lookup_fmap in Hi.
  destruct (l !! i), (l' !! i); simplify_eq/=; by constructor.
Qed.

Lemma write_payloads_shape {c VP EP} upd (g : AdjacencyList c VP EP) :
  shape (write_payloads upd g) = shape g.
Proof.
  pose proof (write_payloads_structure upd g) as Hs. unfold structure, shape in *.
  injection Hs as Hv He. f_equal; [|done].
  apply (f_equal (fmap fst)) in Hv. by rewrite <- !list_fmap_compose in Hv.
Qed.

Section Simulation.
Context {c c' : DirectedCategory} {VP EP VP' EP' : Type} {VS W VS' W' : Type}.
Context (visitor : Visitor c VP EP VS W) (visitor' : Visitor c' VP' EP' VS' W').
Context (RS : VS → VS' → Prop) (RW : W → W' → Prop).
Context (Hvisitors : related_visitors RS RW visitor visitor').
Context (pl : ParamLifetime).
Implicit Types (g : AdjacencyList c VP EP) (h : AdjacencyList c' VP' EP').
Implicit Types (m : Memory c VP EP W) (n : Memory c' VP' EP' W').

Lemma dereference_shape g h idx :
  shape g = shape h → dereference g idx = dereference h idx.
Proof. intros [= _ Hends]. by rewrite !dereference_fmap, Hends. Qed.

Lemma shape_numVertices g h : shape g = shape h → numVertices g = numVertices h.
Proof.
  intros [= Hout _]. unfold numVertices.
  by rewrite <- (length_fmap eOut (vList g)), Hout, length_fmap.
Qed.

Lemma OutEdgeRange_positions_shape u g h :
  shape g = shape h →
  OutEdgeRange_positions (outEdges pl u g) = OutEdgeRange_positions (outEdges pl u h).
Proof.
  intros [= Hout _]. unfold OutEdgeRange_positions, outEdges, out_positions, getIndex.
  destruct pl; simpl; [done|].
  destruct (index_fmap_rel eOut eOut (vList g) (vList h) u Hout) as [sv sv' Hsv| |];
    simpl; [by rewrite Hsv|done|done].
Qed.

Lemma set_colour_run u col m n :
  same_run RW m n → Res_rel (same_run RW) (set_colour u col m) (set_colour u col n).
Proof.
  intros (Hg & Hc & Hw). unfold set_colour, assign. rewrite Hc.
  destruct (mem_colour n !! u); simpl; by constructor.
Qed.

Lemma call_run {A} (cb : A → AdjacencyList c VP EP → VS → W → Effect VP EP VS W)
    (cb' : A → AdjacencyList c' VP' EP' → VS' → W' → Effect VP' EP' VS' W') x vs vs' m n :
  (∀ x g h vs vs' w w', shape g = shape h → RS vs vs' → RW w w' →
     RS (cb x g vs w).1.1 (cb' x h vs' w').1.1 ∧
     RW (cb x g vs w).1.2 (cb' x h vs' w').1.2) →
  RS vs vs' → same_run RW m n →
  RS (call (cb x) vs m).1 (call (cb' x) vs' n).1 ∧
  same_run RW (call (cb x) vs m).2 (call (cb' x) vs' n).2.
Proof.
  intros Hcb Hvs (Hg & Hc & Hw).
  destruct (Hcb x _ _ _ _ _ _ Hg Hvs Hw) as [Hs1 Hw1].
  unfold call, same_run. simpl. by rewrite !write_payloads_shape.
Qed.

Lemma dfsVisit_edges_run visit visit' oes vs vs' m n :
  (∀ vs vs' v m n, RS vs vs' → same_run RW m n →
     Res_rel (same_run RW) (visit vs v m) (visit' vs' v n)) →
  RS vs vs' → same_run RW m n →
  Res_rel (λ r r', RS r.1 r'.1 ∧ same_run RW r.2 r'.2)
    (dfsVisit_edges visit visitor oes vs m)
    (dfsVisit_edges visit' visitor' oes vs' n).
Proof.
  intros Hvisit. revert vs vs' m n.
  induction oes as [|oe oes IH]; intros vs vs' m n Hvs Hm; cbn [dfsVisit_edges];
    [by constructor|].
  pose proof Hm as (Hg & Hc & Hw). rewrite (dereference_shape _ _ _ Hg).
  eapply Res_rel_bind; [apply Res_rel_eq|]. intros e ? <-.
  destruct (call_run (examineEdge visitor) (examineEdge visitor') e vs vs' m n)
    as [Hs1 Hm1]; [apply Hvisitors|done|done|].
  pose proof Hm1 as (_ & Hc1 & _). rewrite Hc1.
  eapply Res_rel_bind; [apply Res_rel_eq|]. intros cv ? <-.
  eapply (Res_rel_bind (λ r r', RS r.1 r'.1 ∧ same_run RW r.2 r'.2)).
  - destruct cv.
    + destruct (call_run (treeEdge visitor) (treeEdge visitor') e _ _ _ _
                  ltac:(apply Hvisitors) Hs1 Hm1) as [Hs2 Hm2].
      eapply Res_rel_bind; [by apply Hvisit|]. intros a b Hab. by constructor.
    + constructor. apply call_run; [apply Hvisitors|done|done].
    + constructor. apply call_run; [apply Hvisitors|done|done].
  - intros r2 r2' [Hs2 Hm2].
    destruct (call_run (finishEdge visitor) (finishEdge visitor') e _ _ _ _
                ltac:(apply Hvisitors) Hs2 Hm2) as [Hs3 Hm3].
    by apply IH.
Qed.

Lemma dfsVisit_run fuel vs vs' u m n :
  RS vs vs' → same_run RW m n →
  Res_rel (same_run RW) (dfsVisit pl fuel visitor vs u m) (dfsVisit pl fuel visitor' vs' u n).
Proof.
  revert vs vs' u m n.
  induction fuel as [|fuel IH]; intros vs vs' u m n Hvs Hm; cbn [dfsVisit]; [constructor|].
  destruct (call_run (discoverVertex visitor) (discoverVertex visitor') u _ _ _ _
              ltac:(apply Hvisitors) Hvs Hm) as [Hs1 Hm1].
  eapply Res_rel_bind; [by apply set_colour_run|]. intros m2 n2 Hm2.
  pose proof Hm2 as (Hg2 & _). rewrite (OutEdgeRange_positions_shape _ _ _ Hg2).
  eapply Res_rel_bind; [apply Res_rel_eq|]. intros es ? <-.
  eapply Res_rel_bind; [by apply dfsVisit_edges_run|]. intros r3 r3' [Hs3 Hm3].
  eapply Res_rel_bind; [by apply set_colour_run|]. intros m4 n4 Hm4.
  constructor. by apply call_run; [apply Hvisitors| |].
Qed.

Lemma dfs_init_run vs vis vis' m n :
  RS vis vis' → same_run RW m n →
  Res_rel (λ r r', RS r.1 r'.1 ∧ same_run RW r.2 r'.2)
    (dfs_init visitor vs vis m) (dfs_init visitor' vs vis' n).
Proof.
  revert vis vis' m n.
  induction vs as [|v vs IH]; intros vis vis' m n Hvis Hm; cbn [dfs_init]; [by constructor|].
  eapply Res_rel_bind; [by apply set_colour_run|]. intros m1 n1 Hm1.
  destruct (call_run (initVertex visitor) (initVertex visitor') v _ _ _ _
              ltac:(apply Hvisitors) Hvis Hm1) as [Hs2 Hm2].
  by apply IH.
Qed.

Lemma dfs_roots_run fuel vs vis vis' m n :
  RS vis vis' → same_run RW m n →
  Res_rel (λ r r', RS r.1 r'.1 ∧ same_run RW r.2 r'.2)
    (dfs_roots pl fuel visitor vs vis m) (dfs_roots pl fuel visitor' vs vis' n).
Proof.
  revert vis vis' m n.
  induction vs as [|v vs IH]; intros vis vis' m n Hvis Hm; cbn [dfs_roots]; [by constructor|].
  pose proof Hm as (Hg & Hc & Hw). rewrite Hc.
  eapply Res_rel_bind; [apply Res_rel_eq|]. intros cv ? <-.
  destruct cv; [|by apply IH|by apply IH].
  destruct (call_run (startVertex visitor) (startVertex visitor') v _ _ _ _
              ltac:(apply Hvisitors) Hvis Hm) as [Hs1 Hm1].
  eapply Res_rel_bind; [by apply dfsVisit_run|]. intros m1 n1 Hmn. by apply IH.
Qed.

Lemma dfs_run vis vis' g h w w' :
  shape g = shape h → RS vis vis' → RW w w' →
  Res_rel (λ r r', shape r.1 = shape r'.1 ∧ RW r.2 r'.2)
    (dfs pl visitor vis g w) (dfs pl visitor' vis' h w').
Proof.
  intros Hs Hvis Hw. unfold dfs, vertices. simpl. rewrite (shape_numVertices _ _ Hs).
  eapply Res_rel_bind; [by apply dfs_init_run|]. intros r1 r1' [Hs1 Hm1].
  pose proof Hm1 as (Hg1 & _). rewrite (shape_numVertices _ _ Hg1).
  eapply Res_rel_bind; [by apply dfs_roots_run|].
  intros r2 r2' [_ (Hg2 & _ & Hw2)]. by constructor.
Qed.
End Simulation.

(** Any two visitors are related by the relations that hold of everything:
    the traversal takes the same course with both. *)
Lemma related_visitors_any {c VP EP VS W c' VP' EP' VS' W'}
    (visitor : Visitor c VP EP VS W) (visitor' : Visitor c' VP' EP' VS' W') :
  related_visitors (λ _ _, True) (λ _ _, True) visitor visitor'.
Proof. by repeat split. Qed.

Section Control.
Context {c : DirectedCategory} {VP EP : Type} {VS W VS' W' : Type}.
Context (visitor : Visitor c VP EP VS W) (visitor' : Visitor c VP EP VS' W').
Context (pl : ParamLifetime).

Lemma dfsVisit_control fuel vs vs' u (m : Memory c VP EP W) (n : Memory c VP EP W') :
  shape (mem_graph m) = shape (mem_graph n) → mem_colour m = mem_colour n →
  Res_rel (λ _ _, True) (dfsVisit pl fuel visitor vs u m) (dfsVisit pl fuel visitor' vs' u n).
Proof.
  intros Hg Hc.
  destruct (dfsVisit_run visitor visitor' _ _ (related_visitors_any _ _) pl fuel vs vs' u m n)
    as [a b _| |]; [done|by repeat split| | |]; by constructor.
Qed.

Lemma dfs_control vis vis' g w w' :
  Res_rel (λ r r', shape r.1 = shape r'.1) (dfs pl visitor vis g w) (dfs pl visitor' vis' g w').
Proof.
  destruct (dfs_run visitor visitor' _ _ (related_visitors_any _ _) pl vis vis' g g w w')
    as [a b [Hab _]| |]; [done|done|done| | |]; by constructor.
Qed.
End Control.

(** ** An examined edge leads to a vertex *)

Section ExaminedTargets.
Context {c : DirectedCategory} {VP EP : Type} (g : AdjacencyList c VP EP).

Lemma Visit_examined_targets :
  (∀ st u evs st', Visit g st u evs st' →
     ∀ e, e ∈ examined evs → tar e < length st) ∧
  (∀ st es evs st', VisitEdges g st es evs st' →
     ∀ e, e ∈ examined evs → tar e < length st).
Proof.
  apply Visit_VisitEdges_ind.
  - intros st u es evs st' _ _ _ IH e. obs_simpl. simpl. intros He%IH.
    by rewrite length_insert in He.
  - intros st e. obs_simpl. by intros ?%not_elem_of_nil.
  - intros st e es evs1 st1 evs2 st2 Hw HV1 IH1 _ IH2 e'.
    destruct (proj1 (Visit_colours g) _ _ _ _ HV1) as (Hl & _).
    obs_simpl. simpl. obs_simpl. simpl. obs_simpl.
    intros [->|[He'|He']%elem_of_app]%elem_of_cons.
    + by eapply lookup_lt_Some.
    + by apply IH1.
    + rewrite <- Hl. by apply IH2.
  - intros st e es evs2 st2 Hg _ IH2 e'. obs_simpl. simpl. obs_simpl. simpl. obs_simpl.
    intros [->|He']%elem_of_cons; [by eapply lookup_lt_Some | by apply IH2].
  - intros st e es evs2 st2 Hb _ IH2 e'. obs_simpl. simpl. obs_simpl. simpl. obs_simpl.
    intros [->|He']%elem_of_cons; [by eapply lookup_lt_Some | by apply IH2].
Qed.

Lemma VisitRoots_examined_targets st vs evs st' :
  VisitRoots g st vs evs st' → ∀ e, e ∈ examined evs → tar e < length st.
Proof.
  induction 1 as [st|st v vs evs1 st1 evs2 st2 Hv HV HR IH|st v vs cv evs st2 _ _ _ IH];
    intros e.
  - obs_simpl. by intros ?%not_elem_of_nil.
  - destruct (proj1 (Visit_colours g) _ _ _ _ HV) as (Hl & _).
    obs_simpl. intros [He|He]%elem_of_app.
    + by apply (proj1 Visit_examined_targets _ _ _ _ HV).
    + rewrite <- Hl. by apply IH.
  - apply IH.
Qed.

Lemma DfsProtocol_examined_targets evs e :
  DfsProtocol g evs → e ∈ examined evs → tar e < numVertices g.
Proof.
  intros (body & st' & -> & HR). obs_simpl.
  rewrite (proj2 (proj2 (init_events_silent _))). simpl. intros He.
  apply (VisitRoots_examined_targets _ _ _ _ HR) in He.
  by rewrite length_replicate in He.
Qed.

Lemma dfs_trace_targets_valid pl evs :
  out_edges_once g → dfs_trace pl g = Ok evs → targets_valid g.
Proof.
  intros Honce Hevs e He. pose proof (dfs_trace_protocol _ _ _ Hevs) as HP.
  destruct (DfsProtocol_edges g evs e HP Honce He) as [_ Hocc].
  apply (DfsProtocol_examined_targets evs e HP).
  rewrite occurrences_examined in Hocc.
  destruct (filter (e =.) (examined evs)) as [|e' l] eqn:E; [done|].
  assert (e' ∈ filter (e =.) (examined evs)) as [<- ?]%list_elem_of_filter
    by (rewrite E; by left).
  done.
Qed.
End ExaminedTargets.

(** ** When a traversal returns *)

Section Returns.
Context {c : DirectedCategory} {VP EP : Type} {VS W : Type}.
Context (visitor : Visitor c VP EP VS W) (pl : ParamLifetime).
Implicit Types g : AdjacencyList c VP EP.

Lemma dfs_trace_Ok_iff g vis w :
  (∃ evs, dfs_trace pl g = Ok evs) ↔ (∃ r, dfs pl visitor vis g w = Ok r).
Proof.
  unfold dfs_trace.
  pose proof (dfs_control RecordingVisitor visitor pl tt vis g [] w) as Hrel.
  split.
  - intros [evs (r & Hr & _)%bind_Ok]. rewrite Hr in Hrel. inversion Hrel. eauto.
  - intros [r Hr]. rewrite Hr in Hrel. inversion Hrel as [a b _ Ha Hb| |].
    exists a.2. by simpl.
Qed.

Lemma dfs_fuel g vis w : dfs pl visitor vis g w ≠ OutOfFuel.
Proof.
  intros Hr. apply (dfs_trace_fuel pl g). unfold dfs_trace.
  pose proof (dfs_control RecordingVisitor visitor pl tt vis g [] w) as Hrel.
  rewrite Hr in Hrel. by inversion Hrel.
Qed.

Lemma dfsVisit_fuel_any fuel vs u (m : Memory c VP EP W) :
  mem_colour m !! u = Some White → whites (mem_colour m) ≤ fuel →
  dfsVisit pl fuel visitor vs u m ≠ OutOfFuel.
Proof.
  intros Hu Hw Hr.
  apply (dfsVisit_fuel pl fuel u (mkMemory (mem_graph m) (mem_colour m) [])); [done|done|].
  pose proof (dfsVisit_control RecordingVisitor visitor pl fuel tt vs u
                (mkMemory (mem_graph m) (mem_colour m) []) m eq_refl eq_refl)
    as Hrel.
  rewrite Hr in Hrel. by inversion Hrel.
Qed.
End Returns.

Lemma dangling_graph_built : built dangling_graph.
Proof.
  pose proof (@built_n Directed NoProp NoProp _ 1) as H.
  apply (built_addEdge _ noProp 0 5 _ _) with (2 := eq_refl) in H.
  exact H.
Qed.

Lemma dangling_graph_target : ¬ targets_valid dangling_graph.
Proof.
  intros H. specialize (H (mkEdgeDescriptor 0 5 0)).
  assert (5 < numVertices dangling_graph) as Hlt by (apply H; vm_compute; by left).
  vm_compute in Hlt. lia.
Qed.

(** X13: where a parameter lives until the end of the full-expression, [dfs]
    on a graph built by the operations of the library returns if the target
    of every edge is a vertex, and reads the colour vector out of range
    otherwise, whatever the visitor does. *)
Theorem dfs_returns_iff_targets_are_vertices {c : DirectedCategory} {VP EP : Type}
    {VS W : Type} (visitor : Visitor c VP EP VS W) (vis : VS)
    (g : AdjacencyList c VP EP) (w : W) :
  built g →
  (targets_valid g ∧ ∃ r, dfs UntilFullExpression visitor vis g w = Ok r) ∨
  (¬ targets_valid g ∧ dfs UntilFullExpression visitor vis g w = Fault).
Proof.
  intros Hinv%built_storage_invariant.
  pose proof (storage_invariant_consistent g Hinv) as Hcons.
  destruct (Res_cases (dfs UntilFullExpression visitor vis g w)) as [[r Hr]|[Hr|Hr]].
  - left. split; [|eauto].
    destruct (proj2 (dfs_trace_Ok_iff visitor UntilFullExpression g vis w)) as [evs Hevs];
      [eauto|].
    apply (dfs_trace_targets_valid g UntilFullExpression evs); [apply Hcons | done].
  - right. split; [|done]. intros Hvalid.
    destruct (dfs_trace_total g) as [evs Hevs]; [by apply well_formed_traversable|].
    destruct (proj1 (dfs_trace_Ok_iff visitor UntilFullExpression g vis w)) as [r Hr'];
      [eauto|].
    congruence.
  - by apply dfs_fuel in Hr.
Qed.

Lemma dfs_returns_iff_targets_are_vertices_witness :
  built dangling_graph ∧ ¬ targets_valid dangling_graph ∧
  dfs UntilFullExpression RecordingVisitor tt dangling_graph [] = Fault.
Proof.
  split; [apply dangling_graph_built|]. split; [apply dangling_graph_target|].
  destruct (dfs_returns_iff_targets_are_vertices RecordingVisitor tt dangling_graph []
              dangling_graph_built) as [[Hvalid _]|[_ Hfault]]; [|exact Hfault].
  destruct (dangling_graph_target Hvalid).
Defined.

(** X14: the calls of [dfsVisit] never nest deeper than there are Unvisited
    vertices, so [dfs] and [topoSort] stay within a depth of [numVertices(g)]
    on every graph and with every visitor. *)
Theorem dfsVisit_depth_within_numVertices {c : DirectedCategory} {VP EP : Type}
    {VS W OIter Out : Type} `{OutputIterator VP EP OIter Out} (pl : ParamLifetime)
    (visitor : Visitor c VP EP VS W) (vis : VS) (g : AdjacencyList c VP EP) (w : W)
    (oIter : OIter) (out : Out)
    (fuel : nat) (u : VertexDescriptor) (m : Memory c VP EP W) :
  dfs pl visitor vis g w ≠ OutOfFuel ∧
  topoSort pl g oIter out ≠ OutOfFuel ∧
  (mem_colour m !! u = Some White → whites (mem_colour m) ≤ fuel →
   dfsVisit pl fuel visitor vis u m ≠ OutOfFuel).
Proof.
  split; [apply dfs_fuel|]. split; [apply dfs_fuel|]. apply dfsVisit_fuel_any.
Qed.

(** ** Every edge is classified once *)

Lemma occurrences_cons_eq ev evs :
  occurrences ev (ev :: evs) = S (occurrences ev evs).
Proof. rewrite occurrences_cons. by rewrite decide_True. Qed.

Lemma occurrences_cons_ne ev x evs :
  ev ≠ x → occurrences ev (x :: evs) = occurrences ev evs.
Proof. intros Hne. rewrite occurrences_cons. by rewrite decide_False. Qed.

Ltac occ_count :=
  repeat first [ rewrite occurrences_app
               | rewrite occurrences_nil
               | rewrite occurrences_cons_eq
               | rewrite occurrences_cons_ne by congruence ].

Section Classification.
Context {c : DirectedCategory} {VP EP : Type} (g : AdjacencyList c VP EP).

Lemma Visit_classified e :
  (∀ st u evs st', Visit g st u evs st' →
     classified e evs = occurrences (EvExamineEdge e) evs ∧
     occurrences (EvFinishEdge e) evs = occurrences (EvExamineEdge e) evs) ∧
  (∀ st es evs st', VisitEdges g st es evs st' →
     classified e evs = occurrences (EvExamineEdge e) evs ∧
     occurrences (EvFinishEdge e) evs = occurrences (EvExamineEdge e) evs).
Proof.
  unfold classified. apply Visit_VisitEdges_ind.
  - intros st u es evs st' _ _ _ [IH1 IH2]. occ_count. lia.
  - intros st. by occ_count.
  - intros st e0 es evs1 st1 evs2 st2 _ _ [IH1 IH1'] _ [IH2 IH2'].
    destruct (decide (e = e0)) as [->|Hne]; occ_count; lia.
  - intros st e0 es evs2 st2 _ _ [IH2 IH2'].
    destruct (decide (e = e0)) as [->|Hne]; occ_count; lia.
  - intros st e0 es evs2 st2 _ _ [IH2 IH2'].
    destruct (decide (e = e0)) as [->|Hne]; occ_count; lia.
Qed.

Lemma VisitRoots_classified e st vs evs st' :
  VisitRoots g st vs evs st' →
  classified e evs = occurrences (EvExamineEdge e) evs ∧
  occurrences (EvFinishEdge e) evs = occurrences (EvExamineEdge e) evs.
Proof.
  unfold classified.
  induction 1 as [st|st v vs evs1 st1 evs2 st2 Hv HV HR [IH IH']|st v vs cv evs st2 _ _ _ IH].
  - by occ_count.
  - destruct (proj1 (Visit_classified e) _ _ _ _ HV) as [H1 H1'].
    unfold classified in H1. occ_count. lia.
  - done.
Qed.

Lemma DfsProtocol_classified e evs :
  DfsProtocol g evs →
  classified e evs = occurrences (EvExamineEdge e) evs ∧
  occurrences (EvFinishEdge e) evs = occurrences (EvExamineEdge e) evs.
Proof.
  intros (body & st' & -> & HR).
  destruct (VisitRoots_classified e _ _ _ _ HR) as [H1 H2].
  unfold classified in *. rewrite !occurrences_app.
  rewrite !occurrences_init by done. lia.
Qed.
End Classification.

(** X15: where a parameter lives until the end of the full-expression, in a
    traversal of a well-formed graph every edge is classified exactly once: of
    [treeEdge], [backEdge] and [forwardOrCrossEdge] one is called for it,
    once, and [finishEdge] is called for it once. *)
Theorem dfs_classifies_every_edge_once {c : DirectedCategory} {VP EP : Type}
    (g : AdjacencyList c VP EP) :
  well_formed g →
  ∃ evs, dfs_trace UntilFullExpression g = Ok evs ∧
    ∀ e, e ∈ edges g →
      occurrences (EvTreeEdge e) evs + occurrences (EvBackEdge e) evs +
        occurrences (EvForwardOrCrossEdge e) evs = 1 ∧
      occurrences (EvFinishEdge e) evs = 1.
Proof.
  intros Hwf. destruct (dfs_trace_total g) as [evs Hevs];
    [by apply well_formed_traversable|].
  exists evs. split; [done|]. intros e He.
  pose proof (dfs_trace_protocol _ _ _ Hevs) as HP.
  destruct Hwf as [(Honce & _) _].
  destruct (DfsProtocol_edges g evs e HP Honce He) as [_ Hocc].
  destruct (DfsProtocol_classified g e evs HP) as [H1 H2].
  unfold classified in H1. lia.
Qed.

Lemma dfs_classifies_every_edge_once_witness :
  well_formed loop_graph ∧
  ∃ evs, dfs_trace UntilFullExpression loop_graph = Ok evs ∧
    ∀ e, e ∈ edges loop_graph →
      occurrences (EvTreeEdge e) evs + occurrences (EvBackEdge e) evs +
        occurrences (EvForwardOrCrossEdge e) evs = 1 ∧
      occurrences (EvFinishEdge e) evs = 1.
Proof.
  split; [apply loop_graph_well_formed|].
  apply (dfs_classifies_every_edge_once loop_graph), loop_graph_well_formed.
Defined.

(** ** The tree edges form a forest *)

Lemma roots_app evs1 evs2 : roots (evs1 ++ evs2) = roots evs1 ++ roots evs2.
Proof. apply omap_app. Qed.

Lemma tree_edges_app evs1 evs2 :
  tree_edges (evs1 ++ evs2) = tree_edges evs1 ++ tree_edges evs2.
Proof. apply omap_app. Qed.

Lemma back_edges_app evs1 evs2 :
  back_edges (evs1 ++ evs2) = back_edges evs1 ++ back_edges evs2.
Proof. apply omap_app. Qed.

Lemma roots_cons ev evs :
  roots (ev :: evs) =
  match ev with EvStartVertex v => base v :: roots evs | _ => roots evs end.
Proof. by destruct ev. Qed.

Lemma tree_edges_cons ev evs :
  tree_edges (ev :: evs) =
  match ev with EvTreeEdge e => e :: tree_edges evs | _ => tree_edges evs end.
Proof. by destruct ev. Qed.

Lemma back_edges_cons ev evs :
  back_edges (ev :: evs) =
  match ev with EvBackEdge e => e :: back_edges evs | _ => back_edges evs end.
Proof. by destruct ev. Qed.

Ltac forest_simpl :=
  rewrite ?roots_cons, ?tree_edges_cons, ?back_edges_cons,
          ?roots_app, ?tree_edges_app, ?back_edges_app,
          ?roots_cons, ?tree_edges_cons, ?back_edges_cons;
  change (roots []) with (@nil nat);
  change (tree_edges []) with (@nil EdgeDescriptor);
  change (back_edges []) with (@nil EdgeDescriptor);
  rewrite ?app_nil_r.

Lemma roots_init (vs : list counting_iterator) :
  roots (EvInitVertex <$> vs) = [] ∧ tree_edges (EvInitVertex <$> vs) = [] ∧
  back_edges (EvInitVertex <$> vs) = [].
Proof. induction vs as [|v vs (IH1 & IH2 & IH3)]; simpl; done. Qed.

Section Forest.
Context {c : DirectedCategory} {VP EP : Type} (g : AdjacencyList c VP EP).

Lemma Visit_entries v :
  (∀ st u evs st', Visit g st u evs st' →
     roots evs = [] ∧
     length (filter (λ e, tar e = v) (tree_edges evs)) +
       (if decide (u = v) then 1 else 0) =
     occurrences (EvDiscoverVertex v) evs) ∧
  (∀ st es evs st', VisitEdges g st es evs st' →
     roots evs = [] ∧
     length (filter (λ e, tar e = v) (tree_edges evs)) =
     occurrences (EvDiscoverVertex v) evs).
Proof.
  apply Visit_VisitEdges_ind.
  - intros st u es evs st' _ _ _ [IHr IH]. forest_simpl. simpl. forest_simpl.
    split; [done|]. rewrite IH.
    destruct (decide (u = v)) as [->|Hne]; occ_count; lia.
  - intros st. forest_simpl. split; [done|]. by occ_count.
  - intros st e es evs1 st1 evs2 st2 _ _ [IHr1 IH1] _ [IHr2 IH2].
    forest_simpl. simpl. forest_simpl. simpl. forest_simpl.
    rewrite IHr1, IHr2. split; [done|].
    rewrite filter_cons, filter_app. occ_count.
    destruct (decide (tar e = v)); simpl; rewrite length_app; lia.
  - intros st e es evs2 st2 _ _ [IHr2 IH2].
    forest_simpl. simpl. forest_simpl. simpl. forest_simpl.
    split; [done|]. by occ_count.
  - intros st e es evs2 st2 _ _ [IHr2 IH2].
    forest_simpl. simpl. forest_simpl. simpl. forest_simpl.
    split; [done|]. by occ_count.
Qed.

Lemma VisitRoots_entries v st vs evs st' :
  VisitRoots g st vs evs st' → entries v evs = occurrences (EvDiscoverVertex v) evs.
Proof.
  unfold entries.
  induction 1 as [st|st v0 vs evs1 st1 evs2 st2 Hv HV HR IH|st v0 vs cv evs st2 _ _ _ IH].
  - by occ_count.
  - destruct (proj1 (Visit_entries v) _ _ _ _ HV) as [Hr1 H1].
    forest_simpl. rewrite Hr1. simpl. rewrite filter_cons, filter_app, length_app.
    occ_count. destruct (decide (base v0 = v)) as [->|Hne].
    + rewrite decide_True by done. simpl. lia.
    + rewrite decide_False by congruence. lia.
  - done.
Qed.

Lemma DfsProtocol_entries v evs :
  DfsProtocol g evs → entries v evs = occurrences (EvDiscoverVertex v) evs.
Proof.
  intros (body & st' & -> & HR).
  pose proof (VisitRoots_entries v _ _ _ _ HR) as H.
  unfold entries in *. forest_simpl.
  destruct (roots_init (vertices g)) as (-> & -> & _). simpl.
  rewrite H. occ_count. by rewrite occurrences_init.
Qed.
End Forest.

Lemma NoDup_count {A} `{EqDecision A} (l : list A) :
  (∀ v, length (filter (v =.) l) ≤ 1) → NoDup l.
Proof.
  induction l as [|x l IH]; intros Hc; [constructor|].
  constructor.
  - intros Hx. specialize (Hc x). rewrite filter_cons, decide_True in Hc by done.
    simpl in Hc.
    assert (x ∈ filter (x =.) l) as Hin by (by apply list_elem_of_filter).
    destruct (filter (x =.) l); [by apply not_elem_of_nil in Hin | simpl in Hc; lia].
  - apply IH. intros v. specialize (Hc v). rewrite filter_cons in Hc.
    destruct (decide (v = x)); simpl in Hc; lia.
Qed.

Lemma count_one_Permutation (l : list nat) (n : nat) :
  (∀ v, length (filter (v =.) l) = if decide (v < n) then 1 else 0) →
  l ≡ₚ seq 0 n.
Proof.
  intros Hc. apply NoDup_Permutation.
  - apply NoDup_count. intros v. rewrite Hc. destruct (decide (v < n)); lia.
  - apply NoDup_seq.
  - intros v. rewrite elem_of_seq. specialize (Hc v). split.
    + intros Hv. destruct (decide (v < n)); [lia|].
      assert (v ∈ filter (v =.) l) as Hin by (by apply list_elem_of_filter).
      destruct (filter (v =.) l); [by apply not_elem_of_nil in Hin | done].
    + intros [_ Hv]. rewrite decide_True in Hc by lia.
      destruct (filter (v =.) l) as [|x l'] eqn:E; [done|].
      assert (x ∈ filter (v =.) l) as [<- ?]%list_elem_of_filter by (rewrite E; by left).
      done.
Qed.

Lemma occurrences_finished v evs :
  occurrences (EvFinishVertex v) evs = length (filter (v =.) (finished evs)).
Proof.
  induction evs as [|ev evs IH]; [done|]. rewrite occurrences_cons, IH.
  destruct ev; simpl; try done.
  rewrite filter_cons. destruct (decide (v = v0)) as [->|Hne].
  - by rewrite decide_True.
  - rewrite decide_False by congruence. done.
Qed.

Section Permutations.
Context {c : DirectedCategory} {VP EP : Type} (g : AdjacencyList c VP EP).

Lemma DfsProtocol_outside evs v :
  DfsProtocol g evs → numVertices g ≤ v →
  occurrences (EvDiscoverVertex v) evs = 0 ∧ occurrences (EvFinishVertex v) evs = 0.
Proof.
  intros (body & st' & -> & HR) Hv.
  destruct (VisitRoots_counted g _ _ _ _ HR v) as [Hd Hf].
  destruct (VisitRoots_colours g _ _ _ _ HR) as (Hl & _).
  rewrite length_replicate in Hl.
  rewrite (lookup_ge_None_2 st') in Hd, Hf by lia.
  rewrite !occurrences_app, !occurrences_init by done. simpl in *. lia.
Qed.

Lemma DfsProtocol_permutation evs :
  DfsProtocol g evs →
  discovered evs ≡ₚ seq 0 (numVertices g) ∧ finished evs ≡ₚ seq 0 (numVertices g).
Proof.
  intros HP. split; apply count_one_Permutation; intros v.
  - rewrite <- occurrences_discovered. destruct (decide (v < numVertices g)) as [Hv|Hv].
    + by destruct (DfsProtocol_vertices g evs v HP Hv).
    + destruct (DfsProtocol_outside evs v HP); [lia|done].
  - rewrite <- occurrences_finished. destruct (decide (v < numVertices g)) as [Hv|Hv].
    + by destruct (DfsProtocol_vertices g evs v HP Hv).
    + destruct (DfsProtocol_outside evs v HP); [lia|done].
Qed.

Lemma Visit_sizes :
  (∀ st u evs st', Visit g st u evs st' →
     length (discovered evs) = S (length (tree_edges evs))) ∧
  (∀ st es evs st', VisitEdges g st es evs st' →
     length (discovered evs) = length (tree_edges evs)).
Proof.
  apply Visit_VisitEdges_ind.
  - intros st u es evs st' _ _ _ IH. obs_simpl. forest_simpl. simpl.
    obs_simpl. forest_simpl. simpl. by rewrite IH.
  - intros st. done.
  - intros st e es evs1 st1 evs2 st2 _ _ IH1 _ IH2.
    obs_simpl. forest_simpl. simpl. obs_simpl. forest_simpl. simpl.
    obs_simpl. forest_simpl. rewrite !length_app, IH1, IH2. simpl. lia.
  - intros st e es evs2 st2 _ _ IH2.
    obs_simpl. forest_simpl. simpl. obs_simpl. forest_simpl. simpl.
    obs_simpl. forest_simpl. done.
  - intros st e es evs2 st2 _ _ IH2.
    obs_simpl. forest_simpl. simpl. obs_simpl. forest_simpl. simpl.
    obs_simpl. forest_simpl. done.
Qed.

Lemma VisitRoots_sizes st vs evs st' :
  VisitRoots g st vs evs st' →
  length (discovered evs) = length (roots evs) + length (tree_edges evs).
Proof.
  induction 1 as [st|st v0 vs evs1 st1 evs2 st2 Hv HV HR IH|st v0 vs cv evs st2 _ _ _ IH].
  - done.
  - destruct (proj1 (Visit_entries g 0) _ _ _ _ HV) as [Hr1 _].
    pose proof (proj1 Visit_sizes _ _ _ _ HV) as Hs.
    obs_simpl. forest_simpl. rewrite Hr1. simpl.
    rewrite !length_app, Hs, IH. lia.
  - done.
Qed.

Lemma DfsProtocol_sizes evs :
  DfsProtocol g evs →
  length (roots evs) + length (tree_edges evs) = numVertices g.
Proof.
  intros HP. destruct (DfsProtocol_permutation evs HP) as [Hd _].
  apply Permutation_length in Hd. rewrite length_seq in Hd. rewrite <- Hd.
  destruct HP as (body & st' & -> & HR).
  obs_simpl. forest_simpl.
  destruct (roots_init (vertices g)) as (-> & -> & _).
  rewrite (proj1 (init_events_silent _)). simpl.
  by rewrite (VisitRoots_sizes _ _ _ _ HR).
Qed.
End Permutations.

Section Reported.
Context {c : DirectedCategory} {VP EP : Type} (g : AdjacencyList c VP EP).

Lemma Visit_reported :
  (∀ st u evs st', Visit g st u evs st' →
     ∀ e, e ∈ tree_edges evs ∨ e ∈ back_edges evs → e ∈ examined evs) ∧
  (∀ st es evs st', VisitEdges g st es evs st' →
     ∀ e, e ∈ tree_edges evs ∨ e ∈ back_edges evs → e ∈ examined evs).
Proof.
  apply Visit_VisitEdges_ind.
  - intros st u es evs st' _ _ _ IH e. obs_simpl. forest_simpl. simpl.
    obs_simpl. forest_simpl. simpl. apply IH.
  - intros st e. forest_simpl. intros [?%not_elem_of_nil|?%not_elem_of_nil]; done.
  - intros st e es evs1 st1 evs2 st2 _ _ IH1 _ IH2 e'.
    obs_simpl. forest_simpl. simpl. obs_simpl. forest_simpl. simpl.
    obs_simpl. forest_simpl.
    rewrite !elem_of_cons, !elem_of_app. specialize (IH1 e'). specialize (IH2 e'). tauto.
  - intros st e es evs2 st2 _ _ IH2 e'.
    obs_simpl. forest_simpl. simpl. obs_simpl. forest_simpl. simpl.
    obs_simpl. forest_simpl.
    rewrite !elem_of_cons. specialize (IH2 e'). tauto.
  - intros st e es evs2 st2 _ _ IH2 e'.
    obs_simpl. forest_simpl. simpl. obs_simpl. forest_simpl. simpl.
    obs_simpl. forest_simpl.
    rewrite !elem_of_cons. specialize (IH2 e'). tauto.
Qed.

Lemma VisitRoots_reported st vs evs st' :
  VisitRoots g st vs evs st' →
  ∀ e, e ∈ tree_edges evs ∨ e ∈ back_edges evs → e ∈ examined evs.
Proof.
  induction 1 as [st|st v0 vs evs1 st1 evs2 st2 Hv HV HR IH|st v0 vs cv evs st2 _ _ _ IH];
    intros e.
  - forest_simpl. intros [?%not_elem_of_nil|?%not_elem_of_nil]; done.
  - pose proof (proj1 Visit_reported _ _ _ _ HV e) as H1. specialize (IH e).
    obs_simpl. forest_simpl. rewrite !elem_of_app. tauto.
  - apply IH.
Qed.

Lemma DfsProtocol_reported evs e :
  DfsProtocol g evs → e ∈ tree_edges evs ∨ e ∈ back_edges evs → e ∈ edges g.
Proof.
  intros (body & st' & -> & HR). forest_simpl.
  destruct (roots_init (vertices g)) as (_ & -> & ->). simpl.
  intros He%(VisitRoots_reported _ _ _ _ HR).
  by apply (VisitRoots_examined_edges g _ _ _ _ HR).
Qed.
End Reported.

(** X16: where a parameter lives until the end of the full-expression, in a
    traversal of a well-formed graph every vertex is entered exactly once,
    either as a root, by [startVertex], or along one tree edge that leads to
    it; so the tree edges form a forest, and there are as many of them as
    there are vertices that are no roots. *)
Theorem dfs_tree_edges_form_forest {c : DirectedCategory} {VP EP : Type}
    (g : AdjacencyList c VP EP) :
  well_formed g →
  ∃ evs, dfs_trace UntilFullExpression g = Ok evs ∧
    (∀ v, v < numVertices g →
       length (filter (v =.) (roots evs)) +
       length (filter (λ e, tar e = v) (tree_edges evs)) = 1) ∧
    (∀ e, e ∈ tree_edges evs → e ∈ edges g) ∧
    length (roots evs) + length (tree_edges evs) = numVertices g.
Proof.
  intros Hwf. destruct (dfs_trace_total g) as [evs Hevs];
    [by apply well_formed_traversable|].
  exists evs. split; [done|].
  pose proof (dfs_trace_protocol _ _ _ Hevs) as HP. split; [|split].
  - intros v Hv. fold (entries v evs). rewrite (DfsProtocol_entries g v evs HP).
    by destruct (DfsProtocol_vertices g evs v HP Hv).
  - intros e He. apply (DfsProtocol_reported g evs e HP). by left.
  - by apply DfsProtocol_sizes.
Qed.

Lemma dfs_tree_edges_form_forest_witness :
  well_formed graph1 ∧
  ∃ evs, dfs_trace UntilFullExpression graph1 = Ok evs ∧
    (∀ v, v < numVertices graph1 →
       length (filter (v =.) (roots evs)) +
       length (filter (λ e, tar e = v) (tree_edges evs)) = 1) ∧
    (∀ e, e ∈ tree_edges evs → e ∈ edges graph1) ∧
    length (roots evs) + length (tree_edges evs) = numVertices graph1.
Proof.
  split; [apply graph1_well_formed|].
  apply (dfs_tree_edges_form_forest graph1), graph1_well_formed.
Defined.

(** ** Back edges and cycles *)

Lemma colours_step_grey st st' x :
  colours_step st st' → st' !! x = Some Grey ↔ st !! x = Some Grey.
Proof.
  intros (_ & Hf & Hm). destruct (decide (st !! x = Some White)) as [HW|HW].
  - destruct (Hm x HW) as [H|H]; rewrite H, HW; split; done.
  - by rewrite (Hf x HW).
Qed.

Lemma colours_step_black st st' x :
  colours_step st st' → st !! x = Some Black → st' !! x = Some Black.
Proof. intros (_ & Hf & _) Hb. rewrite Hf; [done | by rewrite Hb]. Qed.

Lemma precedes_lookup {A} (y x : A) (fin : list A) :
  precedes y x fin ↔ ∃ i j, i < j ∧ fin !! i = Some y ∧ fin !! j = Some x.
Proof.
  split.
  - intros (l1 & l2 & -> & [i Hi]%list_elem_of_lookup).
    exists i, (length l1). pose proof (lookup_lt_Some _ _ _ Hi).
    split; [done|]. split; [by rewrite lookup_app_l | by rewrite list_lookup_middle].
  - intros (i & j & Hij & Hi & Hj).
    exists (take j fin), (drop (S j) fin). split; [by rewrite take_drop_middle|].
    apply list_elem_of_lookup. exists i. by rewrite lookup_take_lt.
Qed.

Lemma precedes_trans {A} (z y x : A) (fin : list A) :
  NoDup fin → precedes z y fin → precedes y x fin → precedes z x fin.
Proof.
  intros Hnd (i & j & Hij & Hi & Hj)%precedes_lookup
    (j' & k & Hjk & Hj' & Hk)%precedes_lookup.
  pose proof (NoDup_lookup _ _ _ _ Hnd Hj Hj'). subst j'.
  apply precedes_lookup. exists i, k. split; [lia|done].
Qed.

Lemma precedes_irrefl {A} (x : A) (fin : list A) : NoDup fin → ¬ precedes x x fin.
Proof.
  intros Hnd (i & j & Hij & Hi & Hj)%precedes_lookup.
  pose proof (NoDup_lookup _ _ _ _ Hnd Hi Hj). lia.
Qed.

Section Cycles.
Context {c : DirectedCategory} {VP EP : Type} (g : AdjacencyList c VP EP).
Context (Hcons : adjacency_consistent g).

Lemma edge_in_out_edge_sequence u es e :
  out_edge_sequence u g = Ok es → e ∈ edges g → src e = u → e ∈ es.
Proof.
  destruct Hcons as (Honce & _).
  intros Hes He <-. destruct (Honce e He) as [(es' & Hes' & Hone) _].
  rewrite Hes in Hes'. simplify_eq.
  rewrite (count_edge_structural g e es') in Hone;
    [|done|intros e'; by apply (out_edge_sequence_edges g (src e))].
  destruct (filter (e =.) es') as [|e' l] eqn:E; [done|].
  assert (e' ∈ filter (e =.) es') as [<- He']%list_elem_of_filter by (rewrite E; by left).
  done.
Qed.

(** An edge reported as a back edge closes a cycle. *)
Lemma Visit_back_edges :
  (∀ st u evs st', Visit g st u evs st' →
     (∀ x, st !! x = Some Grey → rtc (edge g) x u) →
     ∀ e, e ∈ back_edges evs → rtc (edge g) (tar e) (src e)) ∧
  (∀ st es evs st', VisitEdges g st es evs st' →
     ∀ u, (∀ e, e ∈ es → e ∈ edges g ∧ src e = u) →
          (∀ x, st !! x = Some Grey → rtc (edge g) x u) →
          ∀ e, e ∈ back_edges evs → rtc (edge g) (tar e) (src e)).
Proof.
  apply Visit_VisitEdges_ind.
  - intros st u es evs st' Hu Hes HV IH Hgrey e.
    forest_simpl. simpl. forest_simpl. simpl. apply (IH u).
    + intros e' He'. split; [by eapply out_edge_sequence_edges | by eapply (out_edge_sequence_src g Hcons)].
    + intros x. destruct (decide (u = x)) as [<-|Hne]; [done|].
      rewrite list_lookup_insert_ne by done. apply Hgrey.
  - intros st u _ _ e. forest_simpl. by intros ?%not_elem_of_nil.
  - intros st e es evs1 st1 evs2 st2 Hw HV1 IH1 HV2 IH2 u Hes Hgrey e'.
    destruct (Hes e) as [He Hsrc]; [by left|].
    forest_simpl. simpl. forest_simpl. simpl. forest_simpl.
    intros [He'|He']%elem_of_app.
    + apply IH1; [|done]. intros x Hx. eapply rtc_r; [by apply Hgrey|].
      exists e. done.
    + apply (IH2 u); [| |done].
      * intros e'' He''. apply Hes. by right.
      * intros x Hx. apply Hgrey.
        by apply (colours_step_grey _ _ x (proj1 (Visit_colours g) _ _ _ _ HV1)).
  - intros st e es evs2 st2 Hg HV2 IH2 u Hes Hgrey e'.
    destruct (Hes e) as [He Hsrc]; [by left|].
    forest_simpl. simpl. forest_simpl. simpl. forest_simpl.
    intros [->|He']%elem_of_cons.
    + rewrite Hsrc. by apply Hgrey.
    + apply (IH2 u); [|done|done]. intros e'' He''. apply Hes. by right.
  - intros st e es evs2 st2 Hb HV2 IH2 u Hes Hgrey e'.
    forest_simpl. simpl. forest_simpl. simpl. forest_simpl.
    intros He'. apply (IH2 u); [|done|done]. intros e'' He''. apply Hes. by right.
Qed.

Lemma VisitRoots_back_edges st vs evs st' :
  VisitRoots g st vs evs st' →
  (∀ x, st !! x ≠ Some Grey) →
  ∀ e, e ∈ back_edges evs → rtc (edge g) (tar e) (src e).
Proof.
  induction 1 as [st|st v vs evs1 st1 evs2 st2 Hv HV HR IH|st v vs cv evs st2 _ _ _ IH];
    intros Hgrey e.
  - forest_simpl. by intros ?%not_elem_of_nil.
  - forest_simpl. intros [He|He]%elem_of_app.
    + apply (proj1 Visit_back_edges _ _ _ _ HV); [|done].
      intros x Hx. by apply Hgrey in Hx.
    + apply IH; [|done]. intros x Hx.
      apply (colours_step_grey _ _ x (proj1 (Visit_colours g) _ _ _ _ HV)) in Hx.
      by apply (Hgrey x).
  - by apply IH.
Qed.

Lemma DfsProtocol_back_edges evs e :
  DfsProtocol g evs → e ∈ back_edges evs →
  e ∈ edges g ∧ rtc (edge g) (tar e) (src e).
Proof.
  intros HP He. split; [apply (DfsProtocol_reported g evs e HP); by right|].
  destruct HP as (body & st' & -> & HR). revert He. forest_simpl.
  destruct (roots_init (vertices g)) as (_ & _ & ->). simpl.
  apply (VisitRoots_back_edges _ _ _ _ HR).
  intros x [? _]%lookup_replicate. done.
Qed.
End Cycles.

(** ** The finish order, cycles or not *)

Section FinishOrderUpto.
Context {c : DirectedCategory} {VP EP : Type} (g : AdjacencyList c VP EP).
Context (Hcons : adjacency_consistent g) (bad : EdgeDescriptor → Prop).

Lemma finish_order_upto_grey st u fin :
  st !! u = Some White →
  finish_order_upto g bad st fin → finish_order_upto g bad (<[u:=Grey]> st) fin.
Proof.
  intros Hu (Hnd & Hmem & Hord). split; [done|]. split; [|done].
  intros v. rewrite Hmem. destruct (decide (u = v)) as [<-|Hne].
  - rewrite list_lookup_insert_eq by (by eapply lookup_lt_Some). rewrite Hu. done.
  - by rewrite list_lookup_insert_ne.
Qed.

Lemma finish_order_upto_black st u es fin :
  st !! u = Some Grey →
  out_edge_sequence u g = Ok es →
  (∀ e, e ∈ es → bad e ∨ st !! tar e = Some Black) →
  finish_order_upto g bad st fin →
  finish_order_upto g bad (<[u:=Black]> st) (fin ++ [u]).
Proof.
  intros Hu Hes Hblack (Hnd & Hmem & Hord).
  pose proof (lookup_lt_Some _ _ _ Hu) as Hlt.
  assert (u ∉ fin) as Hnot by (rewrite Hmem, Hu; done).
  split; [|split].
  - apply NoDup_app. split; [done|]. split; [|apply NoDup_singleton].
    intros x Hx ->%list_elem_of_singleton. done.
  - intros v. rewrite elem_of_app, list_elem_of_singleton, Hmem.
    destruct (decide (u = v)) as [<-|Hne].
    + rewrite list_lookup_insert_eq by done. tauto.
    + rewrite list_lookup_insert_ne by done. split; [intros [?|?]; [done|congruence] | tauto].
  - intros e He [Hx|Hx%list_elem_of_singleton]%elem_of_app.
    + destruct (Hord e He Hx) as [?|?]; [by left|]. right. by apply precedes_app_r.
    + destruct (Hblack e (edge_in_out_edge_sequence g Hcons u es e Hes He Hx)) as [?|Hb]; [by left|].
      right. rewrite Hx. exists fin, []. split; [done|]. by apply Hmem.
Qed.

Lemma Visit_finish_order_upto :
  (∀ st u evs st', Visit g st u evs st' →
     ∀ fin, (∀ e, e ∈ back_edges evs → bad e) →
            finish_order_upto g bad st fin →
            finish_order_upto g bad st' (fin ++ finished evs)) ∧
  (∀ st es evs st', VisitEdges g st es evs st' →
     ∀ fin, (∀ e, e ∈ back_edges evs → bad e) →
            finish_order_upto g bad st fin →
            finish_order_upto g bad st' (fin ++ finished evs) ∧
            (∀ e, e ∈ es → bad e ∨ st' !! tar e = Some Black)).
Proof.
  apply Visit_VisitEdges_ind.
  - intros st u es evs st' Hu Hes HV IH fin Hbad HJ.
    pose proof (lookup_lt_Some _ _ _ Hu) as Hlt.
    pose proof (proj2 (Visit_colours g) _ _ _ _ HV) as Hstep.
    destruct (IH fin) as [HJ' Hblack].
    + intros e He. apply Hbad. revert He.
      forest_simpl. simpl. forest_simpl. by simpl.
    + by apply finish_order_upto_grey.
    + obs_simpl. simpl. rewrite app_assoc.
      apply (finish_order_upto_black _ _ es); [|done|done|done].
      apply (colours_step_grey _ _ u Hstep). by apply list_lookup_insert_eq.
  - intros st fin _ HJ. obs_simpl. split; [done|].
    intros e He. by apply not_elem_of_nil in He.
  - intros st e es evs1 st1 evs2 st2 Hw HV1 IH1 HV2 IH2 fin Hbad HJ.
    pose proof (proj2 (Visit_colours g) _ _ _ _ HV2) as Hstep2.
    assert (∀ e', e' ∈ back_edges evs1 ∨ e' ∈ back_edges evs2 → bad e') as Hbad'.
    { intros e' He'. apply Hbad.
      forest_simpl. simpl. forest_simpl. simpl. forest_simpl.
      by apply elem_of_app. }
    destruct (IH2 (fin ++ finished evs1)) as [HJ2 Hblack].
    + intros e' He'. apply Hbad'. by right.
    + apply IH1; [|done]. intros e' He'. apply Hbad'. by left.
    + obs_simpl. simpl. obs_simpl. simpl. obs_simpl. rewrite app_assoc.
      split; [done|].
      intros e' [->|He']%elem_of_cons; [|by apply Hblack].
      right. apply (colours_step_black _ _ _ Hstep2). by eapply Visit_black.
  - intros st e es evs2 st2 Hg HV2 IH2 fin Hbad HJ.
    destruct (IH2 fin) as [HJ2 Hblack]; [|done|].
    + intros e' He'. apply Hbad.
      forest_simpl. simpl. forest_simpl. simpl. forest_simpl. by right.
    + obs_simpl. simpl. obs_simpl. simpl. obs_simpl. split; [done|].
      intros e' [->|He']%elem_of_cons; [|by apply Hblack].
      left. apply Hbad.
      forest_simpl. simpl. forest_simpl. simpl. forest_simpl. by left.
  - intros st e es evs2 st2 Hb HV2 IH2 fin Hbad HJ.
    pose proof (proj2 (Visit_colours g) _ _ _ _ HV2) as Hstep2.
    destruct (IH2 fin) as [HJ2 Hblack]; [|done|].
    + intros e' He'. apply Hbad.
      forest_simpl. simpl. forest_simpl. simpl. forest_simpl. done.
    + obs_simpl. simpl. obs_simpl. simpl. obs_simpl. split; [done|].
      intros e' [->|He']%elem_of_cons; [|by apply Hblack].
      right. by apply (colours_step_black _ _ _ Hstep2).
Qed.

Lemma VisitRoots_finish_order_upto st vs evs st' :
  VisitRoots g st vs evs st' →
  ∀ fin, (∀ e, e ∈ back_edges evs → bad e) →
         finish_order_upto g bad st fin →
         finish_order_upto g bad st' (fin ++ finished evs).
Proof.
  induction 1 as [st|st v vs evs1 st1 evs2 st2 Hv HV HR IH|st v vs cv evs st2 _ _ _ IH];
    intros fin Hbad HJ.
  - obs_simpl. done.
  - obs_simpl. rewrite app_assoc. apply IH.
    + intros e He. apply Hbad. forest_simpl. apply elem_of_app. by right.
    + apply (proj1 Visit_finish_order_upto _ _ _ _ HV); [|done].
      intros e He. apply Hbad. forest_simpl. apply elem_of_app. by left.
  - by apply IH.
Qed.
End FinishOrderUpto.

Section CycleDetection.
Context {c : DirectedCategory} {VP EP : Type} (g : AdjacencyList c VP EP).
Context (Hcons : adjacency_consistent g).

Lemma DfsProtocol_finish_order evs e :
  DfsProtocol g evs → e ∈ edges g →
  e ∈ back_edges evs ∨ precedes (tar e) (src e) (finished evs).
Proof.
  intros HP He. destruct HP as (body & st' & -> & HR).
  assert (∀ x, replicate (numVertices g) White !! x ≠ Some Grey) as Hgrey.
  { intros x [? _]%lookup_replicate. done. }
  destruct (VisitRoots_finish_order_upto g Hcons (λ e, e ∈ back_edges body)
              _ _ _ _ HR []) as (Hnd & Hmem & Hord); [done| |].
  { split; [constructor|]. split.
    - intros v. split; [by intros ?%not_elem_of_nil|]. by intros [? _]%lookup_replicate.
    - intros x _ Hx. by apply not_elem_of_nil in Hx. }
  simpl in *. obs_simpl. forest_simpl.
  rewrite (proj1 (proj2 (init_events_silent _))).
  destruct (roots_init (vertices g)) as (_ & _ & ->). simpl.
  apply Hord; [done|]. apply Hmem.
  destruct (VisitRoots_done g _ _ _ _ HR Hgrey) as [_ Hblack].
  destruct Hcons as (Honce & _). destruct (Honce e He) as [(es & Hes%out_edge_sequence_lt & _) _].
  apply (Hblack _ (elem_of_vertices g _ Hes)).
Qed.

Lemma no_back_edges_acyclic evs :
  DfsProtocol g evs → back_edges evs = [] → acyclic g.
Proof.
  intros HP Hnone.
  destruct (DfsProtocol_permutation g evs HP) as [_ Hperm].
  assert (NoDup (finished evs)) as Hnd by (rewrite Hperm; apply NoDup_seq).
  assert (∀ x y, tc (edge g) x y → precedes y x (finished evs)) as Htc.
  { intros x y Hxy. induction Hxy as [x y (e & He & <- & <-)|x y z (e & He & <- & <-) _ IH].
    - destruct (DfsProtocol_finish_order evs e HP He) as [Hb|?]; [|done].
      rewrite Hnone in Hb. by apply not_elem_of_nil in Hb.
    - eapply precedes_trans; [done|exact IH|].
      destruct (DfsProtocol_finish_order evs e HP He) as [Hb|?]; [|done].
      rewrite Hnone in Hb. by apply not_elem_of_nil in Hb. }
  intros v Hv%Htc. by apply (precedes_irrefl v (finished evs)).
Qed.

Lemma acyclic_no_back_edges evs :
  DfsProtocol g evs → acyclic g → back_edges evs = [].
Proof.
  intros HP Hacyclic. destruct (back_edges evs) as [|e l] eqn:E; [done|]. exfalso.
  destruct (DfsProtocol_back_edges g Hcons evs e HP) as [He Hpath];
    [rewrite E; by left|].
  apply (Hacyclic (src e)). eapply tc_rtc_r; [|exact Hpath].
  apply tc_once. by exists e.
Qed.
End CycleDetection.

(** X17: where a parameter lives until the end of the full-expression, a
    traversal of a well-formed graph calls [backEdge] exactly when the graph
    has a cycle: no call in a graph without cycles, at least one in a graph
    with one; every edge reported by [backEdge] is an edge of the graph whose
    target reaches its source, so it lies on a cycle; and every self-loop is
    reported by [backEdge]. *)
Theorem dfs_backEdge_iff_cycle {c : DirectedCategory} {VP EP : Type}
    (g : AdjacencyList c VP EP) :
  well_formed g →
  ∃ evs, dfs_trace UntilFullExpression g = Ok evs ∧
    (acyclic g ↔ back_edges evs = []) ∧
    (∀ e, e ∈ back_edges evs →
          e ∈ edges g ∧ rtc (edge g) (tar e) (src e) ∧ tc (edge g) (src e) (src e)) ∧
    (∀ e, e ∈ edges g → src e = tar e → e ∈ back_edges evs).
Proof.
  intros Hwf. destruct (dfs_trace_total g) as [evs Hevs];
    [by apply well_formed_traversable|].
  exists evs. split; [done|].
  pose proof (dfs_trace_protocol _ _ _ Hevs) as HP. destruct Hwf as [Hcons _].
  split; [split; [by apply acyclic_no_back_edges | by apply no_back_edges_acyclic]|].
  split.
  - intros e He. destruct (DfsProtocol_back_edges g Hcons evs e HP He) as [Hin Hpath].
    split; [done|]. split; [done|].
    eapply tc_rtc_r; [|exact Hpath]. apply tc_once. by exists e.
  - intros e He Hloop.
    destruct (DfsProtocol_finish_order g Hcons evs e HP He) as [?|Hpre]; [done|].
    exfalso. rewrite Hloop in Hpre.
    destruct (DfsProtocol_permutation g evs HP) as [_ Hperm].
    apply (precedes_irrefl (tar e) (finished evs)); [|done].
    rewrite Hperm. apply NoDup_seq.
Qed.

Lemma dfs_backEdge_iff_cycle_witness :
  well_formed loop_graph ∧
  ∃ evs, dfs_trace UntilFullExpression loop_graph = Ok evs ∧
    (acyclic loop_graph ↔ back_edges evs = []) ∧
    (∀ e, e ∈ back_edges evs →
          e ∈ edges loop_graph ∧ rtc (edge loop_graph) (tar e) (src e) ∧
          tc (edge loop_graph) (src e) (src e)) ∧
    (∀ e, e ∈ edges loop_graph → src e = tar e → e ∈ back_edges evs).
Proof.
  split; [apply loop_graph_well_formed|].
  apply (dfs_backEdge_iff_cycle loop_graph), loop_graph_well_formed.
Defined.

(** X18: where a parameter lives until the end of the full-expression, in a
    traversal of a well-formed graph, with or without cycles, every vertex is
    finished once, and for every edge that is not reported by [backEdge] the
    target is finished before the source. *)
Theorem dfs_finishes_targets_first {c : DirectedCategory} {VP EP : Type}
    (g : AdjacencyList c VP EP) :
  well_formed g →
  ∃ evs, dfs_trace UntilFullExpression g = Ok evs ∧
    discovered evs ≡ₚ seq 0 (numVertices g) ∧
    finished evs ≡ₚ seq 0 (numVertices g) ∧
    (∀ e, e ∈ edges g →
          e ∈ back_edges evs ∨ precedes (tar e) (src e) (finished evs)).
Proof.
  intros Hwf. destruct (dfs_trace_total g) as [evs Hevs];
    [by apply well_formed_traversable|].
  exists evs. split; [done|].
  pose proof (dfs_trace_protocol _ _ _ Hevs) as HP. destruct Hwf as [Hcons _].
  destruct (DfsProtocol_permutation g evs HP) as [Hd Hf].
  split; [done|]. split; [done|]. intros e He. by apply (DfsProtocol_finish_order g).
Qed.

Lemma dfs_finishes_targets_first_witness :
  well_formed loop_graph ∧
  ∃ evs, dfs_trace UntilFullExpression loop_graph = Ok evs ∧
    discovered evs ≡ₚ seq 0 (numVertices loop_graph) ∧
    finished evs ≡ₚ seq 0 (numVertices loop_graph) ∧
    (∀ e, e ∈ edges loop_graph →
          e ∈ back_edges evs ∨ precedes (tar e) (src e) (finished evs)).
Proof.
  split; [apply loop_graph_well_formed|].
  apply (dfs_finishes_targets_first loop_graph), loop_graph_well_formed.
Defined.

(** ** A visit reaches what can be reached *)

Lemma tc_subrel {A} (R1 R2 : relation A) x y :
  (∀ x y, R1 x y → R2 x y) → tc R1 x y → tc R2 x y.
Proof.
  intros Hsub. induction 1 as [x y H|x y z H _ IH].
  - by apply tc_once, Hsub.
  - eapply tc_l; [by apply Hsub | done].
Qed.

Lemma colours_step_white st st' x :
  colours_step st st' → st' !! x = Some White → st !! x = Some White.
Proof.
  intros (_ & Hf & _) Hw. destruct (decide (st !! x = Some White)) as [|Hn]; [done|].
  by rewrite <- (Hf x Hn).
Qed.

Lemma colours_step_not_white st st' x :
  colours_step st st' → st !! x ≠ Some White → st' !! x ≠ Some White.
Proof. intros (_ & Hf & _) Hn. by rewrite (Hf x Hn). Qed.

Section Reach.
Context {c : DirectedCategory} {VP EP : Type} (g : AdjacencyList c VP EP).
Context (Hcons : adjacency_consistent g).

Lemma white_step_edge st x y : white_step g st x y → edge g x y.
Proof. by intros [? _]. Qed.

Lemma white_step_mono st st' x y :
  colours_step st st' → white_step g st' x y → white_step g st x y.
Proof. intros Hstep [He Hw]. split; [done|]. by eapply colours_step_white. Qed.

Lemma white_path_white st u v :
  st !! u = Some White → rtc (white_step g st) u v → st !! v = Some White.
Proof. intros Hu Huv. destruct (rtc_inv_r _ _ Huv) as [<-|(y & _ & _ & ?)]; done. Qed.

(** What a visit turns Done was reachable through Unvisited vertices. *)
Lemma Visit_reaches :
  (∀ st u evs st', Visit g st u evs st' →
     ∀ v, st !! v = Some White → st' !! v = Some Black →
          rtc (white_step g st) u v) ∧
  (∀ st es evs st', VisitEdges g st es evs st' →
     ∀ u, (∀ e, e ∈ es → e ∈ edges g ∧ src e = u) →
     ∀ v, st !! v = Some White → st' !! v = Some Black →
          tc (white_step g st) u v).
Proof.
  apply Visit_VisitEdges_ind.
  - intros st u es evs st' Hu Hes HV IH v Hv Hv'.
    destruct (decide (u = v)) as [<-|Hne]; [done|].
    rewrite list_lookup_insert_ne in Hv' by done.
    apply tc_rtc. eapply (tc_subrel (white_step g (<[u:=Grey]> st))).
    + intros x y [He Hw]. split; [done|].
      destruct (decide (u = y)) as [<-|Hny].
      * rewrite list_lookup_insert_eq in Hw by (by eapply lookup_lt_Some). done.
      * by rewrite list_lookup_insert_ne in Hw.
    + apply IH; [|by rewrite list_lookup_insert_ne|done].
      intros e He. split; [by eapply out_edge_sequence_edges | by eapply (out_edge_sequence_src g Hcons)].
  - intros st u _ v Hv Hv'. congruence.
  - intros st e es evs1 st1 evs2 st2 Hw HV1 IH1 HV2 IH2 u Hes v Hv Hv'.
    destruct (Hes e) as [He Hsrc]; [by left|].
    pose proof (proj1 (Visit_colours g) _ _ _ _ HV1) as Hstep1.
    destruct (decide (st1 !! v = Some Black)) as [Hb|Hb].
    + eapply tc_rtc_r; [|by apply IH1]. apply tc_once. split; [by exists e | done].
    + destruct Hstep1 as (Hl1 & Hf1 & Hm1). destruct (Hm1 v Hv) as [Hw1|?]; [|done].
      eapply (tc_subrel (white_step g st1)).
      * intros x y. by apply white_step_mono.
      * apply IH2; [|done|done]. intros e' He'. apply Hes. by right.
  - intros st e es evs2 st2 Hg HV2 IH2 u Hes v Hv Hv'.
    apply IH2; [|done|done]. intros e' He'. apply Hes. by right.
  - intros st e es evs2 st2 Hb HV2 IH2 u Hes v Hv Hv'.
    apply IH2; [|done|done]. intros e' He'. apply Hes. by right.
Qed.

(** When a visit returns, no edge leads from a vertex it turned Done to
    an Unvisited one. *)
Lemma Visit_closed :
  (∀ st u evs st', Visit g st u evs st' →
     ∀ x e, st !! x = Some White → st' !! x = Some Black →
            e ∈ edges g → src e = x → st' !! tar e ≠ Some White) ∧
  (∀ st es evs st', VisitEdges g st es evs st' →
     (∀ e, e ∈ es → st' !! tar e ≠ Some White) ∧
     (∀ x e, st !! x = Some White → st' !! x = Some Black →
             e ∈ edges g → src e = x → st' !! tar e ≠ Some White)).
Proof.
  apply Visit_VisitEdges_ind.
  - intros st u es evs st' Hu Hes HV [IHes IH] x e Hx Hx' He Hsrc.
    assert (st' !! tar e ≠ Some White) as Hnw.
    { destruct (decide (u = x)) as [<-|Hne].
      - apply IHes. by eapply edge_in_out_edge_sequence.
      - rewrite list_lookup_insert_ne in Hx' by done.
        apply (IH x e); [by rewrite list_lookup_insert_ne|done|done|done]. }
    destruct (proj2 (Visit_colours g) _ _ _ _ HV) as (Hl & _).
    rewrite length_insert in Hl. pose proof (lookup_lt_Some _ _ _ Hu) as Hlt.
    destruct (decide (u = tar e)) as [<-|Hne].
    + rewrite list_lookup_insert_eq by lia. done.
    + by rewrite list_lookup_insert_ne.
  - intros st. split; [by intros e ?%not_elem_of_nil|]. intros x e Hx Hx'. congruence.
  - intros st e es evs1 st1 evs2 st2 Hw HV1 IH1 HV2 [IHes IH2].
    pose proof (proj1 (Visit_colours g) _ _ _ _ HV1) as Hstep1.
    pose proof (proj2 (Visit_colours g) _ _ _ _ HV2) as Hstep2.
    split.
    + intros e' [->|He']%elem_of_cons; [|by apply IHes].
      apply (colours_step_not_white _ _ _ Hstep2).
      rewrite (Visit_black g _ _ _ _ HV1). done.
    + intros x e' Hx Hx' He' Hsrc.
      destruct (decide (st1 !! x = Some Black)) as [Hb|Hb].
      * apply (colours_step_not_white _ _ _ Hstep2). by apply (IH1 x e').
      * destruct Hstep1 as (_ & _ & Hm1). destruct (Hm1 x Hx) as [Hw1|?]; [|done].
        by apply (IH2 x e').
  - intros st e es evs2 st2 Hg HV2 [IHes IH2].
    pose proof (proj2 (Visit_colours g) _ _ _ _ HV2) as Hstep2.
    split; [|done].
    intros e' [->|He']%elem_of_cons; [|by apply IHes].
    apply (colours_step_not_white _ _ _ Hstep2). by rewrite Hg.
  - intros st e es evs2 st2 Hb HV2 [IHes IH2].
    pose proof (proj2 (Visit_colours g) _ _ _ _ HV2) as Hstep2.
    split; [|done].
    intros e' [->|He']%elem_of_cons; [|by apply IHes].
    apply (colours_step_not_white _ _ _ Hstep2). by rewrite Hb.
Qed.

(** What was reachable through Unvisited vertices is Done after the visit. *)
Lemma Visit_reached st u evs st' v :
  Visit g st u evs st' → rtc (white_step g st) u v → st' !! v = Some Black.
Proof.
  intros HV Huv. pose proof (Visit_white g _ _ _ _ HV) as Hu.
  revert v Huv. apply (rtc_ind_r (λ v, st' !! v = Some Black)).
  - by eapply Visit_black.
  - intros y v Huy [(e & He & Hs & Ht) Hv] IH.
    pose proof (white_path_white _ _ _ Hu Huy) as Hy.
    pose proof (proj1 Visit_closed _ _ _ _ HV y e Hy IH He Hs) as Hnw.
    rewrite Ht in Hnw.
    destruct (proj1 (Visit_colours g) _ _ _ _ HV) as (_ & _ & Hm).
    destruct (Hm v Hv); done.
Qed.

Lemma Visit_discovered_iff st u evs st' v :
  Visit g st u evs st' →
  v ∈ discovered evs ↔ st !! v = Some White ∧ st' !! v = Some Black.
Proof.
  intros HV. destruct (proj1 (Visit_counted g) _ _ _ _ HV v) as [Hd _].
  pose proof (proj1 (Visit_colours g) _ _ _ _ HV) as Hstep.
  rewrite occurrences_discovered in Hd. split.
  - intros Hin.
    assert (v ∈ filter (v =.) (discovered evs)) as Hf by (by apply list_elem_of_filter).
    destruct (filter (v =.) (discovered evs)) as [|x l]; [by apply not_elem_of_nil in Hf|].
    simpl in Hd. destruct Hstep as (Hl & Hf' & Hm).
    destruct (st !! v) as [[]|] eqn:E; simpl in Hd.
    + destruct (Hm v E) as [Hw|Hb]; [rewrite Hw in Hd; simpl in Hd; lia | done].
    + destruct (st' !! v) as [[]|]; simpl in Hd; lia.
    + destruct (st' !! v) as [[]|]; simpl in Hd; lia.
    + apply lookup_ge_None_1 in E. rewrite (lookup_ge_None_2 st') in Hd by lia.
      simpl in Hd. lia.
  - intros [Hw Hb]. rewrite Hw, Hb in Hd. simpl in Hd.
    destruct (filter (v =.) (discovered evs)) as [|x l] eqn:E; [simpl in Hd; lia|].
    assert (x ∈ filter (v =.) (discovered evs)) as [<- ?]%list_elem_of_filter
      by (rewrite E; by left).
    done.
Qed.
End Reach.

Lemma Visit_finished_iff {c VP EP} (g : AdjacencyList c VP EP) st u evs st' v :
  Visit g st u evs st' →
  v ∈ finished evs ↔ st !! v = Some White ∧ st' !! v = Some Black.
Proof.
  intros HV. destruct (proj1 (Visit_counted g) _ _ _ _ HV v) as [_ Hd].
  pose proof (proj1 (Visit_colours g) _ _ _ _ HV) as Hstep.
  rewrite occurrences_finished in Hd. split.
  - intros Hin.
    assert (v ∈ filter (v =.) (finished evs)) as Hf by (by apply list_elem_of_filter).
    destruct (filter (v =.) (finished evs)) as [|x l]; [by apply not_elem_of_nil in Hf|].
    simpl in Hd. destruct Hstep as (Hl & Hf' & Hm).
    destruct (st !! v) as [[]|] eqn:E; simpl in Hd.
    + destruct (Hm v E) as [Hw|Hb]; [rewrite Hw in Hd; simpl in Hd; lia | done].
    + rewrite (Hf' v) in Hd by (by rewrite E). rewrite E in Hd. simpl in Hd. lia.
    + destruct (st' !! v) as [[]|]; simpl in Hd; lia.
    + apply lookup_ge_None_1 in E. rewrite (lookup_ge_None_2 st') in Hd by lia.
      simpl in Hd. lia.
  - intros [Hw Hb]. rewrite Hw, Hb in Hd. simpl in Hd.
    destruct (filter (v =.) (finished evs)) as [|x l] eqn:E; [simpl in Hd; lia|].
    assert (x ∈ filter (v =.) (finished evs)) as [<- ?]%list_elem_of_filter
      by (rewrite E; by left).
    done.
Qed.

(** X19: where a parameter lives until the end of the full-expression,
    [dfsVisit] on an Unvisited vertex [u] of a well-formed graph discovers
    exactly the vertices that can be reached from [u] along edges through
    Unvisited vertices, finishes each of them before it returns and leaves
    them Done; the vertices that were Active or Done before stay so. *)
Theorem dfsVisit_discovers_reachable {c : DirectedCategory} {VP EP : Type}
    (fuel : nat) (u : VertexDescriptor) (m : Memory c VP EP (list Event)) :
  well_formed (mem_graph m) →
  length (mem_colour m) = numVertices (mem_graph m) →
  mem_colour m !! u = Some White →
  whites (mem_colour m) ≤ fuel →
  ∃ evs st',
    dfsVisit UntilFullExpression fuel RecordingVisitor tt u m =
      Ok (mkMemory (mem_graph m) st' (mem_world m ++ evs)) ∧
    ∀ v, (v ∈ discovered evs ↔ rtc (white_step (mem_graph m) (mem_colour m)) u v) ∧
         (v ∈ finished evs ↔ v ∈ discovered evs) ∧
         (st' !! v = Some Black ↔
          mem_colour m !! v = Some Black ∨ v ∈ discovered evs) ∧
         (st' !! v = Some Grey ↔ mem_colour m !! v = Some Grey).
Proof.
  intros Hwf Hl Hu Hw. pose proof (well_formed_traversable _ Hwf) as Ht.
  destruct Hwf as [Hcons _].
  destruct (dfsVisit_total fuel u m) as [m' Hm']; [by split|done|done|].
  destruct (dfsVisit_sound _ _ _ _ _ Hu Hm') as (evs & Hg & Hw' & HV).
  exists evs, (mem_colour m'). split.
  { rewrite Hm'. f_equal. destruct m'. simpl in *. by subst. }
  pose proof (proj1 (Visit_colours _) _ _ _ _ HV) as Hstep.
  intros v. split; [|split; [|split]].
  - rewrite (Visit_discovered_iff _ _ _ _ _ v HV). split.
    + intros [Hv Hv']. by apply (proj1 (Visit_reaches _ Hcons) _ _ _ _ HV).
    + intros Hpath. split; [by eapply white_path_white|].
      by apply (Visit_reached _ Hcons _ _ _ _ v HV).
  - by rewrite (Visit_finished_iff _ _ _ _ _ v HV), (Visit_discovered_iff _ _ _ _ _ v HV).
  - rewrite (Visit_discovered_iff _ _ _ _ _ v HV). split.
    + intros Hb. destruct (decide (mem_colour m !! v = Some White)) as [HW|HW]; [by right|].
      left. destruct Hstep as (_ & Hf & _). by rewrite <- (Hf v HW).
    + intros [Hb|[_ Hb]]; [by apply (colours_step_black _ _ _ Hstep) | done].
  - by apply colours_step_grey.
Qed.

Lemma dfsVisit_discovers_reachable_witness :
  (well_formed loop_graph ∧
   length (replicate 3 White) = numVertices loop_graph ∧
   replicate 3 White !! 0 = Some White ∧
   whites (replicate 3 White) ≤ 3) ∧
  ∃ evs st',
    dfsVisit UntilFullExpression 3 RecordingVisitor tt 0
      (mkMemory loop_graph (replicate 3 White) []) =
      Ok (mkMemory loop_graph st' ([] ++ evs)) ∧
    ∀ v, (v ∈ discovered evs ↔ rtc (white_step loop_graph (replicate 3 White)) 0 v) ∧
         (v ∈ finished evs ↔ v ∈ discovered evs) ∧
         (st' !! v = Some Black ↔
          replicate 3 White !! v = Some Black ∨ v ∈ discovered evs) ∧
         (st' !! v = Some Grey ↔ replicate 3 White !! v = Some Grey).
Proof.
  assert (whites (replicate 3 White) ≤ 3) as Hw by (rewrite whites_replicate; lia).
  split.
  - split; [apply loop_graph_well_formed|]. split; [reflexivity|].
    split; [reflexivity|]. exact Hw.
  - apply (dfsVisit_discovers_reachable 3 0 (mkMemory loop_graph (replicate 3 White) []));
      [apply loop_graph_well_formed | reflexivity | reflexivity | exact Hw].
Defined.

(** ** The roots of the trees *)

Section Roots.
Context {c : DirectedCategory} {VP EP : Type} (g : AdjacencyList c VP EP).
Context (Hcons : adjacency_consistent g) (Hvalid : targets_valid g).

Lemma edge_target_lt x y : edge g x y → y < numVertices g.
Proof. intros (e & He & _ & <-). by apply Hvalid. Qed.

Lemma reachable_lt d x : d < numVertices g → rtc (edge g) d x → x < numVertices g.
Proof.
  intros Hd Hdx. destruct (rtc_inv_r _ _ Hdx) as [<-|(y & _ & Hyx)]; [done|].
  by eapply edge_target_lt.
Qed.

(** A vertex reachable from [k] is reachable through Unvisited vertices, or
    Done already, when the Done vertices are closed under edges. *)
Lemma reachable_white_or_black st k x :
  length st = numVertices g →
  (∀ y, st !! y ≠ Some Grey) →
  (∀ y z, st !! y = Some Black → edge g y z → st !! z = Some Black) →
  rtc (edge g) k x →
  rtc (white_step g st) k x ∨ st !! x = Some Black.
Proof.
  intros Hl Hgrey Hclosed. revert x.
  apply (rtc_ind_r (λ x, rtc (white_step g st) k x ∨ st !! x = Some Black)).
  - by left.
  - intros y x _ Hyx [Hky|Hb]; [|right; by eapply Hclosed].
    pose proof (edge_target_lt _ _ Hyx) as Hx. rewrite <- Hl in Hx.
    destruct (lookup_lt_is_Some_2 st x Hx) as [[] Hc].
    + left. eapply rtc_r; [done|]. by split.
    + by apply Hgrey in Hc.
    + by right.
Qed.

Lemma VisitRoots_roots st vs evs st' :
  VisitRoots g st vs evs st' →
  ∀ k j, vs = mkCountingIterator <$> seq k j →
         k + j = numVertices g →
         length st = numVertices g →
         (∀ x, st !! x ≠ Some Grey) →
         (∀ x, st !! x = Some Black ↔
               x < numVertices g ∧ ∃ d, d < k ∧ rtc (edge g) d x) →
  ∀ v, v ∈ roots evs ↔
       k ≤ v ∧ v < numVertices g ∧ ∀ d, d < v → ¬ rtc (edge g) d v.
Proof.
  induction 1 as [st|st v0 vs evs1 st1 evs2 st2 Hv HV HR IH|st v0 vs cv evs st2 Hv Hcv HR IH];
    intros k j Hvs Hkj Hl Hgrey Hblack v.
  - destruct j; [|done]. forest_simpl. split; [by intros ?%not_elem_of_nil|].
    intros (? & ? & _). lia.
  - destruct j as [|j]; [done|]. simpl in Hvs. injection Hvs as -> ->. simpl in *.
    pose proof (proj1 (Visit_colours g) _ _ _ _ HV) as Hstep.
    destruct (proj1 (Visit_entries g 0) _ _ _ _ HV) as [Hr1 _].
    forest_simpl. rewrite Hr1. simpl. rewrite elem_of_cons.
    assert (∀ y z, st !! y = Some Black → edge g y z → st !! z = Some Black) as Hclosed.
    { intros y z (Hy & d & Hd & Hdy)%Hblack Hyz. apply Hblack.
      split; [by eapply edge_target_lt|]. exists d. split; [done|].
      by eapply rtc_r. }
    assert (∀ d, d < k → ¬ rtc (edge g) d k) as Hk.
    { intros d Hd Hdk. assert (st !! k = Some Black) as Hb; [|congruence].
      apply Hblack. split; [lia|]. eauto. }
    rewrite (IH (S k) j eq_refl); [| lia | by destruct Hstep as (-> & _) | |].
    + split.
      * intros [->|(? & ? & ?)]; [|split; [lia|done]].
        split; [done|]. split; [lia|done].
      * intros (Hkv & Hvn & Hnone).
        destruct (decide (v = k)) as [->|Hne]; [by left|]. right.
        split; [lia|done].
    + intros x Hx. apply (colours_step_grey _ _ x Hstep) in Hx. by apply (Hgrey x).
    + intros x. split.
      * intros Hb. assert (x < numVertices g) as Hx.
        { apply lookup_lt_Some in Hb. destruct Hstep as (Hl1 & _). lia. }
        split; [done|].
        destruct (decide (st !! x = Some Black)) as [Hb0|Hb0].
        -- apply Hblack in Hb0 as (_ & d & Hd & Hdx). exists d. split; [lia|done].
        -- exists k. split; [lia|].
           rewrite <- Hl in Hx. destruct (lookup_lt_is_Some_2 st x Hx) as [[] Hc].
           ++ eapply rtc_subrel; [|by apply (proj1 (Visit_reaches g Hcons) _ _ _ _ HV)].
              intros y z. apply white_step_edge.
           ++ by apply Hgrey in Hc.
           ++ done.
      * intros (Hx & d & Hd & Hdx).
        destruct (decide (d = k)) as [->|Hne].
        -- destruct (reachable_white_or_black st k x Hl Hgrey Hclosed Hdx) as [Hp|Hb].
           ++ by apply (Visit_reached g Hcons _ _ _ _ x HV).
           ++ by apply (colours_step_black _ _ _ Hstep).
        -- apply (colours_step_black _ _ _ Hstep). apply Hblack.
           split; [done|]. exists d. split; [lia|done].
  - destruct j as [|j]; [done|]. simpl in Hvs. injection Hvs as -> ->. simpl in *.
    assert (st !! k = Some Black) as Hkb.
    { destruct cv; [done| |done]. by apply Hgrey in Hv. }
    apply Hblack in Hkb as (Hkn & d0 & Hd0 & Hd0k).
    rewrite (IH (S k) j eq_refl); [| lia | done | done |].
    + split.
      * intros (? & ? & ?). split; [lia|done].
      * intros (Hkv & Hvn & Hnone).
        destruct (decide (v = k)) as [->|Hne]; [by apply Hnone in Hd0k|].
        split; [lia|done].
    + intros x. rewrite Hblack. split.
      * intros (Hx & d & Hd & Hdx). split; [done|]. exists d. split; [lia|done].
      * intros (Hx & d & Hd & Hdx). split; [done|].
        destruct (decide (d = k)) as [->|Hne].
        -- exists d0. split; [done|]. by etrans.
        -- exists d. split; [lia|done].
Qed.

Lemma DfsProtocol_roots evs v :
  DfsProtocol g evs →
  v ∈ roots evs ↔ v < numVertices g ∧ ∀ d, d < v → ¬ rtc (edge g) d v.
Proof.
  intros (body & st' & -> & HR). forest_simpl.
  destruct (roots_init (vertices g)) as (-> & _ & _). simpl.
  rewrite (VisitRoots_roots _ _ _ _ HR 0 (numVertices g) eq_refl).
  - split; [by intros (_ & ? & ?) | intros [? ?]; split; [lia|done]].
  - done.
  - apply length_replicate.
  - intros x [? _]%lookup_replicate. done.
  - intros x. split; [by intros [? _]%lookup_replicate | intros (_ & d & Hd & _); lia].
Qed.
End Roots.

Lemma VisitRoots_roots_sublist {c VP EP} (g : AdjacencyList c VP EP) st vs evs st' :
  VisitRoots g st vs evs st' → roots evs `sublist_of` (base <$> vs).
Proof.
  induction 1 as [st|st v0 vs evs1 st1 evs2 st2 Hv HV HR IH|st v0 vs cv evs st2 _ _ _ IH].
  - constructor.
  - destruct (proj1 (Visit_entries g 0) _ _ _ _ HV) as [Hr1 _].
    forest_simpl. rewrite Hr1. simpl. by constructor.
  - simpl. by constructor.
Qed.

Lemma DfsProtocol_roots_sublist {c VP EP} (g : AdjacencyList c VP EP) evs :
  DfsProtocol g evs → roots evs `sublist_of` seq 0 (numVertices g).
Proof.
  intros (body & st' & -> & HR). forest_simpl.
  destruct (roots_init (vertices g)) as (-> & _ & _). simpl.
  pose proof (VisitRoots_roots_sublist g _ _ _ _ HR) as Hsub.
  unfold vertices in Hsub. rewrite <- list_fmap_compose in Hsub.
  assert (∀ l : list nat, base ∘ mkCountingIterator <$> l = l) as Hid.
  { induction l as [|x l IHl]; [done|]. rewrite fmap_cons. by f_equal. }
  by rewrite Hid in Hsub.
Qed.

(** X20: where a parameter lives until the end of the full-expression, [dfs]
    on a well-formed graph calls [startVertex] for exactly the vertices that
    cannot be reached from a vertex with a smaller descriptor, in ascending
    order: a vertex starts a tree of its own when no earlier tree has reached
    it. *)
Theorem dfs_roots_are_unreached_vertices {c : DirectedCategory} {VP EP : Type}
    (g : AdjacencyList c VP EP) :
  well_formed g →
  ∃ evs, dfs_trace UntilFullExpression g = Ok evs ∧
    (∀ v, v ∈ roots evs ↔ v < numVertices g ∧ ∀ d, d < v → ¬ rtc (edge g) d v) ∧
    roots evs `sublist_of` seq 0 (numVertices g) ∧
    (∀ v, EvStartVertex (mkCountingIterator v) ∈ evs ↔ v ∈ roots evs).
Proof.
  intros Hwf. destruct (dfs_trace_total g) as [evs Hevs];
    [by apply well_formed_traversable|].
  exists evs. split; [done|].
  pose proof (dfs_trace_protocol _ _ _ Hevs) as HP. destruct Hwf as [Hcons Hvalid].
  split; [intros v; by apply DfsProtocol_roots|].
  split; [by apply DfsProtocol_roots_sublist|].
  intros v. unfold roots. rewrite list_elem_of_omap. split.
  - intros Hin. by exists (EvStartVertex (mkCountingIterator v)).
  - intros (ev & Hin & Hev). destruct ev; try done. destruct v0. by simplify_eq/=.
Qed.

Lemma dfs_roots_are_unreached_vertices_witness :
  well_formed graph1 ∧
  ∃ evs, dfs_trace UntilFullExpression graph1 = Ok evs ∧
    (∀ v, v ∈ roots evs ↔
          v < numVertices graph1 ∧ ∀ d, d < v → ¬ rtc (edge graph1) d v) ∧
    roots evs `sublist_of` seq 0 (numVertices graph1) ∧
    (∀ v, EvStartVertex (mkCountingIterator v) ∈ evs ↔ v ∈ roots evs).
Proof.
  split; [apply graph1_well_formed|].
  apply (dfs_roots_are_unreached_vertices graph1), graph1_well_formed.
Defined.

(** ** What [topoSort] writes, through any output iterator *)

Section TopoAny.
Context {c : DirectedCategory} {VP EP : Type} {OIter Out : Type}.
Context `{OutputIterator VP EP OIter Out} (oIter : OIter) (out : Out).

(** [TopoVisitor] hands on the iterator it was built with and never
    advances it: every copy of the visitor holds the same iterator, and
    what has been assigned through it are the vertices finished so far. *)
Lemma TopoVisitor_related :
  related_visitors
    (λ (iter : OIter) (_ : unit), iter = oIter)
    (λ (o : Out) (log : list Event),
       o = foldl (λ o v, (iter_assign oIter v o).1) out (finished log))
    (TopoVisitor : Visitor c VP EP OIter Out)
    (RecordingVisitor : Visitor c VP EP unit (list Event)).
Proof.
  repeat split; simpl; try done;
    try (rewrite finished_app; simpl; by rewrite app_nil_r).
  subst. rewrite finished_app, foldl_app. done.
Qed.

Lemma topoSort_any pl (g : AdjacencyList c VP EP) evs :
  dfs_trace pl g = Ok evs →
  ∃ g', topoSort pl g oIter out =
          Ok (g', foldl (λ o v, (iter_assign oIter v o).1) out (finished evs)) ∧
        structure g' = structure g.
Proof.
  unfold dfs_trace, topoSort. intros (r' & Hr' & [= <-])%bind_Ok.
  pose proof (dfs_run TopoVisitor RecordingVisitor _ _ TopoVisitor_related pl
                oIter tt g g out [] eq_refl eq_refl eq_refl) as Hrel.
  rewrite Hr' in Hrel. inversion Hrel as [r b [_ Hw] Hr Hb| |]. subst b.
  symmetry in Hr. exists r.1. split; [|by eapply dfs_structure].
  f_equal. destruct r. simpl in *. by subst.
Qed.

Lemma TopoVisitor_writes (P : option (PayloadUpdate VP EP) → Prop) :
  P None → (∀ iter v o, P (iter_assign iter v o).2) →
  visitor_writes P (TopoVisitor : Visitor c VP EP OIter Out).
Proof. intros HN Hiter. repeat split; intros; simpl; done. Qed.
End TopoAny.

Lemma topoSort_finished {c VP EP} pl (g : AdjacencyList c VP EP) evs out :
  dfs_trace pl g = Ok evs →
  topoSort pl g back_inserter out = Ok (g, out ++ finished evs).
Proof.
  intros Hevs. destruct (topoSort_any back_inserter out pl g evs Hevs) as (g' & Hr & _).
  assert (g' = g) as ->.
  { unfold topoSort in Hr. apply dfs_graph in Hr; [done|].
    by apply TopoVisitor_writes. }
  rewrite Hr. f_equal. f_equal. clear.
  generalize (finished evs). intros l. revert out.
  induction l as [|v l IH]; intros out; simpl; [by rewrite app_nil_r|].
  rewrite IH. unfold iter_assign, back_insert_iterator_output. simpl.
  by rewrite <- app_assoc.
Qed.

(** X21: where a parameter lives until the end of the full-expression,
    [topoSort] on a well-formed graph, with or without cycles, returns and
    has assigned every vertex once, in the order in which the vertices were
    finished, each time through the very iterator it was called with:
    [TopoVisitor] never advances the iterator, so the output depends on the
    iterator advancing itself on assignment.  With [std::back_inserter] the
    finished vertices are appended and the graph is returned as it was. *)
Theorem topoSort_assigns_finish_order {c : DirectedCategory} {VP EP : Type}
    (g : AdjacencyList c VP EP) :
  well_formed g →
  ∃ evs, dfs_trace UntilFullExpression g = Ok evs ∧
    finished evs ≡ₚ seq 0 (numVertices g) ∧
    (∀ (OIter Out : Type) (O : OutputIterator VP EP OIter Out) (oIter : OIter) (out : Out),
       ∃ g', topoSort UntilFullExpression g oIter out =
               Ok (g', foldl (λ o v, (iter_assign oIter v o).1) out (finished evs)) ∧
             structure g' = structure g) ∧
    (∀ out, topoSort UntilFullExpression g back_inserter out = Ok (g, out ++ finished evs)).
Proof.
  intros Hwf. destruct (dfs_trace_total g) as [evs Hevs];
    [by apply well_formed_traversable|].
  exists evs. split; [done|].
  pose proof (dfs_trace_protocol _ _ _ Hevs) as HP.
  split; [by destruct (DfsProtocol_permutation g evs HP)|]. split.
  - intros OIter Out O oIter out. by apply topoSort_any.
  - intros out. by apply topoSort_finished.
Qed.

Lemma topoSort_assigns_finish_order_witness :
  well_formed loop_graph ∧
  ∃ evs, dfs_trace UntilFullExpression loop_graph = Ok evs ∧
    finished evs ≡ₚ seq 0 (numVertices loop_graph) ∧
    (∀ (OIter Out : Type) (O : OutputIterator NoProp NoProp OIter Out)
       (oIter : OIter) (out : Out),
       ∃ g', topoSort UntilFullExpression loop_graph oIter out =
               Ok (g', foldl (λ o v, (iter_assign oIter v o).1) out (finished evs)) ∧
             structure g' = structure loop_graph) ∧
    (∀ out, topoSort UntilFullExpression loop_graph back_inserter out =
            Ok (loop_graph, out ++ finished evs)).
Proof.
  split; [apply loop_graph_well_formed|].
  apply (topoSort_assigns_finish_order loop_graph), loop_graph_well_formed.
Defined.

(** ** The number of callbacks *)

Section CallbackCount.
Context {c : DirectedCategory} {VP EP : Type} (g : AdjacencyList c VP EP).

Lemma Visit_length :
  (∀ st u evs st', Visit g st u evs st' →
     length evs = 2 * length (discovered evs) + 3 * length (examined evs)) ∧
  (∀ st es evs st', VisitEdges g st es evs st' →
     length evs = 2 * length (discovered evs) + 3 * length (examined evs)).
Proof.
  apply Visit_VisitEdges_ind.
  - intros st u es evs st' _ _ _ IH. obs_simpl. simpl. obs_simpl. simpl.
    rewrite length_app, IH. simpl. lia.
  - intros st. done.
  - intros st e es evs1 st1 evs2 st2 _ _ IH1 _ IH2.
    obs_simpl. simpl. obs_simpl. simpl. obs_simpl.
    rewrite !length_app. simpl. rewrite IH1, IH2. lia.
  - intros st e es evs2 st2 _ _ IH2.
    obs_simpl. simpl. obs_simpl. simpl. obs_simpl. rewrite IH2. lia.
  - intros st e es evs2 st2 _ _ IH2.
    obs_simpl. simpl. obs_simpl. simpl. obs_simpl. rewrite IH2. lia.
Qed.

Lemma VisitRoots_length st vs evs st' :
  VisitRoots g st vs evs st' →
  length evs =
  length (roots evs) + 2 * length (discovered evs) + 3 * length (examined evs).
Proof.
  induction 1 as [st|st v0 vs evs1 st1 evs2 st2 Hv HV HR IH|st v0 vs cv evs st2 _ _ _ IH].
  - done.
  - destruct (proj1 (Visit_entries g 0) _ _ _ _ HV) as [Hr1 _].
    pose proof (proj1 Visit_length _ _ _ _ HV) as Hlen.
    obs_simpl. forest_simpl. rewrite Hr1. simpl.
    rewrite !length_app, Hlen, IH. lia.
  - done.
Qed.

Lemma DfsProtocol_examined_permutation evs :
  out_edges_once g → DfsProtocol g evs → examined evs ≡ₚ edges g.
Proof.
  intros Honce HP.
  assert (∀ e, e ∈ examined evs → e ∈ edges g) as Hsub.
  { destruct HP as (body & st' & -> & HR). intros e. obs_simpl.
    rewrite (proj2 (proj2 (init_events_silent _))). simpl.
    apply (VisitRoots_examined_edges g _ _ _ _ HR). }
  assert (NoDup (edges g)) as Hnd.
  { apply NoDup_alt. intros i j e Hi Hj. apply edges_lookup in Hi, Hj. congruence. }
  apply NoDup_Permutation; [|done|].
  - apply NoDup_count. intros e. rewrite <- occurrences_examined.
    destruct (decide (e ∈ edges g)) as [He|He].
    + by destruct (DfsProtocol_edges g evs e HP Honce He) as [_ ->].
    + rewrite occurrences_examined.
      destruct (filter (e =.) (examined evs)) as [|e' l] eqn:E; [simpl; lia|].
      assert (e' ∈ filter (e =.) (examined evs)) as [<- ?%Hsub]%list_elem_of_filter
        by (rewrite E; by left).
      done.
  - intros e. split; [apply Hsub|]. intros He.
    destruct (DfsProtocol_edges g evs e HP Honce He) as [_ Hocc].
    rewrite occurrences_examined in Hocc.
    destruct (filter (e =.) (examined evs)) as [|e' l] eqn:E; [done|].
    assert (e' ∈ filter (e =.) (examined evs)) as [<- ?]%list_elem_of_filter
      by (rewrite E; by left).
    done.
Qed.

Lemma DfsProtocol_length evs :
  out_edges_once g → DfsProtocol g evs →
  length evs = 3 * numVertices g + length (roots evs) + 3 * numEdges g.
Proof.
  intros Honce HP.
  pose proof (DfsProtocol_examined_permutation evs Honce HP) as He.
  destruct (DfsProtocol_permutation g evs HP) as [Hd _].
  apply Permutation_length in He, Hd. rewrite length_seq in Hd.
  assert (length (edges g) = numEdges g) as Hm by apply length_imap.
  destruct HP as (body & st' & -> & HR). revert He Hd.
  obs_simpl. forest_simpl.
  destruct (roots_init (vertices g)) as (-> & _ & _).
  destruct (init_events_silent (vertices g)) as (-> & _ & ->). simpl.
  intros He Hd. rewrite length_app, length_fmap.
  rewrite (VisitRoots_length _ _ _ _ HR), He, Hd, Hm.
  unfold vertices. rewrite length_fmap, length_seq. lia.
Qed.
End CallbackCount.

(** X22: where a parameter lives until the end of the full-expression, a
    traversal of a well-formed graph examines every edge of the graph once,
    and calls the visitor three times per vertex, three times per edge and
    once more per root: the number of callbacks is linear in the size of the
    graph. *)
Theorem dfs_callbacks_linear {c : DirectedCategory} {VP EP : Type}
    (g : AdjacencyList c VP EP) :
  well_formed g →
  ∃ evs, dfs_trace UntilFullExpression g = Ok evs ∧
    examined evs ≡ₚ edges g ∧
    length (roots evs) ≤ numVertices g ∧
    length evs = 3 * numVertices g + length (roots evs) + 3 * numEdges g.
Proof.
  intros Hwf. destruct (dfs_trace_total g) as [evs Hevs];
    [by apply well_formed_traversable|].
  exists evs. split; [done|].
  pose proof (dfs_trace_protocol _ _ _ Hevs) as HP. destruct Hwf as [(Honce & _) _].
  split; [by apply DfsProtocol_examined_permutation|]. split.
  - pose proof (DfsProtocol_sizes g evs HP). lia.
  - by apply DfsProtocol_length.
Qed.

Lemma dfs_callbacks_linear_witness :
  well_formed loop_graph ∧
  ∃ evs, dfs_trace UntilFullExpression loop_graph = Ok evs ∧
    examined evs ≡ₚ edges loop_graph ∧
    length (roots evs) ≤ numVertices loop_graph ∧
    length evs =
      3 * numVertices loop_graph + length (roots evs) + 3 * numEdges loop_graph.
Proof.
  split; [apply loop_graph_well_formed|].
  apply (dfs_callbacks_linear loop_graph), loop_graph_well_formed.
Defined.

(** ** The callbacks are nested *)

Lemma nested_app evs1 evs2 stack :
  nested (evs1 ++ evs2) stack = nested evs1 stack ≫= nested evs2.
Proof.
  revert stack. induction evs1 as [|ev evs1 IH]; intros stack; [done|].
  simpl. destruct (nest_step stack ev); simpl; [apply IH | done].
Qed.

Lemma nested_cons ev evs stack :
  nested (ev :: evs) stack = nest_step stack ev ≫= nested evs.
Proof. done. Qed.

Section Nesting.
Context {c : DirectedCategory} {VP EP : Type} (g : AdjacencyList c VP EP).
Context (Hcons : adjacency_consistent g).

Lemma Visit_nested :
  (∀ st u evs st', Visit g st u evs st' →
     ∀ stack, (stack = [] ∨ ∃ e rest, stack = FrameEdge e :: rest ∧ tar e = u) →
              nested evs stack = Some stack) ∧
  (∀ st es evs st', VisitEdges g st es evs st' →
     ∀ u rest, (∀ e, e ∈ es → src e = u) →
               nested evs (FrameVertex u :: rest) = Some (FrameVertex u :: rest)).
Proof.
  apply Visit_VisitEdges_ind.
  - intros st u es evs st' _ Hes _ IH stack Hstack.
    assert (nest_step stack (EvDiscoverVertex u) = Some (FrameVertex u :: stack)) as Hd.
    { destruct Hstack as [->|(e & rest & -> & He)]; [done|].
      simpl. by rewrite decide_True. }
    rewrite nested_cons, Hd. simpl. rewrite nested_app, (IH u stack).
    + simpl. by rewrite decide_True.
    + intros e He. by eapply (out_edge_sequence_src g Hcons).
  - done.
  - intros st e es evs1 st1 evs2 st2 _ _ IH1 _ IH2 u rest Hes.
    simpl. rewrite decide_True by (apply Hes; by left). simpl.
    rewrite decide_True by done. simpl.
    rewrite nested_app, IH1 by (right; eauto). simpl.
    rewrite decide_True by done. simpl.
    apply IH2. intros e' He'. apply Hes. by right.
  - intros st e es evs2 st2 _ _ IH2 u rest Hes.
    simpl. rewrite decide_True by (apply Hes; by left). simpl.
    rewrite decide_True by done. simpl. rewrite decide_True by done. simpl.
    apply IH2. intros e' He'. apply Hes. by right.
  - intros st e es evs2 st2 _ _ IH2 u rest Hes.
    simpl. rewrite decide_True by (apply Hes; by left). simpl.
    rewrite decide_True by done. simpl. rewrite decide_True by done. simpl.
    apply IH2. intros e' He'. apply Hes. by right.
Qed.

Lemma VisitRoots_nested st vs evs st' :
  VisitRoots g st vs evs st' → nested evs [] = Some [].
Proof.
  induction 1 as [st|st v0 vs evs1 st1 evs2 st2 Hv HV HR IH|st v0 vs cv evs st2 _ _ _ IH].
  - done.
  - simpl. rewrite nested_app, (proj1 Visit_nested _ _ _ _ HV) by (by left). done.
  - done.
Qed.

Lemma DfsProtocol_nested evs : DfsProtocol g evs → nested evs [] = Some [].
Proof.
  intros (body & st' & -> & HR). rewrite nested_app.
  assert (∀ vs : list counting_iterator, nested (EvInitVertex <$> vs) [] = Some [])
    as ->.
  { induction vs as [|v vs IH]; [done|]. simpl. exact IH. }
  simpl. by eapply VisitRoots_nested.
Qed.
End Nesting.

(** X23: where a parameter lives until the end of the full-expression, the
    callbacks of a traversal of a well-formed graph are nested like brackets:
    [finishVertex(v)] closes the innermost open [discoverVertex(v)],
    [finishEdge(e)] the innermost open [examineEdge(e)]; an edge is examined
    while its source is the innermost open vertex and classified while it is
    the innermost open edge; a vertex is discovered at the outermost level or
    inside a tree edge that leads to it; and [initVertex] and [startVertex]
    are called while nothing is open. *)
Theorem dfs_callbacks_are_nested {c : DirectedCategory} {VP EP : Type}
    (g : AdjacencyList c VP EP) :
  well_formed g →
  ∃ evs, dfs_trace UntilFullExpression g = Ok evs ∧ nested evs [] = Some [].
Proof.
  intros Hwf. destruct (dfs_trace_total g) as [evs Hevs];
    [by apply well_formed_traversable|].
  exists evs. split; [done|]. destruct Hwf as [Hcons _].
  by apply (DfsProtocol_nested g Hcons), (dfs_trace_protocol UntilFullExpression).
Qed.

Lemma dfs_callbacks_are_nested_witness :
  well_formed loop_graph ∧
  ∃ evs, dfs_trace UntilFullExpression loop_graph = Ok evs ∧ nested evs [] = Some [].
Proof.
  split; [apply loop_graph_well_formed|].
  apply (dfs_callbacks_are_nested loop_graph), loop_graph_well_formed.
Defined.

(** ** A traversal reads the shape of the graph only *)

Lemma RecordingVisitor_related {c VP EP c' VP' EP'} :
  related_visitors (λ _ _, True) eq
    (RecordingVisitor : Visitor c VP EP unit (list Event))
    (RecordingVisitor : Visitor c' VP' EP' unit (list Event)).
Proof. repeat split; simpl; by subst. Qed.

Lemma dfs_trace_shape {c VP EP c' VP' EP'} pl
    (g : AdjacencyList c VP EP) (h : AdjacencyList c' VP' EP') :
  shape g = shape h → dfs_trace pl g = dfs_trace pl h.
Proof.
  intros Hs. unfold dfs_trace.
  destruct (dfs_run RecordingVisitor RecordingVisitor _ _ RecordingVisitor_related pl
              tt tt g h [] [] Hs I eq_refl) as [r r' [_ Hw]| |]; simpl; [|done|done].
  by rewrite Hw.
Qed.

(** X24: a traversal reads of the graph the out-edge references of the
    vertices and the end points of the edges only: two graphs that agree on
    these, whatever their payloads, payload types, in-edge lists and
    directedness tags, give the same callbacks in the same order; so writing
    a payload through [operator[]] does not change a traversal. *)
Theorem dfs_reads_shape_only {c : DirectedCategory} {VP EP : Type}
    (pl : ParamLifetime) (g : AdjacencyList c VP EP) :
  (∀ (c' : DirectedCategory) (VP' EP' : Type) (h : AdjacencyList c' VP' EP'),
     shape h = shape g → dfs_trace pl h = dfs_trace pl g) ∧
  (∀ v x g', vertex_prop_write g v x = Ok g' → dfs_trace pl g' = dfs_trace pl g) ∧
  (∀ e x g', edge_prop_write g e x = Ok g' → dfs_trace pl g' = dfs_trace pl g).
Proof.
  split; [|split].
  - intros c' VP' EP' h Hs. by apply dfs_trace_shape.
  - intros v x g' (sv & Hsv & ->)%vertex_prop_write_Ok. apply dfs_trace_shape.
    unfold shape. simpl. f_equal. by apply (fmap_insert_same _ _ _ sv).
  - intros e x g' (se & Hse & ->)%edge_prop_write_Ok. apply dfs_trace_shape.
    unfold shape. simpl. f_equal. by apply (fmap_insert_same _ _ _ se).
Qed.

(** * Further properties of the traversal, where a parameter outlives its call *)

(** X12: where a parameter lives until the end of the full-expression, [dfs]
    on a well-formed graph, connected or not, returns with every visitor; the
    callbacks it fires follow the protocol from one root after the other in
    ascending order, with [discoverVertex] and [finishVertex] fired exactly
    once for every vertex and [examineEdge] exactly once for every edge. *)
Theorem dfs_covers_graph_once {c : DirectedCategory} {VP EP : Type}
    (g : AdjacencyList c VP EP) :
  well_formed g →
  ∃ evs,
    dfs_trace UntilFullExpression g = Ok evs ∧
    (∀ (VS W : Type) (visitor : Visitor c VP EP VS W) vis w,
       ∃ r, dfs UntilFullExpression visitor vis g w = Ok r) ∧
    DfsProtocol g evs ∧
    (∀ v, v < numVertices g →
          occurrences (EvDiscoverVertex v) evs = 1 ∧
          occurrences (EvFinishVertex v) evs = 1) ∧
    (∀ e, e ∈ edges g →
          count_edge e (examined evs) = 1 ∧
          occurrences (EvExamineEdge e) evs = 1).
Proof.
  intros Hwf.
  destruct (dfs_trace_total g (well_formed_traversable g Hwf)) as [evs Hevs].
  pose proof (dfs_trace_protocol _ g evs Hevs) as Hp.
  exists evs. split; [done|]. split; [|split; [done|split]].
  - intros VS W visitor vis w. apply (dfs_trace_Ok_iff visitor). eauto.
  - intros v Hv. by apply (DfsProtocol_vertices g).
  - intros e He. apply (DfsProtocol_edges g); [done | apply Hwf | done].
Qed.

Lemma dfs_covers_graph_once_witness :
  well_formed loop_graph ∧
  ∃ evs,
    dfs_trace UntilFullExpression loop_graph = Ok evs ∧
    (∀ (VS W : Type) (visitor : Visitor Directed NoProp NoProp VS W) vis w,
       ∃ r, dfs UntilFullExpression visitor vis loop_graph w = Ok r) ∧
    DfsProtocol loop_graph evs ∧
    (∀ v, v < numVertices loop_graph →
          occurrences (EvDiscoverVertex v) evs = 1 ∧
          occurrences (EvFinishVertex v) evs = 1) ∧
    (∀ e, e ∈ edges loop_graph →
          count_edge e (examined evs) = 1 ∧
          occurrences (EvExamineEdge e) evs = 1).
Proof.
  split; [apply loop_graph_well_formed|].
  apply (dfs_covers_graph_once loop_graph), loop_graph_well_formed.
Defined.

(** X25: where a parameter lives until the end of the full-expression,
    [topoSort] into a [std::back_inserter] on a well-formed graph without
    cycles returns the graph as it was, having appended to the output
    sequence the vertices in the order in which [finishVertex] fired; the
    reverse of what it appended lists every vertex once, and for every edge
    [u -> v] it has [u] before [v]. *)
Theorem topoSort_reverse_topological_order {c : DirectedCategory} {VP EP : Type}
    (g : AdjacencyList c VP EP) (out : list VertexDescriptor) :
  well_formed g → acyclic g →
  ∃ evs,
    dfs_trace UntilFullExpression g = Ok evs ∧
    topoSort UntilFullExpression g back_inserter out = Ok (g, out ++ finished evs) ∧
    topological_order g (reverse (finished evs)).
Proof.
  intros Hwf Hacyclic.
  destruct (dfs_trace_total g (well_formed_traversable g Hwf)) as [evs Hevs].
  exists evs. split; [done|]. split; [by apply topoSort_finished|].
  apply DfsProtocol_topological; [apply Hwf | done | by eapply dfs_trace_protocol].
Qed.

Lemma topoSort_reverse_topological_order_witness :
  (well_formed graph1 ∧ acyclic graph1) ∧
  ∃ evs,
    dfs_trace UntilFullExpression graph1 = Ok evs ∧
    topoSort UntilFullExpression graph1 back_inserter [] = Ok (graph1, [] ++ finished evs) ∧
    topological_order graph1 (reverse (finished evs)).
Proof.
  split; [split; [apply graph1_well_formed | apply graph1_acyclic]|].
  apply (topoSort_reverse_topological_order graph1 []);
    [apply graph1_well_formed | apply graph1_acyclic].
Defined.

(** X26: where a parameter lives until the end of the full-expression, a
    visit of an Unvisited vertex [u], in a state that fits a traversable
    graph and with a depth that covers the Unvisited vertices, returns, and
    its callbacks are those of the protocol, which fixes them:
    [discoverVertex(u)]; for each out-edge [e] stored for [u], in adjacency
    order, [examineEdge(e)], then [treeEdge(e)] and the visit of the target if
    the target is Unvisited, [backEdge(e)] if it is Active,
    [forwardOrCrossEdge(e)] if it is Done, then [finishEdge(e)]; at last
    [finishVertex(u)]. *)
Theorem dfsVisit_fires_protocol {c : DirectedCategory} {VP EP : Type}
    (fuel : nat) (u : VertexDescriptor) (m : Memory c VP EP (list Event)) :
  traversable (mem_graph m) →
  length (mem_colour m) = numVertices (mem_graph m) →
  mem_colour m !! u = Some White →
  whites (mem_colour m) ≤ fuel →
  ∃ evs st',
    dfsVisit UntilFullExpression fuel RecordingVisitor tt u m =
      Ok (mkMemory (mem_graph m) st' (mem_world m ++ evs)) ∧
    Visit (mem_graph m) (mem_colour m) u evs st' ∧
    (∀ evs2 st2, Visit (mem_graph m) (mem_colour m) u evs2 st2 → evs2 = evs ∧ st2 = st').
Proof.
  intros Ht Hl Hu Hw.
  destruct (dfsVisit_total fuel u m) as [m' Hm']; [by split|done|done|].
  destruct (dfsVisit_sound _ _ _ _ _ Hu Hm') as (evs & Hg & Hw' & HV).
  exists evs, (mem_colour m'). split; [|split; [done|]].
  - rewrite Hm'. f_equal. destruct m'. simpl in *. by subst.
  - by apply (proj1 (Visit_deterministic _)).
Qed.

Lemma dfsVisit_fires_protocol_witness :
  (traversable loop_graph ∧
   length (replicate 3 White) = numVertices loop_graph ∧
   replicate 3 White !! 0 = Some White ∧
   whites (replicate 3 White) ≤ 3) ∧
  ∃ evs st',
    dfsVisit UntilFullExpression 3 RecordingVisitor tt 0
      (mkMemory loop_graph (replicate 3 White) []) =
      Ok (mkMemory loop_graph st' ([] ++ evs)) ∧
    Visit loop_graph (replicate 3 White) 0 evs st' ∧
    (∀ evs2 st2, Visit loop_graph (replicate 3 White) 0 evs2 st2 →
                 evs2 = evs ∧ st2 = st').
Proof.
  assert (traversable loop_graph) as Ht
    by apply well_formed_traversable, loop_graph_well_formed.
  assert (whites (replicate 3 White) ≤ 3) as Hw by (rewrite whites_replicate; lia).
  split.
  - split; [done|]. split; [reflexivity|]. split; [reflexivity|]. exact Hw.
  - apply (dfsVisit_fires_protocol 3 0 (mkMemory loop_graph (replicate 3 White) []));
      [exact Ht | reflexivity | reflexivity | exact Hw].
Defined.

(** * The specification against the ranges *)

(** ** A range read after its parameter is gone *)

(** Where a parameter dies when its function returns, the head of the loop
    of [dfsVisit] reads the descriptor through a dead reference. *)
Lemma dfsVisit_UntilReturn {c VP EP VS W} (visitor : Visitor c VP EP VS W) fuel vs u
    (m : Memory c VP EP W) :
  dfsVisit UntilReturn (S fuel) visitor vs u m = Fault.
Proof.
  simpl. unfold set_colour, assign. simpl. by destruct (mem_colour m !! u).
Qed.

Lemma dfs_trace_UntilReturn {c VP EP} (g : AdjacencyList c VP EP) :
  0 < numVertices g → dfs_trace UntilReturn g = Fault.
Proof.
  intros Hn. unfold dfs_trace, dfs.
  rewrite (dfs_init_total (numVertices g)); [|done|apply vertices_lt]. simpl.
  unfold vertices. destruct (numVertices g) as [|n]; [lia|].
  cbn [seq fmap list_fmap dfs_roots replicate]. simpl. done.
Qed.

Lemma dfs_UntilReturn {c VP EP VS W} (visitor : Visitor c VP EP VS W) vis
    (g : AdjacencyList c VP EP) w :
  0 < numVertices g → dfs UntilReturn visitor vis g w = Fault.
Proof.
  intros Hn. pose proof (dfs_trace_UntilReturn g Hn) as Ht. unfold dfs_trace in Ht.
  pose proof (dfs_control visitor RecordingVisitor UntilReturn vis tt g w []) as Hrel.
  destruct (dfs UntilReturn RecordingVisitor tt g []); [done| |done].
  by inversion Hrel.
Qed.

(** C4: [dfsVisit] takes the out-edges of the vertex it visits from
    [outEdges(u, g).begin()] and [outEdges(u, g).end()], and the range reads
    [u] through a reference to the parameter of [outEdges].  Where a
    parameter dies when its function returns no visit returns: on the graph
    with a self-loop and two parallel edges the visit of vertex [0] is
    undefined after [discoverVertex(0)], where the protocol, as the other
    lifetime gives it, goes on to thirteen callbacks in all. *)
Theorem dfsVisit_reads_dead_parameter :
  (∀ (c : DirectedCategory) (VP EP VS W : Type) (visitor : Visitor c VP EP VS W)
     fuel vs u (m m' : Memory c VP EP W),
     dfsVisit UntilReturn fuel visitor vs u m ≠ Ok m') ∧
  dfsVisit UntilReturn 3 RecordingVisitor tt 0
    (mkMemory loop_graph (replicate 3 White) []) = Fault ∧
  dfsVisit UntilFullExpression 3 RecordingVisitor tt 0
    (mkMemory loop_graph (replicate 3 White) []) =
  Ok (mkMemory loop_graph [Black; Black; White]
        [EvDiscoverVertex 0;
         EvExamineEdge (mkEdgeDescriptor 0 0 0); EvBackEdge (mkEdgeDescriptor 0 0 0);
         EvFinishEdge (mkEdgeDescriptor 0 0 0);
         EvExamineEdge (mkEdgeDescriptor 0 1 1); EvTreeEdge (mkEdgeDescriptor 0 1 1);
         EvDiscoverVertex 1; EvFinishVertex 1;
         EvFinishEdge (mkEdgeDescriptor 0 1 1);
         EvExamineEdge (mkEdgeDescriptor 0 1 2);
         EvForwardOrCrossEdge (mkEdgeDescriptor 0 1 2);
         EvFinishEdge (mkEdgeDescriptor 0 1 2);
         EvFinishVertex 0]).
Proof.
  split; [|split; reflexivity].
  intros c VP EP VS W visitor [|fuel] vs u m m'; [done|].
  by rewrite dfsVisit_UntilReturn.
Qed.

(** C2: [dfs] starts a visit from the first vertex, and the visit reads its
    out-edges through the dead parameter of [outEdges]: where a parameter
    dies when its function returns, [dfs] on a graph with a vertex is
    undefined, whatever the visitor; no callback count is guaranteed. *)
Theorem dfs_reads_dead_parameter {c : DirectedCategory} {VP EP : Type} {VS W : Type}
    (visitor : Visitor c VP EP VS W) (vis : VS) (g : AdjacencyList c VP EP) (w : W) :
  0 < numVertices g → dfs UntilReturn visitor vis g w = Fault.
Proof. apply dfs_UntilReturn. Qed.

Lemma dfs_reads_dead_parameter_witness :
  0 < numVertices loop_graph ∧ dfs UntilReturn RecordingVisitor tt loop_graph [] = Fault.
Proof.
  assert (0 < numVertices loop_graph) as Hn by (vm_compute; lia).
  split; [exact Hn|]. exact (dfs_reads_dead_parameter RecordingVisitor tt loop_graph [] Hn).
Defined.

(** C1: [topoSort] is [dfs] with [TopoVisitor]: where a parameter dies when
    its function returns it is undefined on every graph with a vertex, and
    no output order is guaranteed.  Where it returns, [TopoVisitor] assigns
    through the iterator without advancing it: an iterator into a vector
    keeps only the vertex finished last, in the one element it points to,
    where the specification has every vertex appended. *)
Theorem topoSort_reads_dead_parameter {c : DirectedCategory} {VP EP : Type}
    {OIter Out : Type} `{OutputIterator VP EP OIter Out}
    (g : AdjacencyList c VP EP) (oIter : OIter) (out : Out) :
  0 < numVertices g →
  topoSort UntilReturn g oIter out = Fault ∧
  topoSort UntilFullExpression graph1 (mkVectorIterator 0) (Ok (replicate 8 99)) =
    Ok (graph1, Ok (2 :: replicate 7 99)).
Proof.
  intros Hn. split; [by apply dfs_UntilReturn | reflexivity].
Qed.

Lemma topoSort_reads_dead_parameter_witness :
  0 < numVertices graph1 ∧
  topoSort UntilReturn graph1 back_inserter [] = Fault ∧
  topoSort UntilFullExpression graph1 (mkVectorIterator 0) (Ok (replicate 8 99)) =
    Ok (graph1, Ok (2 :: replicate 7 99)).
Proof.
  assert (0 < numVertices graph1) as Hn by (vm_compute; lia).
  split; [exact Hn|]. exact (topoSort_reads_dead_parameter graph1 back_inserter [] Hn).
Defined.

(** C8: the first graph of the driver has the vertices [0..7] and the edges
    [0→3, 3→5, 5→7, 2→4, 4→6, 6→7].  Where a parameter dies when its function
    returns, [topoSort] on it is undefined and no output is guaranteed; where
    a parameter lives until the end of the full-expression, [topoSort]
    followed by the reversal yields [2,4,6,1,0,3,5,7]. *)
Theorem testTopoSort_Graph1 :
  Graph1 = Ok graph1 ∧
  numVertices graph1 = 8 ∧
  (λ e, (src e, tar e)) <$> edges graph1 = [(0, 3); (3, 5); (5, 7); (2, 4); (4, 6); (6, 7)] ∧
  testTopoSort UntilReturn graph1 = Fault ∧
  testTopoSort UntilFullExpression graph1 = Ok [2; 4; 6; 1; 0; 3; 5; 7].
Proof. repeat split; reflexivity. Qed.

(** C6: [addEdge] stores the edge for its end points, but the adjacency is
    read through [outEdges] and [inEdges], and their ranges keep a reference
    to a parameter that is gone.  A range kept in a variable, as in [main],
    cannot be read on any implementation, and where a parameter dies when
    its function returns not even in the full-expression of the call; only
    where it lives until the end of the full-expression does the read find
    the stored edges.  In the graph of [main] the edge [0→1] is stored for
    vertex [0] as out-edge and [1→0], [2→0] as in-edges, and neither range
    of [main] can be read. *)
Theorem outEdges_range_outlives_parameter {c : DirectedCategory} {VP EP : Type}
    (g : AdjacencyList c VP EP) (v : VertexDescriptor) :
  (∀ pl, OutEdgeRange_edges (OutEdgeRange_kept (outEdges pl v g)) = Fault) ∧
  OutEdgeRange_edges (outEdges UntilReturn v g) = Fault ∧
  OutEdgeRange_edges (outEdges UntilFullExpression v g) = out_edge_sequence v g ∧
  (∀ pl req, InEdgeRange_edges (InEdgeRange_kept (inEdges pl req v g)) = Fault) ∧
  (∀ req, InEdgeRange_edges (inEdges UntilReturn req v g) = Fault) ∧
  (∀ req, InEdgeRange_edges (inEdges UntilFullExpression req v g) =
          in_edge_sequence req v g) ∧
  out_edge_sequence 0 main_graph = Ok [mkEdgeDescriptor 0 1 0] ∧
  in_edge_sequence eq_refl 0 main_graph =
    Ok [mkEdgeDescriptor 1 0 1; mkEdgeDescriptor 2 0 2] ∧
  (∀ pl, OutEdgeRange_edges (OutEdgeRange_kept (outEdges pl 0 main_graph)) = Fault ∧
         InEdgeRange_edges (InEdgeRange_kept (inEdges pl eq_refl 0 main_graph)) = Fault).
Proof.
  split; [done|]. split; [done|]. split; [done|]. split; [done|]. split; [done|].
  split; [intros req; apply (InEdgeRange_edges_inEdges UntilFullExpression)|].
  split; [reflexivity|]. split; [reflexivity|]. done.
Qed.

(** C9: no [InEdgeRange] exists for a Directed graph, and no call of
    [inEdges] or [inDegree]: their constraint is not met.  For a
    Bidirectional graph they are written as [outEdges] and [outDegree] are,
    the reference to the dead parameter included: [inDegree] and [outDegree]
    keep the range in a variable and read it in the next statement, which is
    undefined on every implementation, while the number of in-edge and
    out-edge references stored for the vertex is there to be read: two and
    one for vertex [0] of the graph of [main]. *)
Theorem inDegree_reads_dead_parameter {c : DirectedCategory} {VP EP : Type}
    (pl : ParamLifetime) (req : requires_Bidirectional c)
    (v : VertexDescriptor) (g : AdjacencyList c VP EP) :
  inDegree pl req v g = Fault ∧ outDegree pl v g = Fault ∧
  InEdgeRange_edges (InEdgeRange_kept (inEdges pl req v g)) = Fault ∧
  (InEdgeRange Directed VP EP → False) ∧ (requires_Bidirectional Directed → False) ∧
  in_edge_count eq_refl 0 main_graph = Ok 2 ∧ out_edge_count 0 main_graph = Ok 1 ∧
  inDegree pl eq_refl 0 main_graph = Fault ∧ outDegree pl 0 main_graph = Fault.
Proof.
  split; [done|]. split; [done|]. split; [done|].
  split; [intros r; by destruct (ier_static_assert r)|].
  split; [discriminate|]. repeat split; reflexivity.
Qed.

Lemma inDegree_reads_dead_parameter_witness :
  requires_Bidirectional Bidirectional ∧
  inDegree UntilFullExpression eq_refl 0 main_graph = Fault ∧
  outDegree UntilFullExpression 0 main_graph = Fault ∧
  in_edge_count eq_refl 0 main_graph = Ok 2.
Proof.
  split; [reflexivity|].
  destruct (inDegree_reads_dead_parameter UntilFullExpression eq_refl 0 main_graph)
    as (Hin & Hout & _ & _ & _ & Hcount & _).
  split; [exact Hin|]. split; [exact Hout | exact Hcount].
Defined.

(** ** The arguments of the first callbacks *)

(** C3: what [dfs] hands to [initVertex] and [startVertex] on the graph with
    one vertex: the iterator of the vertex range, where [discoverVertex] and
    [finishVertex] receive the descriptor.  The first loop has handed the
    iterator to [initVertex] before any range is read. *)
Theorem dfs_initVertex_receives_iterator :
  dfs_trace UntilFullExpression (AdjacencyList_n 1 : TestGraph) =
    Ok [EvInitVertex (mkCountingIterator 0); EvStartVertex (mkCountingIterator 0);
        EvDiscoverVertex 0; EvFinishVertex 0] ∧
  dfs_init RecordingVisitor (vertices (AdjacencyList_n 1 : TestGraph)) tt
    (mkMemory (AdjacencyList_n 1) [White] []) =
    Ok (tt, mkMemory (AdjacencyList_n 1 : TestGraph) [White]
              [EvInitVertex (mkCountingIterator 0)]).
Proof. split; reflexivity. Qed.

(** ** What a traversal leaves of the graph *)

Lemma structure_same_adjacency {c VP EP} (g g' : AdjacencyList c VP EP) :
  structure g' = structure g → same_adjacency g g'.
Proof.
  intros Hs. destruct (structure_lengths _ _ Hs) as [Hnv Hne].
  unfold structure in Hs. injection Hs as Hv He.
  destruct (same_references g g') as (Hedges & Hout & Hin); [| |done|].
  - apply (f_equal (fmap fst)) in Hv. by rewrite <- !list_fmap_compose in Hv.
  - apply (f_equal (fmap snd)) in Hv. by rewrite <- !list_fmap_compose in Hv.
  - split; [done|]. split; [done|]. split; [done|]. split.
    + intros v. apply Hout.
    + intros req v. apply Hin.
Qed.

Lemma unchanged_refl {c VP EP} (g : AdjacencyList c VP EP) : unchanged g g.
Proof. by repeat split. Qed.

(** The payload that [topoSort] leaves where the output iterator points
    into the graph. *)
Lemma topoSort_payload_pointer :
  topoSort UntilFullExpression two_vertices (mkPayloadPointer 0) tt =
  Ok (mkAdjacencyList [@mkStoredVertex Directed nat [] tt 1;
                       @mkStoredVertex Directed nat [] tt 0] [], tt).
Proof. reflexivity. Qed.

(** C10: [dfs] and [topoSort] write nothing to the graph themselves.  After
    [dfs] with any visitor, or [topoSort] with any output iterator, has
    returned, the vertex count, the edge count, the edge range and every
    adjacency sequence are what they were before the call, whatever the
    callbacks wrote to the payloads; and with a visitor whose callbacks do
    not write to the graph (an output iterator that does not point into it)
    the graph is the one that was given, payloads included.  Where a
    parameter lives until the end of the full-expression both calls return
    on a well-formed graph. *)
Theorem dfs_leaves_graph {c : DirectedCategory} {VP EP : Type} {VS W OIter Out : Type}
    `{OutputIterator VP EP OIter Out} (pl : ParamLifetime)
    (visitor : Visitor c VP EP VS W) (vis : VS) (g : AdjacencyList c VP EP) (w : W)
    (oIter : OIter) (out : Out) :
  (∀ r, dfs pl visitor vis g w = Ok r →
        same_adjacency g r.1 ∧
        (writes_nothing visitor → r.1 = g ∧ unchanged g r.1)) ∧
  (∀ r, topoSort pl g oIter out = Ok r →
        same_adjacency g r.1 ∧
        ((∀ iter v o, (iter_assign iter v o).2 = None) → r.1 = g ∧ unchanged g r.1)) ∧
  (well_formed g →
   (∃ r, dfs UntilFullExpression visitor vis g w = Ok r) ∧
   (∃ r, topoSort UntilFullExpression g oIter out = Ok r)).
Proof.
  split; [|split].
  - intros r Hr. split; [by eapply structure_same_adjacency, dfs_structure|].
    intros Hw. rewrite (dfs_graph _ _ _ _ _ _ Hw Hr). split; [done | apply unchanged_refl].
  - intros r Hr. unfold topoSort in Hr.
    split; [by eapply structure_same_adjacency, dfs_structure|].
    intros Hw. rewrite (dfs_graph _ _ _ _ _ _ (TopoVisitor_writes _ eq_refl Hw) Hr).
    split; [done | apply unchanged_refl].
  - intros Hwf.
    destruct (dfs_trace_total g (well_formed_traversable g Hwf)) as [evs Hevs].
    split; [|unfold topoSort]; apply dfs_trace_Ok_iff; eauto.
Qed.

Lemma RecordingVisitor_writes_nothing {c VP EP} :
  writes_nothing (RecordingVisitor : Visitor c VP EP unit (list Event)).
Proof. by repeat split. Qed.

Lemma dfs_leaves_graph_witness :
  (well_formed graph1 ∧
   writes_nothing (RecordingVisitor : Visitor Directed NoProp NoProp unit (list Event))) ∧
  (∃ r, dfs UntilFullExpression RecordingVisitor tt graph1 [] = Ok r ∧
        r.1 = graph1 ∧ unchanged graph1 r.1) ∧
  (∃ r, topoSort UntilFullExpression graph1 back_inserter [] = Ok r ∧
        r.1 = graph1 ∧ unchanged graph1 r.1).
Proof.
  split; [split; [apply graph1_well_formed | apply RecordingVisitor_writes_nothing]|].
  destruct (dfs_leaves_graph UntilFullExpression RecordingVisitor tt graph1 []
              back_inserter []) as (Hdfs & Htopo & Hret).
  destruct (Hret graph1_well_formed) as [[r Hr] [r' Hr']]. split.
  - exists r. split; [exact Hr|].
    exact (proj2 (Hdfs r Hr) RecordingVisitor_writes_nothing).
  - exists r'. split; [exact Hr'|]. apply (proj2 (Htopo r' Hr')). by intros [] v o.
Defined.

(** With an output iterator that points to the payload of vertex [0] of the
    graph that is sorted, [topoSort] returns a graph whose payload is not
    what it was. *)
Lemma topoSort_writes_aliased_payload :
  ∃ g', topoSort UntilFullExpression two_vertices (mkPayloadPointer 0) tt = Ok (g', tt) ∧
        vertex_prop two_vertices 0 = Ok 0 ∧ vertex_prop g' 0 = Ok 1 ∧
        ¬ unchanged two_vertices g'.
Proof.
  eexists. split; [apply topoSort_payload_pointer|]. split; [reflexivity|].
  split; [reflexivity|]. intros (_ & _ & _ & _ & Hp & _). by specialize (Hp 0).
Qed.
